(** * libswipetype: a shallow embedding of the recognition core

    The development follows the C++ sources of [swipetype-core]:
    [SwipeTypeTypes.h], [GesturePoint.h], [GesturePath.h],
    [GestureCandidate.h], [KeyboardLayout.h] / [AdjacencyMap.cpp],
    [DictionaryLoader.cpp], [PathProcessor.cpp], [IdealPathGenerator.cpp],
    [Scorer.cpp], [GestureEngine.cpp] and [tests/TestHelpers.h].

    Conventions.
    - C++ [float] is an abstract carrier [F] with the operations of the
      class [FloatOps].  Two instances are given: [F32.ops], IEEE-754
      binary32 with round-to-nearest-even built on the Standard Library's
      [SpecFloat] (every operation rounded on its own, as the sources are
      compiled without contraction), and [QExact.ops], exact rational
      arithmetic.  Concrete runs of the program use [F32.ops].
    - [int], [int32_t], [int64_t], [uint32_t], [size_t] are [Z] (or [nat]
      for positions in a vector); the values the program builds stay in
      range, conversions from [float] are the mathematical truncation.
    - [std::string] is [string], a byte buffer is [list byte].
    - Objects with state ([DictionaryLoader], [IdealPathGenerator],
      [GestureEngine]) are records passed in and returned.
    - [std::sort] is not part of the repository: it is a parameter of
      [GestureEngine.recognize], constrained by the contract the C++
      standard gives it ([std_sort_contract]).  To run the program as GCC
      builds it, [GnuSort] transcribes the [std::sort] of libstdc++. *)

From Stdlib Require Import ZArith List Bool Lia Permutation Sorted.
From Stdlib Require Import QArith Qround Qabs Lqa.
From Stdlib Require Import Floats.SpecFloat.
From Stdlib Require Import Strings.Ascii Strings.String Strings.Byte.
From stdpp Require Import gmap strings list pretty.

Local Open Scope Z_scope.
Local Open Scope list_scope.

(** ** C++ [float] as an interface *)

Class FloatOps (F : Type) := {
  fadd : F -> F -> F;
  fsub : F -> F -> F;
  fmul : F -> F -> F;
  fdiv : F -> F -> F;
  fsqrt : F -> F;            (* std::sqrt *)
  fabs : F -> F;             (* std::abs *)
  fceil : F -> F;            (* std::ceil *)
  fltb : F -> F -> bool;     (* operator< *)
  fleb : F -> F -> bool;     (* operator<= *)
  of_int : Z -> F;           (* static_cast<float>(integer) *)
  to_int : F -> Z;           (* static_cast<integer>(float): truncation *)
  FLT_MAX : F
}.

Declare Scope float_scope.
Delimit Scope float_scope with f.
Notation "a + b" := (fadd a b) : float_scope.
Notation "a - b" := (fsub a b) : float_scope.
Notation "a * b" := (fmul a b) : float_scope.
Notation "a / b" := (fdiv a b) : float_scope.
Notation "a <? b" := (fltb a b) : float_scope.
Notation "a <=? b" := (fleb a b) : float_scope.
Notation "a >? b" := (fltb b a) : float_scope.
Notation "a >=? b" := (fleb b a) : float_scope.

Section FloatDerived.
Context {F : Type} {FO : FloatOps F}.

(** A decimal literal [n/d] with [n] and [d] exactly representable: one
    correctly rounded division gives the float nearest to the literal. *)
Definition lit (n : Z) (d : Z) : F := (of_int n / of_int d)%f.

Definition f0 : F := of_int 0.
Definition f1 : F := of_int 1.

(** [std::min] and [std::max] of <algorithm>:
    [min(a,b) = (b < a) ? b : a], [max(a,b) = (a < b) ? b : a]. *)
Definition fmin (a b : F) : F := if (b <? a)%f then b else a.
Definition fmax (a b : F) : F := if (a <? b)%f then b else a.
End FloatDerived.

(** ** IEEE-754 binary32 *)

Module F32.
Definition prec : Z := 24.
Definition emax : Z := 128.
Definition f32 : Type := spec_float.

Definition of_Z (z : Z) : f32 := binary_normalize prec emax z 0 false.

(** [std::ceil]: the least integer not below [x]; it is exact. *)
Definition ceil (x : f32) : f32 :=
  match x with
  | S754_finite s m e =>
      if 0 <=? e then x
      else
        let z := cond_Zopp s (Zpos m) in
        binary_normalize prec emax (- ((- z) / 2 ^ (- e))) 0 s
  | _ => x
  end.

(** Conversion to an integer type truncates toward zero.  For NaN and
    infinities C++ leaves the result undefined; the model returns 0. *)
Definition trunc (x : f32) : Z :=
  match x with
  | S754_finite s m e =>
      let z := cond_Zopp s (Zpos m) in
      if 0 <=? e then z * 2 ^ e else Z.quot z (2 ^ (- e))
  | _ => 0
  end.

#[global] Instance ops : FloatOps f32 := {|
  fadd := SFadd prec emax;
  fsub := SFsub prec emax;
  fmul := SFmul prec emax;
  fdiv := SFdiv prec emax;
  fsqrt := SFsqrt prec emax;
  fabs := SFabs;
  fceil := ceil;
  fltb := SFltb;
  fleb := SFleb;
  of_int := of_Z;
  to_int := trunc;
  FLT_MAX := SFmax_float prec emax
|}.
End F32.

(** ** Exact rational arithmetic *)

Module QExact.
(** Square root rounded down to a multiple of [1/den]. *)
Definition sqrt_down (q : Q) : Q :=
  Qmake (Z.sqrt (Qnum q * Zpos (Qden q))) (Qden q).

Definition ltb (a b : Q) : bool := negb (Qle_bool b a).

#[global] Instance ops : FloatOps Q := {|
  fadd := Qplus;
  fsub := Qminus;
  fmul := Qmult;
  fdiv := Qdiv;
  fsqrt := sqrt_down;
  fabs := Qabs;
  fceil := fun q => inject_Z (Qceiling q);
  fltb := ltb;
  fleb := Qle_bool;
  of_int := inject_Z;
  to_int := fun q => Z.quot (Qnum q) (Zpos (Qden q));
  FLT_MAX := inject_Z ((2 ^ 24 - 1) * 2 ^ 104)
|}.
End QExact.

(** ** SwipeTypeTypes.h *)

Module Types.
Definition RESAMPLE_COUNT : Z := 64.
Definition MIN_GESTURE_POINTS : Z := 2.
Definition MAX_GESTURE_POINTS : Z := 10000.
Definition DTW_BANDWIDTH : Z := 6.
Definition DEFAULT_MAX_CANDIDATES : Z := 8.
Definition MAX_MAX_CANDIDATES : Z := 20.

Definition DICT_MAGIC : Z := 0x474C4944.
Definition DICT_VERSION : Z := 1.
Definition DICT_HEADER_SIZE : Z := 32.
Definition MAX_WORD_LENGTH : Z := 64.

Definition SOURCE_MAIN_DICT : Z := 0x01.
Definition SOURCE_USER_DICT : Z := 0x02.
Definition SOURCE_COMPLETION : Z := 0x04.
Definition DICT_FLAG_PROPER_NOUN : Z := 0x01.
Definition DICT_FLAG_PROFANITY : Z := 0x02.

Inductive ErrorCode :=
| NONE | DICT_NOT_FOUND | DICT_CORRUPT | DICT_VERSION_MISMATCH
| LAYOUT_INVALID | PATH_TOO_SHORT | ENGINE_NOT_INITIALIZED | OUT_OF_MEMORY.

Record ErrorInfo := { code : ErrorCode; message : string }.
Definition noError : ErrorInfo := {| code := NONE; message := "" |}.

Section WithFloat.
Context {F : Type} {FO : FloatOps F}.

Definition MIN_POINT_DISTANCE_DP : F := lit 2 1.
Definition DTW_BANDWIDTH_RATIO : F := lit 10 100.
Definition FREQUENCY_WEIGHT : F := lit 30 100.
Definition LENGTH_FILTER_TOLERANCE : F := lit 3 1.
Definition MAX_DTW_FLOOR : F := lit 3 1.

Record ScoringConfig := {
  resampleCount : Z;
  minPointDistance : F;
  dtwBandwidthRatio : F;
  frequencyWeight : F;
  maxCandidatesEvaluated : Z;
  lengthFilterTolerance : F;
  maxDTWFloor : F
}.

(** The member initialisers of [struct ScoringConfig]. *)
Definition defaultConfig : ScoringConfig := {|
  resampleCount := RESAMPLE_COUNT;
  minPointDistance := MIN_POINT_DISTANCE_DP;
  dtwBandwidthRatio := DTW_BANDWIDTH_RATIO;
  frequencyWeight := FREQUENCY_WEIGHT;
  maxCandidatesEvaluated := MAX_MAX_CANDIDATES;
  lengthFilterTolerance := LENGTH_FILTER_TOLERANCE;
  maxDTWFloor := MAX_DTW_FLOOR
|}.
End WithFloat.
Arguments ScoringConfig : clear implicits.
End Types.
Import Types.

(** [std::tolower] on an [unsigned char] in the "C" locale. *)
Definition tolower (c : ascii) : ascii :=
  let n := Z.of_N (N_of_ascii c) in
  if (65 <=? n) && (n <=? 90) then ascii_of_N (Z.to_N (n + 32)) else c.

Definition code_of (c : ascii) : Z := Z.of_N (N_of_ascii c).

Definition lowercase (s : string) : string :=
  string_of_list_ascii (List.map tolower (list_ascii_of_string s)).

(** ** GesturePoint.h *)

Module GesturePoint.
Section WithFloat.
Context {F : Type} {FO : FloatOps F}.
Record t := mk { x : F; y : F; timestamp : Z }.
(** [GesturePoint()] *)
Definition default : t := {| x := f0; y := f0; timestamp := 0 |}.
End WithFloat.
Arguments t : clear implicits.
End GesturePoint.

Module NormalizedPoint.
Section WithFloat.
Context {F : Type} {FO : FloatOps F}.
Record t := mk { x : F; y : F; t' : F }.
End WithFloat.
Arguments t : clear implicits.
End NormalizedPoint.

(** ** GesturePath.h *)

Module RawGesturePath.
Section WithFloat.
Context {F : Type} {FO : FloatOps F}.
Record t := mk { points : list (GesturePoint.t F) }.
Definition isEmpty (p : t) : bool := (length (points p) <? 2)%nat.
Definition size (p : t) : nat := length (points p).
End WithFloat.
Arguments t : clear implicits.
End RawGesturePath.

Module GesturePath.
Section WithFloat.
Context {F : Type} {FO : FloatOps F}.
Record t := mk {
  points : list (NormalizedPoint.t F);
  aspectRatio : F;
  totalArcLength : F;
  startKeyIndex : Z;
  endKeyIndex : Z
}.
(** [GesturePath()] *)
Definition default : t := {|
  points := [];
  aspectRatio := f1;
  totalArcLength := f0;
  startKeyIndex := -1;
  endKeyIndex := -1
|}.
Definition isValid (p : t) : bool := Z.of_nat (length (points p)) =? 64.
End WithFloat.
Arguments t : clear implicits.
End GesturePath.

(** ** GestureCandidate.h *)

Module GestureCandidate.
Section WithFloat.
Context {F : Type} {FO : FloatOps F}.
Record t := mk {
  word : string;
  confidence : F;
  sourceFlags : Z;
  dtwScore : F;
  frequencyScore : F
}.
End WithFloat.
Arguments t : clear implicits.
End GestureCandidate.

(** ** KeyboardLayout.h and AdjacencyMap.cpp *)

Module KeyDescriptor.
Section WithFloat.
Context {F : Type} {FO : FloatOps F}.
Record t := mk {
  label : string;
  codePoint : Z;
  centerX : F;
  centerY : F;
  width : F;
  height : F
}.
Definition isCharacterKey (k : t) : bool := 0 <=? codePoint k.
End WithFloat.
Arguments t : clear implicits.
End KeyDescriptor.

Module KeyboardLayout.
Import KeyDescriptor.
Section WithFloat.
Context {F : Type} {FO : FloatOps F}.

Record t := mk {
  languageTag : string;
  keys : list (KeyDescriptor.t F);
  layoutWidth : F;
  layoutHeight : F
}.

(** [KeyboardLayout()] *)
Definition default : t := {|
  languageTag := ""; keys := []; layoutWidth := f0; layoutHeight := f0 |}.

(** The loop of [findNearestKey], from index [i] on. *)
Fixpoint findNearestKey_from (ks : list (KeyDescriptor.t F)) (i : Z)
    (x y : F) (bestIndex : Z) (bestDist : F) : Z :=
  match ks with
  | [] => bestIndex
  | key :: ks' =>
      if negb (isCharacterKey key)
      then findNearestKey_from ks' (i + 1) x y bestIndex bestDist
      else
        let dx := (centerX key - x)%f in
        let dy := (centerY key - y)%f in
        let dist := fsqrt (dx * dx + dy * dy)%f in
        if (dist <? bestDist)%f
        then findNearestKey_from ks' (i + 1) x y i dist
        else findNearestKey_from ks' (i + 1) x y bestIndex bestDist
  end.

Definition findNearestKey (l : t) (x y : F) : Z :=
  findNearestKey_from (keys l) 0 x y (-1) FLT_MAX.

Definition asciiLower (cp : Z) : Z :=
  if (65 <=? cp) && (cp <=? 90) then cp - 65 + 97 else cp.

Fixpoint findKeyByCodePoint_from (ks : list (KeyDescriptor.t F)) (i : Z)
    (searchCp : Z) : Z :=
  match ks with
  | [] => -1
  | key :: ks' =>
      if asciiLower (codePoint key) =? searchCp then i
      else findKeyByCodePoint_from ks' (i + 1) searchCp
  end.

Definition findKeyByCodePoint (l : t) (cp : Z) : Z :=
  findKeyByCodePoint_from (keys l) 0 (asciiLower cp).

Definition isValid (l : t) : bool :=
  match keys l with
  | [] => false
  | _ =>
      if (layoutWidth l <=? f0)%f || (layoutHeight l <=? f0)%f then false
      else existsb isCharacterKey (keys l)
  end.

(** [keys[i]] for an index the code has checked. *)
Definition key_at (l : t) (i : Z) : KeyDescriptor.t F :=
  nth (Z.to_nat i) (keys l)
    (KeyDescriptor.mk "" (-1) f0 f0 f0 f0).
End WithFloat.
Arguments t : clear implicits.
End KeyboardLayout.

(** ** DictionaryLoader.h and DictionaryLoader.cpp *)

Module DictionaryEntry.
Record t := mk { word : string; frequency : Z; flags : Z }.
End DictionaryEntry.

Module DictionaryHeader.
Record t := mk {
  magic : Z; version : Z; flags : Z; entryCount : Z; languageTag : string }.
(** [DictionaryHeader()] *)
Definition default : t := mk 0 0 0 0 "".
End DictionaryHeader.

Module DictionaryLoader.
Import DictionaryEntry.

Record Impl := mkImpl {
  entries : list DictionaryEntry.t;
  header : DictionaryHeader.t;
  maxFrequency : Z;
  lastError : ErrorInfo;
  loaded : bool
}.

(** [DictionaryLoader()] *)
Definition new : Impl := mkImpl [] DictionaryHeader.default 0 noError false.

Definition setError (d : Impl) (c : ErrorCode) (msg : string) : Impl :=
  mkImpl (entries d) (header d) (maxFrequency d)
         {| code := c; message := msg |} (loaded d).

Definition clearError (d : Impl) : Impl :=
  mkImpl (entries d) (header d) (maxFrequency d) noError (loaded d).

(** [data[i]] as an unsigned value. *)
Definition byte_at (data : list byte) (i : Z) : Z :=
  Z.of_N (Byte.to_N (nth (Z.to_nat i) data x00)).

Definition readU16LE (buf : list byte) (offset : Z) : Z :=
  Z.lor (byte_at buf offset) (Z.shiftl (byte_at buf (offset + 1)) 8).

Definition readU32LE (buf : list byte) (offset : Z) : Z :=
  Z.lor (Z.lor (Z.lor (byte_at buf offset)
                      (Z.shiftl (byte_at buf (offset + 1)) 8))
               (Z.shiftl (byte_at buf (offset + 2)) 16))
        (Z.shiftl (byte_at buf (offset + 3)) 24).

(** [std::string(data + pos, len)] *)
Definition string_at (data : list byte) (pos len : Z) : string :=
  string_of_list_byte (firstn (Z.to_nat len) (skipn (Z.to_nat pos) data)).

(** The entry loop of [parseFromBuffer]: [n] iterations remain, the loop
    variable is [i], the read position is [pos]. *)
Fixpoint parseEntries (n : nat) (i : Z) (data : list byte) (size : Z)
    (pos : Z) (d : Impl) : bool * Impl :=
  match n with
  | O => (true, mkImpl (entries d) (header d) (maxFrequency d)
                       (lastError d) true)
  | S n' =>
      if size <? pos + 1 then
        (false, setError d DICT_CORRUPT
           (String.append "Unexpected end of data at entry " (pretty i)))
      else
        let wordLen := byte_at data pos in
        let pos := pos + 1 in
        if MAX_WORD_LENGTH <? wordLen then
          (false, setError d DICT_CORRUPT "Word length exceeds maximum")
        else if size <? pos + wordLen + 4 + 1 then
          (false, setError d DICT_CORRUPT
             (String.append "Truncated entry at index " (pretty i)))
        else
          let w := string_at data pos wordLen in
          let pos := pos + wordLen in
          let freq := readU32LE data pos in
          let pos := pos + 4 in
          let fl := byte_at data pos in
          let pos := pos + 1 in
          let maxF := if maxFrequency d <? freq then freq
                      else maxFrequency d in
          parseEntries n' (i + 1) data size pos
            (mkImpl (entries d ++ [DictionaryEntry.mk w freq fl])
                    (header d) maxF (lastError d) (loaded d))
  end.

(** [parseFromBuffer].  Before the loop the source calls
    [entries.reserve(header.entryCount)], which throws [std::bad_alloc]
    when the count read from the header is more than the allocator gives;
    the model describes the runs where the allocation succeeds, and then
    [reserve] changes nothing that can be observed. *)
Definition parseFromBuffer (d : Impl) (data : list byte) : bool * Impl :=
  let size := Z.of_nat (length data) in
  (* clearError(); entries.clear(); header = DictionaryHeader();
     maxFrequency = 0; *)
  let d := mkImpl [] DictionaryHeader.default 0 noError (loaded d) in
  if size <? DICT_HEADER_SIZE then
    (false, setError d DICT_CORRUPT "File too small for header")
  else
    let langLen := readU16LE data 12 in
    let tag := if (0 <? langLen) && (14 + langLen <=? DICT_HEADER_SIZE)
               then string_at data 14 langLen else "" in
    let h := DictionaryHeader.mk (readU32LE data 0) (readU16LE data 4)
               (readU16LE data 6) (readU32LE data 8) tag in
    let d := mkImpl (entries d) h (maxFrequency d) (lastError d) (loaded d) in
    if negb (DictionaryHeader.magic h =? DICT_MAGIC) then
      (false, setError d DICT_CORRUPT "Invalid magic bytes")
    else if negb (DictionaryHeader.version h =? DICT_VERSION) then
      (false, setError d DICT_VERSION_MISMATCH
         (String.append "Unsupported dictionary version: "
                        (pretty (DictionaryHeader.version h))))
    else
      parseEntries (Z.to_nat (DictionaryHeader.entryCount h)) 0 data size
                   DICT_HEADER_SIZE d.

Definition unload (d : Impl) : Impl :=
  mkImpl [] DictionaryHeader.default 0 noError false.

Definition loadFromMemory (d : Impl) (data : list byte) : bool * Impl :=
  parseFromBuffer (unload d) data.

(** What opening and reading a file can give. *)
Inductive FileResult :=
| CannotOpen | ReadFailed | Contents (buffer : list byte).

Definition load (fs : string -> FileResult) (d : Impl) (filePath : string)
    : bool * Impl :=
  let d := unload d in
  match fs filePath with
  | CannotOpen =>
      (false, setError d DICT_NOT_FOUND
                (String.append "Cannot open file: " filePath))
  | ReadFailed =>
      (false, setError d DICT_CORRUPT
                (String.append "Failed to read file: " filePath))
  | Contents buffer => parseFromBuffer d buffer
  end.

Definition isLoaded (d : Impl) : bool := loaded d.
Definition getHeader (d : Impl) : DictionaryHeader.t := header d.
Definition getEntryCount (d : Impl) : Z := Z.of_nat (length (entries d)).
Definition getMaxFrequency (d : Impl) : Z := maxFrequency d.
Definition getLastError (d : Impl) : ErrorInfo := lastError d.

Definition getAllEntries (d : Impl) : list DictionaryEntry.t :=
  if loaded d then entries d else [].

(** [word.front()] and [word.back()] of a non-empty word. *)
Definition front (w : string) : ascii :=
  match w with String c _ => c | EmptyString => zero end.
Definition back (w : string) : ascii :=
  List.last (list_ascii_of_string w) zero.
Definition empty (w : string) : bool :=
  match w with EmptyString => true | _ => false end.

Definition getEntriesStartingWith (d : Impl) (startChar : ascii)
    : list DictionaryEntry.t :=
  if negb (loaded d) then []
  else
    let lc := tolower startChar in
    List.filter
      (fun entry => negb (empty (word entry))
                    && (code_of (tolower (front (word entry))) =? code_of lc))
      (entries d).

Definition getEntriesWithStartEnd (d : Impl) (startChar endChar : ascii)
    : list DictionaryEntry.t :=
  if negb (loaded d) then []
  else
    let lcS := tolower startChar in
    let lcE := tolower endChar in
    List.filter
      (fun entry =>
         if empty (word entry) then false
         else (code_of (tolower (front (word entry))) =? code_of lcS)
              && (code_of (tolower (back (word entry))) =? code_of lcE))
      (entries d).

Definition lookup (d : Impl) (w : string) : option DictionaryEntry.t :=
  if negb (loaded d) || empty w then None
  else
    let lcWord := lowercase w in
    List.find (fun entry => String.eqb (lowercase (word entry)) lcWord)
              (entries d).
End DictionaryLoader.

(** ** PathProcessor.h and PathProcessor.cpp *)

Module PathProcessor.
Section WithFloat.
Context {F : Type} {FO : FloatOps F}.
Abbreviation Point := (GesturePoint.t F).
Abbreviation px := GesturePoint.x.
Abbreviation py := GesturePoint.y.
Abbreviation pts := GesturePoint.timestamp.

Record Impl := mkImpl { minPointDistance : F; resampleCount : Z }.

(** [PathProcessor()] *)
Definition new : Impl := mkImpl MIN_POINT_DISTANCE_DP RESAMPLE_COUNT.

(** [sqrt(dx*dx + dy*dy)] with [dx = b.x - a.x], [dy = b.y - a.y]. *)
Definition segment (a b : Point) : F :=
  let dx := (px b - px a)%f in
  let dy := (py b - py a)%f in
  fsqrt (dx * dx + dy * dy)%f.

(** The loop of [deduplicate] over [points[1 .. size-2]]; [last] is
    [result.back()]. *)
Fixpoint deduplicate_mid (minDist : F) (last : Point) (mid : list Point)
    : list Point :=
  match mid with
  | [] => []
  | cur :: rest =>
      if (segment last cur >=? minDist)%f
      then cur :: deduplicate_mid minDist cur rest
      else deduplicate_mid minDist last rest
  end.

Definition deduplicate (p : Impl) (points : list Point) : list Point :=
  match points with
  | p0 :: rest =>
      if (length points <=? 2)%nat then points
      else p0 :: deduplicate_mid (minPointDistance p) p0 (removelast rest)
              ++ [List.last rest p0]
  | [] => points
  end.

Fixpoint arcLength_from (prev : Point) (rest : list Point) (total : F) : F :=
  match rest with
  | [] => total
  | cur :: rest' => arcLength_from cur rest' (total + segment prev cur)%f
  end.

Definition computeArcLength (points : list Point) : F :=
  match points with
  | [] => f0
  | p0 :: rest => arcLength_from p0 rest f0
  end.

(** The main loop of [resample] (Wobbrock et al.).  The working vector
    [pts] is seen through its current segment: [prev] is [pts[i-1]] and
    [rest] is [pts[i ..]].  Inserting the new point before index [i]
    and advancing [i] makes the new point the next [prev] and leaves
    [rest] as it is.  [room] counts the points [result] may still take
    before it holds [resampleCount - 1] of them.  The value is the list
    of points pushed to [result]. *)
Fixpoint resample_loop (interval : F) (room : nat) {struct room}
    : Point -> list Point -> F -> list Point :=
  match room with
  | O => fun _ _ _ => []
  | S room' =>
      fix walk (prev : Point) (rest : list Point) (D : F) {struct rest}
          : list Point :=
        match rest with
        | [] => []
        | cur :: rest' =>
            let dx := (px cur - px prev)%f in
            let dy := (py cur - py prev)%f in
            let d := fsqrt (dx * dx + dy * dy)%f in
            if (D + d >=? interval)%f then
              let t := ((interval - D) / d)%f in
              let newPt := GesturePoint.mk
                (px prev + t * dx)%f
                (py prev + t * dy)%f
                (pts prev + to_int (t * of_int (pts cur - pts prev))%f) in
              newPt :: resample_loop interval room' newPt rest f0
            else walk cur rest' (D + d)%f
        end
  end.

(** The common tail: fill [result] with [pts.back()] up to [count]
    points, then [result.resize(count)]. *)
Definition fill_to (count : Z) (result : list Point) (back : Point)
    : list Point :=
  firstn (Z.to_nat count)
         (result ++ repeat back (Z.to_nat count - length result)).

(** The part of [resample] after the degenerate cases; shared with
    [IdealPathGenerator::Impl::resamplePoints], which repeats it. *)
Definition resample_core (count : Z) (p0 : Point) (rest : list Point)
    (totalLen : F) : list Point :=
  let interval := (totalLen / of_int (count - 1))%f in
  let result :=
    p0 :: resample_loop interval (Z.to_nat (count - 1) - 1) p0 rest f0 in
  fill_to count result (List.last rest p0).

Definition resample (p : Impl) (points : list Point) : list Point :=
  match points with
  | p0 :: rest =>
      if (length points <? 2)%nat then points
      else
        let totalLen := computeArcLength points in
        if (totalLen <? lit 1 1000000)%f
        then repeat p0 (Z.to_nat (resampleCount p))
        else resample_core (resampleCount p) p0 rest totalLen
  | [] => points
  end.

(** The bounding box loop: [(minX, maxX, minY, maxY)]. *)
Definition bbox_step (b : F * F * F * F) (p : Point) : F * F * F * F :=
  let '(minX, maxX, minY, maxY) := b in
  (fmin minX (px p), fmax maxX (px p), fmin minY (py p), fmax maxY (py p)).

Definition normalizeBoundingBox (points : list Point) (totalArcLength : F)
    : GesturePath.t F :=
  match points with
  | [] => GesturePath.default
  | p0 :: _ =>
      let '(minX, maxX, minY, maxY) :=
        fold_left bbox_step points (px p0, px p0, py p0, py p0) in
      let width := (maxX - minX)%f in
      let height := (maxY - minY)%f in
      if (width <? lit 1 1000)%f && (height <? lit 1 1000)%f then
        GesturePath.mk
          (repeat (NormalizedPoint.mk (lit 5 10) (lit 5 10) (lit 5 10))
                  (length points))
          f1 totalArcLength (-1) (-1)
      else
        let scale := fmax width height in
        let aspect := if (height >? lit 1 1000)%f
                      then (width / height)%f else f1 in
        let firstTs := pts p0 in
        let lastTs := pts (List.last points p0) in
        let tsRange := of_int (lastTs - firstTs) in
        GesturePath.mk
          (List.map
             (fun q =>
                NormalizedPoint.mk
                  ((px q - minX) / scale)%f
                  ((py q - minY) / scale)%f
                  (if (tsRange >? f0)%f
                   then (of_int (pts q - firstTs) / tsRange)%f
                   else lit 5 10))
             points)
          aspect totalArcLength (-1) (-1)
  end.

Definition normalize (p : Impl) (raw : RawGesturePath.t F)
    (layout : KeyboardLayout.t F) : GesturePath.t F :=
  if RawGesturePath.isEmpty raw then GesturePath.default
  else
    let deduped := deduplicate p (RawGesturePath.points raw) in
    if (length deduped <? 2)%nat then GesturePath.default
    else
      let arcLen := computeArcLength deduped in
      let resampled := resample p deduped in
      let path := normalizeBoundingBox resampled arcLen in
      let front := hd GesturePoint.default (RawGesturePath.points raw) in
      let back := List.last (RawGesturePath.points raw)
                            GesturePoint.default in
      GesturePath.mk (GesturePath.points path)
        (GesturePath.aspectRatio path) (GesturePath.totalArcLength path)
        (KeyboardLayout.findNearestKey layout (px front) (py front))
        (KeyboardLayout.findNearestKey layout (px back) (py back)).

Definition setMinPointDistance (p : Impl) (distanceDp : F) : Impl :=
  mkImpl distanceDp (resampleCount p).

Definition setResampleCount (p : Impl) (count : Z) : Impl :=
  if 2 <=? count then mkImpl (minPointDistance p) count else p.
End WithFloat.
Arguments Impl : clear implicits.
End PathProcessor.

(** ** IdealPathGenerator.h and IdealPathGenerator.cpp *)

Module IdealPathGenerator.
Section WithFloat.
Context {F : Type} {FO : FloatOps F}.
Abbreviation Point := (GesturePoint.t F).

Record Impl := mkImpl {
  layout : KeyboardLayout.t F;
  layoutSet : bool;
  cache : gmap string (GesturePath.t F)
}.

(** [IdealPathGenerator()] *)
Definition new : Impl := mkImpl KeyboardLayout.default false ∅.

Definition euclidean (x1 y1 x2 y2 : F) : F :=
  let dx := (x2 - x1)%f in
  let dy := (y2 - y1)%f in
  fsqrt (dx * dx + dy * dy)%f.

(** The summation loops of [resamplePoints] and [generate]. *)
Fixpoint pathLength_from (prev : Point) (rest : list Point) (total : F) : F :=
  match rest with
  | [] => total
  | cur :: rest' =>
      pathLength_from cur rest'
        (total + euclidean (GesturePoint.x prev) (GesturePoint.y prev)
                           (GesturePoint.x cur) (GesturePoint.y cur))%f
  end.

Definition pathLength (points : list Point) : F :=
  match points with
  | [] => f0
  | p0 :: rest => pathLength_from p0 rest f0
  end.

(** "Resample helper: same algorithm as PathProcessor": the loop and the
    fill are those of [PathProcessor.resample_core]. *)
Definition resamplePoints (points : list Point) (count : Z) : list Point :=
  match points with
  | p0 :: rest =>
      if (length points <? 2)%nat || (count <? 2) then points
      else
        let totalLen := pathLength points in
        if (totalLen <? lit 1 1000000)%f
        then repeat p0 (Z.to_nat count)
        else PathProcessor.resample_core count p0 rest totalLen
  | [] => points
  end.

(** [normalizeBB] repeats [PathProcessor::Impl::normalizeBoundingBox]
    statement by statement ([assign] in place of [resize]). *)
Definition normalizeBB (points : list Point) (arcLen : F) : GesturePath.t F :=
  PathProcessor.normalizeBoundingBox points arcLen.

(** The first loop of [generate]: the key centres of the word, unmapped
    characters dropped and a key equal to the previous one skipped. *)
Fixpoint keyPoints_from (l : KeyboardLayout.t F) (chars : list ascii)
    (prevKeyIdx : Z) (charIdx : Z) : list Point :=
  match chars with
  | [] => []
  | ch :: chars' =>
      let cp := code_of (tolower ch) in
      let keyIdx := KeyboardLayout.findKeyByCodePoint l cp in
      if keyIdx <? 0 then keyPoints_from l chars' prevKeyIdx charIdx
      else if keyIdx =? prevKeyIdx
      then keyPoints_from l chars' prevKeyIdx charIdx
      else
        let key := KeyboardLayout.key_at l keyIdx in
        GesturePoint.mk (KeyDescriptor.centerX key)
                        (KeyDescriptor.centerY key) (charIdx * 100)
        :: keyPoints_from l chars' keyIdx (charIdx + 1)
  end.

Definition keyPoints (l : KeyboardLayout.t F) (word : string) : list Point :=
  keyPoints_from l (list_ascii_of_string word) (-1) 0.

(** The first code point of [chars] that has a key, or -1. *)
Fixpoint firstMapped (l : KeyboardLayout.t F) (chars : list ascii) : Z :=
  match chars with
  | [] => -1
  | ch :: chars' =>
      let cp := code_of (tolower ch) in
      if 0 <=? KeyboardLayout.findKeyByCodePoint l cp then cp
      else firstMapped l chars'
  end.

Definition generate (g : Impl) (word : string) : GesturePath.t F :=
  if negb (layoutSet g) then GesturePath.default
  else
    let kp := keyPoints (layout g) word in
    if (length kp <? 2)%nat then GesturePath.default
    else
      let arcLen := pathLength kp in
      let resampled := resamplePoints kp RESAMPLE_COUNT in
      let path := normalizeBB resampled arcLen in
      let chars := list_ascii_of_string word in
      let cp0 := firstMapped (layout g) chars in
      let cpN := firstMapped (layout g) (rev chars) in
      GesturePath.mk (GesturePath.points path)
        (GesturePath.aspectRatio path) (GesturePath.totalArcLength path)
        (if 0 <=? cp0
         then KeyboardLayout.findKeyByCodePoint (layout g) cp0 else -1)
        (if 0 <=? cpN
         then KeyboardLayout.findKeyByCodePoint (layout g) cpN else -1).

Definition setLayout (g : Impl) (l : KeyboardLayout.t F) : Impl :=
  mkImpl l true ∅.

Definition getIdealPath (g : Impl) (word : string)
    : GesturePath.t F * Impl :=
  if negb (layoutSet g) then (GesturePath.default, g)
  else
    let key := lowercase word in
    match cache g !! key with
    | Some path => (path, g)
    | None =>
        let path := generate g key in
        (path, mkImpl (layout g) (layoutSet g) (<[key := path]> (cache g)))
    end.

Definition pregenerate (g : Impl) (words : list string) : Impl :=
  fold_left (fun g w => snd (getIdealPath g w)) words g.

Definition clearCache (g : Impl) : Impl :=
  mkImpl (layout g) (layoutSet g) ∅.

Definition cacheSize (g : Impl) : nat := size (cache g).
End WithFloat.
Arguments Impl : clear implicits.
End IdealPathGenerator.

(** ** Scorer.h and Scorer.cpp *)

Module Scorer.
Section WithFloat.
Context {F : Type} {FO : FloatOps F}.
Abbreviation NPoint := (NormalizedPoint.t F).

Record Impl := mkImpl { config : ScoringConfig F }.

(** [Scorer()] *)
Definition new : Impl := mkImpl defaultConfig.

Definition configure (s : Impl) (c : ScoringConfig F) : Impl := mkImpl c.

Definition pointDistance (a b : NPoint) : F :=
  let dx := (NormalizedPoint.x a - NormalizedPoint.x b)%f in
  let dy := (NormalizedPoint.y a - NormalizedPoint.y b)%f in
  fsqrt (dx * dx + dy * dy)%f.

(** The Sakoe-Chiba band width [W] of [computeDTWDistance].  C++ defines
    [static_cast<int>] of a [float] only when the truncated value fits in
    [int]; [to_int] is the mathematical truncation, so the model follows
    the program for ratios whose ceiling of [ratio * 64] is below [2^31],
    and fixes one behaviour where C++ leaves it undefined. *)
Definition bandWidth (s : Impl) : Z :=
  let W := to_int (fceil (dtwBandwidthRatio (config s)
                          * of_int RESAMPLE_COUNT)%f) in
  if W <? 1 then 1 else W.

(** [v[j]] and [points[j]] for an index inside the vector. *)
Definition cell (v : list F) (j : nat) : F := nth j v FLT_MAX.
Definition point (ps : list NPoint) (j : nat) : NPoint :=
  nth j ps (NormalizedPoint.mk f0 f0 f0).

(** "Initialize first row": the loop over [j = 1 .. min(W, N-1)],
    [n] iterations remaining. *)
Fixpoint firstRow (n : nat) (j : nat) (g0 : NPoint) (ideal : list NPoint)
    (dtw_prev : list F) : list F :=
  match n with
  | O => dtw_prev
  | S n' =>
      firstRow n' (S j) g0 ideal
        (if (cell dtw_prev (j - 1) <? FLT_MAX)%f
         then <[ j := (cell dtw_prev (j - 1)
                       + pointDistance g0 (point ideal j))%f ]> dtw_prev
         else dtw_prev)
  end.

(** The inner loop over [j = jMin .. jMax], [n] iterations remaining. *)
Fixpoint fillRow (n : nat) (j : nat) (gi : NPoint) (ideal : list NPoint)
    (dtw_prev dtw_curr : list F) : list F :=
  match n with
  | O => dtw_curr
  | S n' =>
      let cost := pointDistance gi (point ideal j) in
      let best := FLT_MAX in
      let best := if (cell dtw_prev j <? FLT_MAX)%f
                  then fmin best (cell dtw_prev j) else best in
      let best := if (0 <? j)%nat && (cell dtw_curr (j - 1) <? FLT_MAX)%f
                  then fmin best (cell dtw_curr (j - 1)) else best in
      let best := if (0 <? j)%nat && (cell dtw_prev (j - 1) <? FLT_MAX)%f
                  then fmin best (cell dtw_prev (j - 1)) else best in
      fillRow n' (S j) gi ideal dtw_prev
        (<[ j := if (best <? FLT_MAX)%f then (cost + best)%f
                 else FLT_MAX ]> dtw_curr)
  end.

(** "Fill row by row": the loop over [i = 1 .. N-1], [n] iterations
    remaining; the value is [dtw_prev] after the last swap. *)
Fixpoint rows (n : nat) (i : nat) (N W : Z) (gesture ideal : list NPoint)
    (dtw_prev : list F) : list F :=
  match n with
  | O => dtw_prev
  | S n' =>
      let dtw_curr := repeat FLT_MAX (Z.to_nat N) in
      let jMin := Z.max 0 (Z.of_nat i - W) in
      let jMax := Z.min (N - 1) (Z.of_nat i + W) in
      let dtw_curr :=
        fillRow (Z.to_nat (jMax + 1 - jMin)) (Z.to_nat jMin)
                (point gesture i) ideal dtw_prev dtw_curr in
      rows n' (S i) N W gesture ideal dtw_curr
  end.

Definition computeDTWDistance (s : Impl) (gesture idealPath : GesturePath.t F)
    : F :=
  let N := RESAMPLE_COUNT in
  let g := GesturePath.points gesture in
  let p := GesturePath.points idealPath in
  if negb (Z.of_nat (length g) =? N) || negb (Z.of_nat (length p) =? N)
  then FLT_MAX
  else
    let W := bandWidth s in
    let dtw_prev := repeat FLT_MAX (Z.to_nat N) in
    let dtw_prev :=
      <[ 0%nat := pointDistance (point g 0) (point p 0) ]> dtw_prev in
    let dtw_prev :=
      firstRow (Z.to_nat (Z.min W (N - 1))) 1 (point g 0) p dtw_prev in
    let dtw_prev := rows (Z.to_nat (N - 1)) 1 N W g p dtw_prev in
    let raw := cell dtw_prev (Z.to_nat (N - 1)) in
    if (raw >=? FLT_MAX)%f then FLT_MAX
    else (raw / of_int N)%f.

Definition computeConfidence (s : Impl) (dtwDistance maxDTWDistance : F)
    (frequency maxFrequency : Z) : F :=
  let normalizedDTW :=
    if (maxDTWDistance >? f0)%f && (dtwDistance <? FLT_MAX)%f
    then fmin f1 (dtwDistance / maxDTWDistance)%f else f1 in
  let normalizedFreq :=
    if 0 <? maxFrequency
    then fmin f1 (of_int frequency / of_int maxFrequency)%f else f0 in
  let alpha := frequencyWeight (config s) in
  let finalScore := ((f1 - alpha) * normalizedDTW
                     + alpha * (f1 - normalizedFreq))%f in
  (f1 - fmax f0 (fmin f1 finalScore))%f.
End WithFloat.
Arguments Impl : clear implicits.
End Scorer.

(** ** GestureEngine.h and GestureEngine.cpp *)

Module GestureEngine.
Section WithFloat.
Context {F : Type} {FO : FloatOps F}.
Abbreviation Candidate := (GestureCandidate.t F).

(** [std::sort(first, last, comp)], from the C++ standard library. *)
Variable std_sort :
  (Candidate -> Candidate -> bool) -> list Candidate -> list Candidate.

(** [errorCallback] is kept as the list of errors handed to it
    ([delivered], oldest first) and a flag telling whether one is set. *)
Record Impl := mkImpl {
  pathProcessor : PathProcessor.Impl F;
  idealPathGen : IdealPathGenerator.Impl F;
  scorer : Scorer.Impl F;
  dictLoader : DictionaryLoader.Impl;
  layout : KeyboardLayout.t F;
  config : ScoringConfig F;
  errorCallback : bool;
  delivered : list ErrorInfo;
  lastError : ErrorInfo;
  initialized : bool
}.

(** [GestureEngine()] *)
Definition new : Impl := {|
  pathProcessor := PathProcessor.new;
  idealPathGen := IdealPathGenerator.new;
  scorer := Scorer.new;
  dictLoader := DictionaryLoader.new;
  layout := KeyboardLayout.default;
  config := defaultConfig;
  errorCallback := false;
  delivered := [];
  lastError := noError;
  initialized := false
|}.

Definition reportError (e : Impl) (c : ErrorCode) (msg : string) : Impl :=
  let err := {| code := c; message := msg |} in
  mkImpl (pathProcessor e) (idealPathGen e) (scorer e) (dictLoader e)
         (layout e) (config e) (errorCallback e)
         (if errorCallback e then delivered e ++ [err] else delivered e)
         err (initialized e).

(** The loop of [estimateWordLengthByKeyTransitions]. *)
Fixpoint countTransitions (l : KeyboardLayout.t F)
    (points : list (GesturePoint.t F)) (prevKey : Z) (transitions : Z) : Z :=
  match points with
  | [] => transitions
  | pt :: rest =>
      let key := KeyboardLayout.findNearestKey l
                   (GesturePoint.x pt) (GesturePoint.y pt) in
      if (0 <=? key) && negb (key =? prevKey)
      then countTransitions l rest key (transitions + 1)
      else countTransitions l rest prevKey transitions
  end.

Definition estimateWordLengthByKeyTransitions (e : Impl)
    (rawPath : RawGesturePath.t F) : F :=
  if (length (RawGesturePath.points rawPath) <? 2)%nat then f1
  else fmax f1 (of_int (countTransitions (layout e)
                          (RawGesturePath.points rawPath) (-1) 0)).

(** Step 2 of [recognize]: [(startChar, endChar, hasStartEnd)]; the
    character [zero] stands for "none". *)
Definition keyChar (cp : Z) : ascii :=
  if (97 <=? cp) && (cp <=? 122) then ascii_of_N (Z.to_N cp)
  else if (65 <=? cp) && (cp <=? 90) then tolower (ascii_of_N (Z.to_N cp))
  else zero.

Definition isNone (c : ascii) : bool := code_of c =? 0.

Definition startEndChars (l : KeyboardLayout.t F) (p : GesturePath.t F)
    : ascii * ascii * bool :=
  let n := Z.of_nat (length (KeyboardLayout.keys l)) in
  let s := GesturePath.startKeyIndex p in
  let e := GesturePath.endKeyIndex p in
  if (0 <=? s) && (s <? n) && (0 <=? e) && (e <? n) then
    let cpS := KeyDescriptor.codePoint (KeyboardLayout.key_at l s) in
    let cpE := KeyDescriptor.codePoint (KeyboardLayout.key_at l e) in
    let startChar := keyChar cpS in
    let endChar := keyChar cpE in
    (startChar, endChar, negb (isNone startChar) && negb (isNone endChar))
  else (zero, zero, false).

(** Step 3: candidate filtering. *)
Definition candidateEntries (d : DictionaryLoader.Impl)
    (startChar endChar : ascii) (hasStartEnd : bool)
    : list DictionaryEntry.t :=
  let dictEntries :=
    if hasStartEnd
    then DictionaryLoader.getEntriesWithStartEnd d startChar endChar
    else [] in
  let dictEntries :=
    match dictEntries with
    | [] => if negb (isNone startChar)
            then DictionaryLoader.getEntriesStartingWith d startChar
            else dictEntries
    | _ => dictEntries
    end in
  match dictEntries with
  | [] => DictionaryLoader.getAllEntries d
  | _ => dictEntries
  end.

(** The word-length filter with its fall-back. *)
Definition lengthFilter (tol estimatedLen : F)
    (dictEntries : list DictionaryEntry.t) : list DictionaryEntry.t :=
  let filtered :=
    List.filter
      (fun entry =>
         let wordLen :=
           of_int (Z.of_nat (String.length (DictionaryEntry.word entry))) in
         (fabs (wordLen - estimatedLen) <=? tol)%f)
      dictEntries in
  match filtered with
  | [] => dictEntries
  | _ => filtered
  end.

Record ScoredEntry := mkScored {
  entry : DictionaryEntry.t;
  dtwDistance : F
}.

(** Step 4: the scoring loop; the generator's cache is threaded. *)
Fixpoint scoreEntries (sc : Scorer.Impl F) (normalizedPath : GesturePath.t F)
    (filtered : list DictionaryEntry.t) (g : IdealPathGenerator.Impl F)
    : list ScoredEntry * IdealPathGenerator.Impl F :=
  match filtered with
  | [] => ([], g)
  | en :: rest =>
      let '(ideal, g) :=
        IdealPathGenerator.getIdealPath g (DictionaryEntry.word en) in
      if negb (GesturePath.isValid ideal) then
        scoreEntries sc normalizedPath rest g
      else
        let dtw := Scorer.computeDTWDistance sc normalizedPath ideal in
        let '(scored, g) := scoreEntries sc normalizedPath rest g in
        (mkScored en dtw :: scored, g)
  end.

(** Step 5: the loop computing [rawMaxDTW] and [minCandDTW]. *)
Definition rawMaxDTW (scored : list ScoredEntry) : F :=
  fold_left
    (fun r s =>
       if (dtwDistance s <? FLT_MAX)%f
       then if (dtwDistance s >? r)%f then dtwDistance s else r
       else r)
    scored f0.

Definition minCandDTW (scored : list ScoredEntry) : F :=
  fold_left
    (fun m s =>
       if (dtwDistance s <? FLT_MAX)%f
       then if (dtwDistance s <? m)%f then dtwDistance s else m
       else m)
    scored FLT_MAX.

Definition maxDTW (c : ScoringConfig F) (scored : list ScoredEntry) : F :=
  if (length scored <=? 1)%nat
  then fmax (rawMaxDTW scored) (maxDTWFloor c)
  else fmax (rawMaxDTW scored) (lit 1 100).

(** Step 5b: adaptive frequency weight. *)
Definition effectiveAlpha (c : ScoringConfig F) (scored : list ScoredEntry)
    : F :=
  let rawRange :=
    if (minCandDTW scored <? FLT_MAX)%f
    then (rawMaxDTW scored - minCandDTW scored)%f else f0 in
  if (1 <? length scored)%nat && (rawRange <? lit 5 10)%f
  then (frequencyWeight c * fmax (lit 1 10) (rawRange / lit 5 10))%f
  else frequencyWeight c.

(** Step 6: the body of the confidence loop. *)
Definition scoreCandidate (maxDtw alpha : F) (maxFreq : Z) (s : ScoredEntry)
    : Candidate :=
  let normalizedDTW :=
    if (maxDtw >? f0)%f && (dtwDistance s <? FLT_MAX)%f
    then fmin f1 (dtwDistance s / maxDtw)%f else f1 in
  let normalizedFreq :=
    if 0 <? maxFreq
    then fmin f1 (of_int (DictionaryEntry.frequency (entry s))
                  / of_int maxFreq)%f
    else f0 in
  let finalScore := ((f1 - alpha) * normalizedDTW
                     + alpha * (f1 - normalizedFreq))%f in
  let conf := (f1 - fmax f0 (fmin f1 finalScore))%f in
  GestureCandidate.mk
    (DictionaryEntry.word (entry s)) conf SOURCE_MAIN_DICT (dtwDistance s)
    (if 0 <? maxFreq
     then (of_int (DictionaryEntry.frequency (entry s)) / of_int maxFreq)%f
     else f0).

(** The comparator of step 7. *)
Definition byConfidence (a b : Candidate) : bool :=
  (GestureCandidate.confidence a >? GestureCandidate.confidence b)%f.

(** Steps 5 to 7 on a non-empty [scored]. *)
Definition rank (c : ScoringConfig F) (maxFreq : Z)
    (scored : list ScoredEntry) (maxCandidates : Z) : list Candidate :=
  let results :=
    List.map (scoreCandidate (maxDTW c scored) (effectiveAlpha c scored)
                             maxFreq) scored in
  let results := std_sort byConfidence results in
  if maxCandidates <? Z.of_nat (length results)
  then firstn (Z.to_nat maxCandidates) results
  else results.

Definition withGenerator (e : Impl) (g : IdealPathGenerator.Impl F) : Impl :=
  mkImpl (pathProcessor e) g (scorer e) (dictLoader e) (layout e)
         (config e) (errorCallback e) (delivered e) (lastError e)
         (initialized e).

Definition recognize (e : Impl) (rawPath : RawGesturePath.t F)
    (maxCandidates : Z) : list Candidate * Impl :=
  if negb (initialized e) then
    ([], reportError e ENGINE_NOT_INITIALIZED "Engine not initialized")
  else
    let maxCandidates := Z.max 1 (Z.min maxCandidates MAX_MAX_CANDIDATES) in
    if RawGesturePath.isEmpty rawPath then
      ([], reportError e PATH_TOO_SHORT "Gesture path too short")
    else
      let normalizedPath :=
        PathProcessor.normalize (pathProcessor e) rawPath (layout e) in
      if negb (GesturePath.isValid normalizedPath) then ([], e)
      else
        let '(startChar, endChar, hasStartEnd) :=
          startEndChars (layout e) normalizedPath in
        let dictEntries :=
          candidateEntries (dictLoader e) startChar endChar hasStartEnd in
        let estimatedLen := estimateWordLengthByKeyTransitions e rawPath in
        let tol := lengthFilterTolerance (config e) in
        let filtered := lengthFilter tol estimatedLen dictEntries in
        let '(scored, g) :=
          scoreEntries (scorer e) normalizedPath filtered (idealPathGen e) in
        let e := withGenerator e g in
        match scored with
        | [] => ([], e)
        | _ =>
            (rank (config e)
                  (DictionaryLoader.getMaxFrequency (dictLoader e))
                  scored maxCandidates, e)
        end.

Definition init (fs : string -> DictionaryLoader.FileResult) (e : Impl)
    (l : KeyboardLayout.t F) (dictPath : string) : bool * Impl :=
  if negb (KeyboardLayout.isValid l) then
    (false, reportError e LAYOUT_INVALID "KeyboardLayout is invalid")
  else
    let '(ok, d) := DictionaryLoader.load fs (dictLoader e) dictPath in
    let e := mkImpl (pathProcessor e) (idealPathGen e) (scorer e) d
                    (layout e) (config e) (errorCallback e) (delivered e)
                    (lastError e) (initialized e) in
    if negb ok then
      let err := DictionaryLoader.getLastError d in
      (false, reportError e (code err) (message err))
    else
      (true, mkImpl (pathProcessor e)
               (IdealPathGenerator.setLayout (idealPathGen e) l)
               (Scorer.configure (scorer e) (config e)) d l (config e)
               (errorCallback e) (delivered e) (lastError e) true).

Definition initWithData (e : Impl) (l : KeyboardLayout.t F)
    (dictData : list byte) : bool * Impl :=
  if negb (KeyboardLayout.isValid l) then
    (false, reportError e LAYOUT_INVALID "KeyboardLayout is invalid")
  else
    let '(ok, d) := DictionaryLoader.loadFromMemory (dictLoader e) dictData in
    let e := mkImpl (pathProcessor e) (idealPathGen e) (scorer e) d
                    (layout e) (config e) (errorCallback e) (delivered e)
                    (lastError e) (initialized e) in
    if negb ok then
      let err := DictionaryLoader.getLastError d in
      (false, reportError e (code err) (message err))
    else
      (true, mkImpl (pathProcessor e)
               (IdealPathGenerator.setLayout (idealPathGen e) l)
               (Scorer.configure (scorer e) (config e)) d l (config e)
               (errorCallback e) (delivered e) (lastError e) true).

Definition shutdown (e : Impl) : Impl :=
  mkImpl (pathProcessor e) (IdealPathGenerator.clearCache (idealPathGen e))
         (scorer e) (DictionaryLoader.unload (dictLoader e)) (layout e)
         (config e) (errorCallback e) (delivered e) (lastError e) false.

Definition isInitialized (e : Impl) : bool := initialized e.

Definition updateLayout (e : Impl) (l : KeyboardLayout.t F) : bool * Impl :=
  if negb (initialized e) then (false, e)
  else if negb (KeyboardLayout.isValid l) then
    (false, reportError e LAYOUT_INVALID "KeyboardLayout is invalid")
  else
    (true, mkImpl (pathProcessor e)
             (IdealPathGenerator.setLayout (idealPathGen e) l)
             (scorer e) (dictLoader e) l (config e) (errorCallback e)
             (delivered e) (lastError e) (initialized e)).

Definition configure (e : Impl) (c : ScoringConfig F) : Impl :=
  mkImpl (pathProcessor e) (idealPathGen e) (Scorer.configure (scorer e) c)
         (dictLoader e) (layout e) c (errorCallback e) (delivered e)
         (lastError e) (initialized e).

Definition setErrorCallback (e : Impl) (callback : bool) : Impl :=
  mkImpl (pathProcessor e) (idealPathGen e) (scorer e) (dictLoader e)
         (layout e) (config e) callback (delivered e) (lastError e)
         (initialized e).

Definition getLastError (e : Impl) : ErrorInfo := lastError e.
End WithFloat.
Arguments Impl : clear implicits.
Arguments ScoredEntry : clear implicits.
End GestureEngine.

(** ** tests/TestHelpers.h *)

Module TestHelpers.
Section WithFloat.
Context {F : Type} {FO : FloatOps F}.

Definition key (l : string) (cp cx cy w h : Z) : KeyDescriptor.t F :=
  KeyDescriptor.mk l cp (of_int cx) (of_int cy) (of_int w) (of_int h).

(** QWERTY layout for testing (320x160 dp, 26 keys). *)
Definition makeQwertyLayout : KeyboardLayout.t F :=
  KeyboardLayout.mk "en-US"
    [ key "q" 113 16 26 32 52; key "w" 119 48 26 32 52;
      key "e" 101 80 26 32 52; key "r" 114 112 26 32 52;
      key "t" 116 144 26 32 52; key "y" 121 176 26 32 52;
      key "u" 117 208 26 32 52; key "i" 105 240 26 32 52;
      key "o" 111 272 26 32 52; key "p" 112 304 26 32 52;
      key "a" 97 32 80 32 52; key "s" 115 64 80 32 52;
      key "d" 100 96 80 32 52; key "f" 102 128 80 32 52;
      key "g" 103 160 80 32 52; key "h" 104 192 80 32 52;
      key "j" 106 224 80 32 52; key "k" 107 256 80 32 52;
      key "l" 108 288 80 32 52;
      key "z" 122 64 134 32 52; key "x" 120 96 134 32 52;
      key "c" 99 128 134 32 52; key "v" 118 160 134 32 52;
      key "b" 98 192 134 32 52; key "n" 110 224 134 32 52;
      key "m" 109 256 134 32 52 ]
    (of_int 320) (of_int 160).

(** "Collect key centers". *)
Fixpoint centersOf (l : KeyboardLayout.t F) (chars : list ascii)
    : list (F * F) :=
  match chars with
  | [] => []
  | c :: chars' =>
      let idx := KeyboardLayout.findKeyByCodePoint l (code_of c) in
      if 0 <=? idx then
        (KeyDescriptor.centerX (KeyboardLayout.key_at l idx),
         KeyDescriptor.centerY (KeyboardLayout.key_at l idx))
        :: centersOf l chars'
      else centersOf l chars'
  end.

(** The inner loop over [j], [n] iterations remaining. *)
Fixpoint segmentPoints (n : nat) (j : Z) (pointsPerSegment : Z)
    (x0 y0 x1 y1 : F) (ts : Z) : list (GesturePoint.t F) :=
  match n with
  | O => []
  | S n' =>
      let t := (of_int j / of_int pointsPerSegment)%f in
      GesturePoint.mk (x0 + (x1 - x0) * t)%f (y0 + (y1 - y0) * t)%f ts
      :: segmentPoints n' (j + 1) pointsPerSegment x0 y0 x1 y1 (ts + 10)
  end.

(** The outer loop over the segments, then "Add final point". *)
Fixpoint pathThrough (centers : list (F * F)) (pointsPerSegment : Z)
    (ts : Z) : list (GesturePoint.t F) :=
  match centers with
  | [] => []
  | (x0, y0) :: rest =>
      match rest with
      | [] => [GesturePoint.mk x0 y0 ts]
      | (x1, y1) :: _ =>
          segmentPoints (Z.to_nat pointsPerSegment) 0 pointsPerSegment
                        x0 y0 x1 y1 ts
          ++ pathThrough rest pointsPerSegment
                         (ts + 10 * Z.max 0 pointsPerSegment)
      end
  end.

Definition makePathForWord (l : KeyboardLayout.t F) (word : string)
    (pointsPerSegment : Z) : list (GesturePoint.t F) :=
  pathThrough (centersOf l (list_ascii_of_string word)) pointsPerSegment 0.
End WithFloat.
End TestHelpers.

(** ** tests/DictionaryLoaderTest.cpp: the dictionary writer *)

Module DictWriter.
Definition byte_of (z : Z) : byte :=
  match Byte.of_N (Z.to_N (Z.land z 0xFF)) with
  | Some b => b
  | None => x00
  end.

Definition writeU16LE (v : Z) : list byte :=
  [byte_of v; byte_of (Z.shiftr v 8)].

Definition writeU32LE (v : Z) : list byte :=
  [byte_of v; byte_of (Z.shiftr v 8); byte_of (Z.shiftr v 16);
   byte_of (Z.shiftr v 24)].

Definition entryBytes (e : string * Z) : list byte :=
  byte_of (Z.of_nat (String.length (fst e)))
  :: list_byte_of_string (fst e) ++ writeU32LE (snd e) ++ [x00].

(** [makeMinimalDict(lang, words)] *)
Definition makeMinimalDict (lang : string) (words : list (string * Z))
    : list byte :=
  let langLen := Z.min (Z.of_nat (String.length lang)) 18 in
  let tag := firstn (Z.to_nat langLen) (list_byte_of_string lang) in
  writeU32LE DICT_MAGIC ++ writeU16LE DICT_VERSION ++ writeU16LE 0
  ++ writeU32LE (Z.of_nat (length words)) ++ writeU16LE langLen
  ++ tag ++ repeat x00 (18 - length tag)
  ++ concat (List.map entryBytes words).
End DictWriter.

(** ** Concrete data for runs of the program on binary32 *)

Module Run32.
Import F32.

Definition layout : KeyboardLayout.t f32 := TestHelpers.makeQwertyLayout.

(** The dictionary of [GestureEngineTest.cpp]. *)
Definition testWords : list (string * Z) :=
  [("the", 1000000); ("and", 800000); ("hello", 50000); ("world", 40000);
   ("help", 30000); ("hero", 20000); ("go", 200000); ("do", 180000);
   ("a", 900000)]%string.

Definition testDict : list byte := DictWriter.makeMinimalDict "en" testWords.

Definition helloPath : RawGesturePath.t f32 :=
  RawGesturePath.mk (TestHelpers.makePathForWord layout "hello" 8).

(** A dictionary that announces two entries and breaks off inside the
    second one. *)
Definition truncatedDict : list byte :=
  firstn (32 + 11 + 3)
    (DictWriter.makeMinimalDict "en-US" [("hello", 100); ("world", 200)]%string).

(** The engine of [GestureEngineTest]: initialised with the test layout
    and the test dictionary. *)
Definition engine : GestureEngine.Impl f32 :=
  snd (GestureEngine.initWithData GestureEngine.new layout testDict).

(** Two spellings of one word with one frequency: their shape and
    frequency scores coincide. *)
Definition tieDict : list byte :=
  DictWriter.makeMinimalDict "en" [("go", 100); ("Go", 100)]%string.

Definition tieEngine : GestureEngine.Impl f32 :=
  snd (GestureEngine.initWithData GestureEngine.new layout tieDict).

Definition goPath : RawGesturePath.t f32 :=
  RawGesturePath.mk (TestHelpers.makePathForWord layout "go" 8).

(** Seventeen spellings of one word with one frequency: they share the
    ideal path, so that their shape and frequency scores coincide. *)
Definition helloSpellings : list string :=
  ["hello"; "Hello"; "hEllo"; "HEllo"; "heLlo"; "HeLlo"; "hELlo"; "HELlo";
   "helLo"; "HelLo"; "hElLo"; "HElLo"; "heLLo"; "HeLLo"; "hELLo"; "HELLo";
   "hellO"]%string.

Definition spellingsDict : list byte :=
  DictWriter.makeMinimalDict "en"
    (List.map (fun w => (w, 100)) helloSpellings).

Definition spellingsEngine : GestureEngine.Impl f32 :=
  snd (GestureEngine.initWithData GestureEngine.new layout spellingsDict).

(** A path whose first and last keys single out one word of [testWords]. *)
Definition worldPath : RawGesturePath.t f32 :=
  RawGesturePath.mk (TestHelpers.makePathForWord layout "world" 8).

(** A configuration that differs from the default in the three
    parameters of the path processor and of candidate evaluation. *)
Definition otherConfig : ScoringConfig f32 := {|
  resampleCount := 32;
  minPointDistance := lit 10 1;
  dtwBandwidthRatio := DTW_BANDWIDTH_RATIO;
  frequencyWeight := FREQUENCY_WEIGHT;
  maxCandidatesEvaluated := 1;
  lengthFilterTolerance := LENGTH_FILTER_TOLERANCE;
  maxDTWFloor := MAX_DTW_FLOOR
|}.
End Run32.

(** ** The same data in exact arithmetic *)

Module RunQ.
Definition layout : KeyboardLayout.t Q := TestHelpers.makeQwertyLayout.

Definition engine : GestureEngine.Impl Q :=
  snd (GestureEngine.initWithData GestureEngine.new layout Run32.testDict).

Definition helloPath : RawGesturePath.t Q :=
  RawGesturePath.mk (TestHelpers.makePathForWord layout "hello" 8).
End RunQ.

(** ** A reference sorting function

    An insertion sort that meets the contract of [std::sort];
    [Sorts.stable] keeps elements that compare equal in their original
    order. *)

Module Sorts.
Section WithComparator.
Context {A : Type}.
Variable comp : A -> A -> bool.

Fixpoint insert_stable (a : A) (l : list A) : list A :=
  match l with
  | [] => [a]
  | b :: l' => if comp b a then b :: insert_stable a l' else a :: l
  end.

Definition stable (l : list A) : list A := fold_right insert_stable [] l.
End WithComparator.
End Sorts.

(** ** [std::sort] of GNU libstdc++

    [GestureEngine.recognize] is generic in [std::sort]; to run the
    program as it is built with GCC, this module transcribes the
    implementation of libstdc++ 12 ([bits/stl_algo.h],
    [bits/stl_heap.h]): introsort, that is median-of-three quicksort
    down to ranges of 16 elements, heapsort when the recursion gets
    deeper than [2 * lg n], and a final insertion sort.  The vector is a
    list, an iterator is a position in it.  The unguarded loops of the
    library stop at a sentinel; here they also carry a bound, which a
    strict weak ordering never lets them reach. *)

Module GnuSort.
Section WithComparator.
Context {A : Type}.
Variable comp : A -> A -> bool.
(** An element to read where the library would read outside the vector. *)
Variable d : A.

(** [*(v.begin() + i)] *)
Definition deref (v : list A) (i : nat) : A := nth i v d.

(** [std::iter_swap(a, b)] *)
Definition iter_swap (v : list A) (a b : nat) : list A :=
  <[ b := deref v a ]> (<[ a := deref v b ]> v).

Definition S_threshold : nat := 16.

(** [__move_median_to_first(result, a, b, c, comp)] *)
Definition move_median_to_first (v : list A) (result a b c : nat)
    : list A :=
  if comp (deref v a) (deref v b) then
    if comp (deref v b) (deref v c) then iter_swap v result b
    else if comp (deref v a) (deref v c) then iter_swap v result c
    else iter_swap v result a
  else if comp (deref v a) (deref v c) then iter_swap v result a
  else if comp (deref v b) (deref v c) then iter_swap v result c
  else iter_swap v result b.

(** [while (comp(first, pivot)) ++first;] *)
Fixpoint scan_up (bound : nat) (v : list A) (first pivot : nat) : nat :=
  match bound with
  | O => first
  | S bound' =>
      if comp (deref v first) (deref v pivot)
      then scan_up bound' v (S first) pivot else first
  end.

(** [while (comp(pivot, last)) --last;] *)
Fixpoint scan_down (bound : nat) (v : list A) (last pivot : nat) : nat :=
  match bound with
  | O => last
  | S bound' =>
      if comp (deref v pivot) (deref v last)
      then scan_down bound' v (last - 1) pivot else last
  end.

(** [__unguarded_partition(first, last, pivot, comp)]: the vector and
    the cut. *)
Fixpoint unguarded_partition (bound : nat) (v : list A)
    (first last pivot : nat) : list A * nat :=
  match bound with
  | O => (v, first)
  | S bound' =>
      let first := scan_up (length v) v first pivot in
      let last := (last - 1)%nat in
      let last := scan_down (length v) v last pivot in
      if negb (first <? last)%nat then (v, first)
      else unguarded_partition bound' (iter_swap v first last)
                               (S first) last pivot
  end.

(** [__unguarded_partition_pivot(first, last, comp)] *)
Definition unguarded_partition_pivot (v : list A) (first last : nat)
    : list A * nat :=
  let mid := (first + (last - first) / 2)%nat in
  let v := move_median_to_first v first (first + 1) mid (last - 1) in
  unguarded_partition (length v) v (first + 1) last first.

(** [__push_heap(first, holeIndex, topIndex, value, comp)]; the indices
    are of the signed type [_Distance], division truncates. *)
Fixpoint push_heap (bound : nat) (v : list A) (first : nat)
    (holeIndex topIndex : Z) (value : A) : list A :=
  let parent := Z.quot (holeIndex - 1) 2 in
  match bound with
  | O => <[ (first + Z.to_nat holeIndex)%nat := value ]> v
  | S bound' =>
      if (topIndex <? holeIndex)%Z
         && comp (deref v (first + Z.to_nat parent)) value
      then push_heap bound'
             (<[ (first + Z.to_nat holeIndex)%nat
                 := deref v (first + Z.to_nat parent) ]> v)
             first parent topIndex value
      else <[ (first + Z.to_nat holeIndex)%nat := value ]> v
  end.

(** The first loop of [__adjust_heap]: the vector, [holeIndex] and
    [secondChild] after it. *)
Fixpoint sift_down (bound : nat) (v : list A) (first : nat)
    (holeIndex secondChild len : Z) : list A * Z * Z :=
  match bound with
  | O => (v, holeIndex, secondChild)
  | S bound' =>
      if (secondChild <? Z.quot (len - 1) 2)%Z then
        let secondChild := (2 * (secondChild + 1))%Z in
        let secondChild :=
          if comp (deref v (first + Z.to_nat secondChild))
                  (deref v (first + Z.to_nat (secondChild - 1)))
          then (secondChild - 1)%Z else secondChild in
        sift_down bound'
          (<[ (first + Z.to_nat holeIndex)%nat
              := deref v (first + Z.to_nat secondChild) ]> v)
          first secondChild secondChild len
      else (v, holeIndex, secondChild)
  end.

(** [__adjust_heap(first, holeIndex, len, value, comp)] *)
Definition adjust_heap (v : list A) (first : nat) (holeIndex len : Z)
    (value : A) : list A :=
  let topIndex := holeIndex in
  let '(v, holeIndex, secondChild) :=
    sift_down (length v) v first holeIndex holeIndex len in
  let '(v, holeIndex) :=
    if (Z.land len 1 =? 0)%Z && (secondChild =? Z.quot (len - 2) 2)%Z then
      let secondChild := (2 * (secondChild + 1))%Z in
      (<[ (first + Z.to_nat holeIndex)%nat
          := deref v (first + Z.to_nat (secondChild - 1)) ]> v,
       (secondChild - 1)%Z)
    else (v, holeIndex) in
  push_heap (length v) v first holeIndex topIndex value.

(** [__pop_heap(first, last, result, comp)] *)
Definition pop_heap (v : list A) (first last result : nat) : list A :=
  let value := deref v result in
  let v := <[ result := deref v first ]> v in
  adjust_heap v first 0 (Z.of_nat (last - first)) value.

(** The loop of [__make_heap], from [parent] down to 0. *)
Fixpoint make_heap_from (parent : nat) (v : list A) (first : nat) (len : Z)
    : list A :=
  let v := adjust_heap v first (Z.of_nat parent) len
             (deref v (first + parent)) in
  match parent with
  | O => v
  | S parent' => make_heap_from parent' v first len
  end.

(** [__make_heap(first, last, comp)] *)
Definition make_heap (v : list A) (first last : nat) : list A :=
  if (last - first <? 2)%nat then v
  else
    let len := Z.of_nat (last - first) in
    make_heap_from (Z.to_nat (Z.quot (len - 2) 2)) v first len.

(** The loop of [__heap_select] over [i = middle .. last - 1], [n]
    iterations remaining. *)
Fixpoint heap_select_from (n : nat) (v : list A) (first middle i : nat)
    : list A :=
  match n with
  | O => v
  | S n' =>
      heap_select_from n'
        (if comp (deref v i) (deref v first)
         then pop_heap v first middle i else v)
        first middle (S i)
  end.

(** [__heap_select(first, middle, last, comp)] *)
Definition heap_select (v : list A) (first middle last : nat) : list A :=
  heap_select_from (last - middle) (make_heap v first middle)
                   first middle middle.

(** [__sort_heap(first, last, comp)], [n] bounding the iterations. *)
Fixpoint sort_heap (n : nat) (v : list A) (first last : nat) : list A :=
  match n with
  | O => v
  | S n' =>
      if (1 <? last - first)%nat
      then sort_heap n' (pop_heap v first (last - 1) (last - 1))
                     first (last - 1)
      else v
  end.

(** [__partial_sort(first, middle, last, comp)] *)
Definition partial_sort (v : list A) (first middle last : nat) : list A :=
  sort_heap (length v) (heap_select v first middle last) first middle.

(** [__introsort_loop(first, last, depth_limit, comp)].  An iteration of
    the [while] loop sorts the upper part by the recursive call and goes
    on with [last = cut] and the decremented [depth_limit]. *)
Fixpoint introsort_loop (depth_limit : nat) (v : list A)
    (first last : nat) : list A :=
  if (S_threshold <? last - first)%nat then
    match depth_limit with
    | O => partial_sort v first last last
    | S depth_limit' =>
        let '(v, cut) := unguarded_partition_pivot v first last in
        let v := introsort_loop depth_limit' v cut last in
        introsort_loop depth_limit' v first cut
    end
  else v.

(** The loop of [__unguarded_linear_insert]: [while (comp(val, next))];
    the vector and [last] after it. *)
Fixpoint linear_insert_loop (bound : nat) (v : list A) (last next : nat)
    (val : A) : list A * nat :=
  match bound with
  | O => (v, last)
  | S bound' =>
      if comp val (deref v next)
      then linear_insert_loop bound' (<[ last := deref v next ]> v)
                              next (next - 1) val
      else (v, last)
  end.

(** [__unguarded_linear_insert(last, comp)] *)
Definition unguarded_linear_insert (v : list A) (last : nat) : list A :=
  let val := deref v last in
  let '(v, last) := linear_insert_loop (length v) v last (last - 1) val in
  <[ last := val ]> v.

(** [std::move_backward(first, first + n, first + n + 1)]: the last
    element is moved first. *)
Fixpoint move_backward (n : nat) (v : list A) (first : nat) : list A :=
  match n with
  | O => v
  | S n' =>
      move_backward n' (<[ (first + n)%nat := deref v (first + n') ]> v)
                    first
  end.

(** The loop of [__insertion_sort] over [i], [n] iterations remaining. *)
Fixpoint insertion_sort_from (n : nat) (v : list A) (first i : nat)
    : list A :=
  match n with
  | O => v
  | S n' =>
      insertion_sort_from n'
        (if comp (deref v i) (deref v first) then
           let val := deref v i in
           <[ first := val ]> (move_backward (i - first) v first)
         else unguarded_linear_insert v i)
        first (S i)
  end.

(** [__insertion_sort(first, last, comp)] *)
Definition insertion_sort (v : list A) (first last : nat) : list A :=
  if (first =? last)%nat then v
  else insertion_sort_from (last - (first + 1)) v first (first + 1).

(** [__unguarded_insertion_sort(first, last, comp)], [n] iterations
    remaining. *)
Fixpoint unguarded_insertion_sort (n : nat) (v : list A) (i : nat)
    : list A :=
  match n with
  | O => v
  | S n' => unguarded_insertion_sort n' (unguarded_linear_insert v i) (S i)
  end.

(** [__final_insertion_sort(first, last, comp)] *)
Definition final_insertion_sort (v : list A) (first last : nat) : list A :=
  if (S_threshold <? last - first)%nat then
    let v := insertion_sort v first (first + S_threshold) in
    unguarded_insertion_sort (last - (first + S_threshold)) v
                             (first + S_threshold)
  else insertion_sort v first last.

(** [__sort(first, last, comp)] *)
Definition sort_range (v : list A) (first last : nat) : list A :=
  if (first =? last)%nat then v
  else
    let v := introsort_loop (Nat.log2 (last - first) * 2) v first last in
    final_insertion_sort v first last.
End WithComparator.

(** [std::sort(v.begin(), v.end(), comp)] *)
Definition sort {A : Type} (comp : A -> A -> bool) (v : list A) : list A :=
  match v with
  | [] => v
  | d :: _ => sort_range comp d v 0 (length v)
  end.
End GnuSort.

(** ** The contract of [std::sort]

    [comp] has to be a strict weak ordering on the elements sorted; the
    result is then a permutation of the input in which no element is
    ordered before an earlier one. *)

Section SortContract.
Context {A : Type}.

Definition incomparable (comp : A -> A -> bool) (a b : A) : Prop :=
  comp a b = false /\ comp b a = false.

Record strict_weak_on (comp : A -> A -> bool) (l : list A) : Prop := {
  swo_irrefl : forall a, In a l -> comp a a = false;
  swo_trans : forall a b c, In a l -> In b l -> In c l ->
    comp a b = true -> comp b c = true -> comp a c = true;
  swo_incomp : forall a b c, In a l -> In b l -> In c l ->
    incomparable comp a b -> incomparable comp b c -> incomparable comp a c
}.

Definition sorted_by (comp : A -> A -> bool) (l : list A) : Prop :=
  StronglySorted (fun a b => comp b a = false) l.

Definition std_sort_contract
    (sort : (A -> A -> bool) -> list A -> list A) : Prop :=
  forall comp l, strict_weak_on comp l ->
    Permutation (sort comp l) l /\ sorted_by comp (sort comp l).
End SortContract.

(** ** Facts of floating-point arithmetic the proofs rely on *)

Definition ordered {F : Type} {FO : FloatOps F} (x : F) : Prop :=
  (x <=? x)%f = true.

(** The comparisons form a total preorder on the values that are not NaN. *)
Class FloatOrder (F : Type) {FO : FloatOps F} : Prop := {
  flt_ordered : forall x y : F, (x <? y)%f = true -> ordered x /\ ordered y;
  fle_ordered : forall x y : F, (x <=? y)%f = true -> ordered x /\ ordered y;
  flt_negb_fle : forall x y : F, ordered x -> ordered y ->
    (x <? y)%f = negb (y <=? x)%f;
  fle_trans : forall x y z : F,
    (x <=? y)%f = true -> (y <=? z)%f = true -> (x <=? z)%f = true;
  fle_total : forall x y : F, ordered x -> ordered y ->
    (x <=? y)%f = true \/ (y <=? x)%f = true
}.

(** 0 and 1 are ordered, and [1 - c] is not NaN for [c] between them. *)
Class FloatUnit (F : Type) {FO : FloatOps F} : Prop := {
  f0_le_f1 : (f0 <=? f1)%f = true;
  fsub_one_ordered : forall c : F,
    (f0 <=? c)%f = true -> (c <=? f1)%f = true -> ordered (f1 - c)%f
}.

(** What the scores need of rounding: [1 - 0] and [1 - 1] are in [0,1];
    so is [1 - s] for a weighted sum [s = a * b + c * d] strictly between
    0 and 1; and the quotient of two 32-bit unsigned integers [a <= b]
    stays in [0,1]. *)
Class FloatRounding (F : Type) {FO : FloatOps F} : Prop := {
  fsub_one_zero :
    (f0 <=? f1 - f0)%f = true /\ (f1 - f0 <=? f1)%f = true;
  fsub_one_one :
    (f0 <=? f1 - f1)%f = true /\ (f1 - f1 <=? f1)%f = true;
  fsub_one_score : forall a b c d : F,
    (f0 <? a * b + c * d)%f = true -> (a * b + c * d <? f1)%f = true ->
    (f0 <=? f1 - (a * b + c * d))%f = true
    /\ (f1 - (a * b + c * d) <=? f1)%f = true;
  fdiv_ratio_range : forall a b : Z,
    0 <= a <= b -> 0 < b < 2 ^ 32 ->
    (f0 <=? of_int a / of_int b)%f = true
    /\ (of_int a / of_int b <=? f1)%f = true
}.

(** ** Vocabulary of the statements *)

(** A list with every run of equal consecutive elements reduced to one. *)
Fixpoint collapse (l : list Z) : list Z :=
  match l with
  | [] => []
  | a :: l' =>
      match l' with
      | [] => [a]
      | b :: _ => if a =? b then collapse l' else a :: collapse l'
      end
  end.

(** The nearest character key of each raw point, points without one
    (no character key in the layout) left out. *)
Definition nearestKeys {F : Type} {FO : FloatOps F} (l : KeyboardLayout.t F)
    (points : list (GesturePoint.t F)) : list Z :=
  List.filter (fun k => 0 <=? k)
    (List.map (fun pt => KeyboardLayout.findNearestKey l
                           (GesturePoint.x pt) (GesturePoint.y pt)) points).

(** Every cached path is the one [generate] computes for its key under the
    current layout. *)
Definition cache_ok {F : Type} {FO : FloatOps F}
    (g : IdealPathGenerator.Impl F) : Prop :=
  forall k p, IdealPathGenerator.cache g !! k = Some p ->
              p = IdealPathGenerator.generate g k.

(** What every dictionary store satisfies: frequencies are 32-bit unsigned
    values and [maxFrequency] bounds them. *)
Definition dict_ok (d : DictionaryLoader.Impl) : Prop :=
  0 <= DictionaryLoader.maxFrequency d < 2 ^ 32
  /\ Forall (fun en => 0 <= DictionaryEntry.frequency en
                       <= DictionaryLoader.maxFrequency d)
            (DictionaryLoader.entries d).

(** [max_candidates] clamped to [1, 20]. *)
Definition clampCandidates (n : Z) : Z := Z.max 1 (Z.min n MAX_MAX_CANDIDATES).

(** Steps 0 to 4 of [recognize]: the entries that get scored, in the order
    in which they are scored (empty when [recognize] returns early). *)
Definition scoredFor {F : Type} {FO : FloatOps F} (e : GestureEngine.Impl F)
    (rawPath : RawGesturePath.t F) : list (GestureEngine.ScoredEntry F) :=
  if negb (GestureEngine.initialized e) then []
  else if RawGesturePath.isEmpty rawPath then []
  else
    let normalizedPath :=
      PathProcessor.normalize (GestureEngine.pathProcessor e) rawPath
                              (GestureEngine.layout e) in
    if negb (GesturePath.isValid normalizedPath) then []
    else
      let '(startChar, endChar, hasStartEnd) :=
        GestureEngine.startEndChars (GestureEngine.layout e) normalizedPath in
      fst (GestureEngine.scoreEntries (GestureEngine.scorer e) normalizedPath
             (GestureEngine.lengthFilter
                (lengthFilterTolerance (GestureEngine.config e))
                (GestureEngine.estimateWordLengthByKeyTransitions e rawPath)
                (GestureEngine.candidateEntries (GestureEngine.dictLoader e)
                   startChar endChar hasStartEnd))
             (GestureEngine.idealPathGen e)).

(** The candidates of step 6, before they are sorted. *)
Definition unsortedCandidates {F : Type} {FO : FloatOps F}
    (e : GestureEngine.Impl F) (rawPath : RawGesturePath.t F)
    : list (GestureCandidate.t F) :=
  let scored := scoredFor e rawPath in
  List.map
    (GestureEngine.scoreCandidate
       (GestureEngine.maxDTW (GestureEngine.config e) scored)
       (GestureEngine.effectiveAlpha (GestureEngine.config e) scored)
       (DictionaryLoader.getMaxFrequency (GestureEngine.dictLoader e)))
    scored.

(** Confidences do not increase from the front to the back. *)
Definition nonIncreasing {F : Type} {FO : FloatOps F}
    (l : list (GestureCandidate.t F)) : Prop :=
  StronglySorted
    (fun a b => (GestureCandidate.confidence b
                 <=? GestureCandidate.confidence a)%f = true) l.

(** [a] stands before [b] in [l]. *)
Definition precedes {A : Type} (a b : A) (l : list A) : Prop :=
  exists l1 l2 l3, l = l1 ++ a :: l2 ++ b :: l3.

(** Stability of the final sort: two candidates of equal confidence stand
    in [after] in the order they have in [before]. *)
Definition tiesKeepOrder {F : Type} {FO : FloatOps F}
    (before after : list (GestureCandidate.t F)) : Prop :=
  forall a b,
    GestureCandidate.confidence a = GestureCandidate.confidence b ->
    precedes a b after -> precedes a b before.

(** A value between 0 and 1. *)
Definition inUnit {F : Type} {FO : FloatOps F} (x : F) : Prop :=
  (f0 <=? x)%f = true /\ (x <=? f1)%f = true.

(** The value [fillRow] writes into [dtw_curr[j]]: [up] is [dtw_prev[j]],
    [left] is [dtw_curr[j-1]], [diag] is [dtw_prev[j-1]]. *)
Definition bestOf {F : Type} {FO : FloatOps F} (j : nat) (up left diag : F) : F :=
  let best := FLT_MAX in
  let best := if (up <? FLT_MAX)%f then fmin best up else best in
  let best := if (0 <? j)%nat && (left <? FLT_MAX)%f
              then fmin best left else best in
  let best := if (0 <? j)%nat && (diag <? FLT_MAX)%f
              then fmin best diag else best in
  best.

Definition cellValue {F : Type} {FO : FloatOps F} (cost : F) (j : nat)
    (up left diag : F) : F :=
  if (bestOf j up left diag <? FLT_MAX)%f
  then (cost + bestOf j up left diag)%f else FLT_MAX.

(** The rows of the band-limited DTW matrix for gesture [g] and ideal
    path [p], as [computeDTWDistance] holds them one after the other in
    its two rolling rows: [dtwRow 0] is [dtw_prev] after "Initialize first
    row", [dtwRow i] is [dtw_prev] after the [i]-th pass of "Fill row by
    row"; [dtwCell i j] is its [j]-th cell. *)
Definition nextRow {F : Type} {FO : FloatOps F} (N W : Z)
    (g p : list (NormalizedPoint.t F)) (i : nat) (dtw_prev : list F) : list F :=
  let jMin := Z.max 0 (Z.of_nat i - W) in
  let jMax := Z.min (N - 1) (Z.of_nat i + W) in
  Scorer.fillRow (Z.to_nat (jMax + 1 - jMin)) (Z.to_nat jMin)
    (Scorer.point g i) p dtw_prev (repeat FLT_MAX (Z.to_nat N)).

Fixpoint dtwRow {F : Type} {FO : FloatOps F} (N W : Z)
    (g p : list (NormalizedPoint.t F)) (i : nat) : list F :=
  match i with
  | O => Scorer.firstRow (Z.to_nat (Z.min W (N - 1))) 1 (Scorer.point g 0) p
           (<[ 0%nat := Scorer.pointDistance (Scorer.point g 0)
                                             (Scorer.point p 0) ]>
              (repeat FLT_MAX (Z.to_nat N)))
  | S i' => nextRow N W g p i (dtwRow N W g p i')
  end.

Definition dtwCell {F : Type} {FO : FloatOps F} (N W : Z)
    (g p : list (NormalizedPoint.t F)) (i j : nat) : F :=
  Scorer.cell (dtwRow N W g p i) j.

(** Sign and square of binary32 values. *)

Module F32Sign.
Import F32.

(** Values whose sign bit is clear, and NaN. *)
Definition unsigned (x : f32) : Prop :=
  match x with
  | S754_zero s | S754_infinity s | S754_finite s _ _ => s = false
  | S754_nan => True
  end.

Definition square (d : f32) : f32 := SFmul prec emax d d.

End F32Sign.

(** The order of binary32 values, read off their representation. *)

Module F32Rank.
Import F32.

(** The place of a value on the line: sign class, then exponent and
    mantissa (negated for negative values); NaN has none. *)
Definition rank (x : f32) : option (Z * Z * Z) :=
  match x with
  | S754_nan => None
  | S754_infinity true => Some (-2, 0, 0)
  | S754_finite true m e => Some (-1, - e, Zneg m)
  | S754_zero _ => Some (0, 0, 0)
  | S754_finite false m e => Some (1, e, Zpos m)
  | S754_infinity false => Some (2, 0, 0)
  end.

Definition lex3 (a b : Z * Z * Z) : comparison :=
  let '(a1, a2, a3) := a in
  let '(b1, b2, b3) := b in
  match a1 ?= b1 with
  | Eq => match a2 ?= b2 with Eq => a3 ?= b3 | c => c end
  | c => c
  end.

Definition lt3 (a b : Z * Z * Z) : Prop :=
  let '(a1, a2, a3) := a in
  let '(b1, b2, b3) := b in
  a1 < b1 \/ (a1 = b1 /\ (a2 < b2 \/ (a2 = b2 /\ a3 < b3))).

End F32Rank.

(** ** Shapes of binary32 rounding *)

Module F32Shape.
Import F32.

(** What [binary_round_aux] builds from a mantissa and an exponent that
    are final. *)
Definition build (sx : bool) (m e : Z) : f32 :=
  match m with
  | Z0 => S754_zero sx
  | Zpos p => if e <=? emax - prec then S754_finite sx p e
              else S754_infinity sx
  | Zneg _ => S754_nan
  end.

(** Round to nearest, ties to even, of [n / 2^k] for a non-negative [n]. *)
Definition rne_shift (n k : Z) : Z :=
  let q := n / 2 ^ k in
  let rest := n mod 2 ^ k in
  let half := 2 ^ (k - 1) in
  if k <=? 0 then n
  else if rest <? half then q
  else if rest =? half then (if Z.even q then q else q + 1)
  else q + 1.

(** The mantissa and the exponent of the binary32 value nearest to an
    integer [a] between 1 and [2^32 - 1]. *)
Definition nearest (a : Z) : Z * Z :=
  let d := Zdigits2 a in
  if d <=? 24 then (a * 2 ^ (24 - d), d - 24)
  else
    let m1 := rne_shift a (d - 24) in
    if m1 =? 2 ^ 24 then (2 ^ 23, d - 23) else (m1, d - 24).

(** [k] shifts of [n]: the quotient, the last bit shifted out and
    whether anything was shifted out before it. *)
Definition shifted (n k : Z) (mrs : shr_record) : Prop :=
  shr_m mrs = n / 2 ^ k
  /\ shr_r mrs = (1 <=? k) && Z.odd (n / 2 ^ (k - 1))
  /\ shr_s mrs = (1 <=? k) && negb (n mod 2 ^ (k - 1) =? 0).

(** The value 1, and being between 0 and 1. *)
Definition one : f32 := S754_finite false 8388608 (-23).

Definition unit32 (r : f32) : Prop :=
  SFleb (S754_zero false) r = true /\ SFleb r one = true.
End F32Shape.

(** * Properties *)

(** ** The laws hold in exact arithmetic *)

Lemma Q_ordered (x : Q) : ordered x.
Proof. unfold ordered. cbn. apply Qle_bool_iff. apply Qle_refl. Qed.

#[global] Instance QExact_order : FloatOrder Q.
Proof.
  constructor.
  - intros x y _. split; apply Q_ordered.
  - intros x y _. split; apply Q_ordered.
  - intros x y _ _. reflexivity.
  - intros x y z H1 H2. cbn in *. apply Qle_bool_iff in H1, H2.
    apply Qle_bool_iff. eapply Qle_trans; eassumption.
  - intros x y _ _. cbn. destruct (Qlt_le_dec y x) as [H|H].
    + right. apply Qle_bool_iff. apply Qlt_le_weak. exact H.
    + left. apply Qle_bool_iff. exact H.
Qed.

#[global] Instance QExact_unit : FloatUnit Q.
Proof.
  constructor; [ reflexivity | intros c _ _; apply Q_ordered ].
Qed.

#[global] Instance QExact_rounding : FloatRounding Q.
Proof.
  constructor.
  - split; reflexivity.
  - split; reflexivity.
  - intros a b c d. unfold f0, f1.
    cbn [fadd fsub fmul fltb fleb of_int QExact.ops]. unfold QExact.ltb.
    change (inject_Z 0) with 0%Q. change (inject_Z 1) with 1%Q.
    set (s := (a * b + c * d)%Q).
    intros H0 H1. apply negb_true_iff in H0, H1.
    assert (H0' : (0 < s)%Q).
    { apply Qnot_le_lt. intro H. apply Qle_bool_iff in H. congruence. }
    assert (H1' : (s < 1)%Q).
    { apply Qnot_le_lt. intro H. apply Qle_bool_iff in H. congruence. }
    split; apply Qle_bool_iff; lra.
  - intros a b Hab Hb. unfold f0, f1. cbn.
    assert (Hb' : (0 < inject_Z b)%Q).
    { change 0%Q with (inject_Z 0). rewrite <- Zlt_Qlt. lia. }
    split; apply Qle_bool_iff.
    + apply Qle_shift_div_l; [ exact Hb' | ].
      rewrite Qmult_0_l. change 0%Q with (inject_Z 0). rewrite <- Zle_Qle. lia.
    + apply Qle_shift_div_r; [ exact Hb' | ].
      rewrite Qmult_1_l. rewrite <- Zle_Qle. lia.
Qed.

(** ** The order laws hold in binary32 *)

Module F32Order.
Import F32 F32Rank.

Lemma lex3_spec a b :
  match lex3 a b with
  | Lt => lt3 a b
  | Eq => a = b
  | Gt => lt3 b a
  end.
Proof.
  destruct a as [[a1 a2] a3], b as [[b1 b2] b3]. unfold lex3, lt3.
  destruct (Z.compare_spec a1 b1); [ | lia | lia ].
  destruct (Z.compare_spec a2 b2); [ | lia | lia ].
  destruct (Z.compare_spec a3 b3); [ congruence | lia | lia ].
Qed.

Lemma SFcompare_rank (x y : f32) :
  SFcompare x y = match rank x, rank y with
                  | Some a, Some b => Some (lex3 a b)
                  | _, _ => None
                  end.
Proof.
  destruct x as [sx|sx| |sx mx ex], y as [sy|sy| |sy my ey];
    try destruct sx; try destruct sy; try reflexivity.
  (* both negative *)
  cbn. rewrite Z.compare_opp. rewrite (Z.compare_antisym ex ey).
  destruct (ex ?= ey); reflexivity.
Qed.

Lemma ordered_rank (x : f32) : ordered x <-> rank x <> None.
Proof.
  unfold ordered. cbn. unfold SFleb. rewrite SFcompare_rank.
  destruct (rank x) as [a|].
  - pose proof (lex3_spec a a) as H. destruct (lex3 a a).
    + split; [ discriminate | reflexivity ].
    + exfalso. destruct a as [[a1 a2] a3]. cbn in H. lia.
    + exfalso. destruct a as [[a1 a2] a3]. cbn in H. lia.
  - split; [ discriminate | congruence ].
Qed.

Lemma SFltb_rank (x y : f32) :
  SFltb x y = true <-> exists a b, rank x = Some a /\ rank y = Some b /\ lt3 a b.
Proof.
  unfold SFltb. rewrite SFcompare_rank.
  destruct (rank x) as [a|], (rank y) as [b|];
    try (split; [ discriminate | intros (a' & b' & H1 & H2 & _); discriminate ]).
  pose proof (lex3_spec a b) as H. destruct (lex3 a b).
  - split; [ discriminate | ]. intros (a' & b' & H1 & H2 & H3).
    inversion H1; inversion H2; subst. destruct b' as [[b1 b2] b3]. cbn in H3. lia.
  - split; [ | reflexivity ]. intros _. eauto.
  - split; [ discriminate | ]. intros (a' & b' & H1 & H2 & H3).
    inversion H1; inversion H2; subst.
    destruct a' as [[a1 a2] a3], b' as [[b1 b2] b3]. cbn in H, H3. lia.
Qed.

Lemma SFleb_rank (x y : f32) :
  SFleb x y = true <->
  exists a b, rank x = Some a /\ rank y = Some b /\ (lt3 a b \/ a = b).
Proof.
  unfold SFleb. rewrite SFcompare_rank.
  destruct (rank x) as [a|], (rank y) as [b|];
    try (split; [ discriminate | intros (a' & b' & H1 & H2 & _); discriminate ]).
  pose proof (lex3_spec a b) as H. destruct (lex3 a b).
  - split; [ | reflexivity ]. intros _. eauto 6.
  - split; [ | reflexivity ]. intros _. eauto 6.
  - split; [ discriminate | ]. intros (a' & b' & H1 & H2 & H3).
    inversion H1; inversion H2; subst.
    destruct a' as [[a1 a2] a3], b' as [[b1 b2] b3]. cbn in H, H3.
    destruct H3 as [H3|H3]; [ lia | inversion H3; subst; lia ].
Qed.

#[global] Instance order : FloatOrder f32.
Proof.
  constructor.
  - intros x y H. apply SFltb_rank in H. destruct H as (a & b & Ha & Hb & _).
    split; apply ordered_rank; congruence.
  - intros x y H. apply SFleb_rank in H. destruct H as (a & b & Ha & Hb & _).
    split; apply ordered_rank; congruence.
  - intros x y Hx Hy. apply ordered_rank in Hx, Hy. cbn.
    unfold SFltb, SFleb. rewrite !SFcompare_rank.
    destruct (rank x) as [a|]; [ | congruence ].
    destruct (rank y) as [b|]; [ | congruence ].
    pose proof (lex3_spec a b) as H1. pose proof (lex3_spec b a) as H2.
    destruct a as [[a1 a2] a3], b as [[b1 b2] b3].
    destruct (lex3 (a1, a2, a3) (b1, b2, b3)), (lex3 (b1, b2, b3) (a1, a2, a3));
      cbn in H1, H2; try reflexivity; exfalso;
      try (inversion H1; subst); try (inversion H2; subst); lia.
  - intros x y z H1 H2. cbn in *. apply SFleb_rank in H1, H2. apply SFleb_rank.
    destruct H1 as (a & b & Ha & Hb & H1). destruct H2 as (b' & c & Hb' & Hc & H2).
    rewrite Hb in Hb'. inversion Hb'; subst b'.
    exists a, c. split; [ exact Ha | ]. split; [ exact Hc | ].
    destruct a as [[a1 a2] a3], b as [[b1 b2] b3], c as [[c1 c2] c3].
    cbn in *. destruct H1 as [H1|H1], H2 as [H2|H2];
      try (inversion H1; subst); try (inversion H2; subst); auto; left; lia.
  - intros x y Hx Hy. apply ordered_rank in Hx, Hy. cbn.
    destruct (rank x) as [a|] eqn:Ha; [ | congruence ].
    destruct (rank y) as [b|] eqn:Hb; [ | congruence ].
    pose proof (lex3_spec a b) as H. destruct (lex3 a b).
    + left. apply SFleb_rank. eauto 6.
    + left. apply SFleb_rank. eauto 6.
    + right. apply SFleb_rank. eauto 6.
Qed.
End F32Order.

(** ** Subtraction from 1 in binary32 *)

Module F32Unit.
Import F32.

Lemma shr_1_nonneg mrs : 0 <= shr_m mrs -> 0 <= shr_m (shr_1 mrs).
Proof.
  destruct mrs as [m r s]. cbn [shr_m]. intros H.
  destruct m as [|p|p]; [ cbn; lia | | lia ].
  destruct p; cbn; lia.
Qed.

Lemma iter_shr_1_nonneg p : forall mrs,
  0 <= shr_m mrs -> 0 <= shr_m (SpecFloat.iter_pos shr_1 p mrs).
Proof.
  induction p as [p IH|p IH|]; intros mrs H; cbn [SpecFloat.iter_pos].
  - apply IH, IH, shr_1_nonneg, H.
  - apply IH, IH, H.
  - apply shr_1_nonneg, H.
Qed.

Lemma shr_fexp_nonneg m e l :
  0 <= m -> 0 <= shr_m (fst (shr_fexp prec emax m e l)).
Proof.
  intros H. unfold shr_fexp, shr.
  assert (H0 : 0 <= shr_m (shr_record_of_loc m l)).
  { destruct l as [|[]]; exact H. }
  destruct (_ - e) as [|p|p]; cbn [fst]; [ exact H0 | | exact H0 ].
  apply iter_shr_1_nonneg, H0.
Qed.

Lemma round_nearest_even_nonneg m l : 0 <= m -> 0 <= round_nearest_even m l.
Proof.
  intros H. unfold round_nearest_even.
  destruct l as [|[]]; try destruct (Z.even m); lia.
Qed.

(** Rounding a non-negative integer never gives NaN. *)
Lemma binary_round_aux_not_nan s m e l :
  0 <= m -> binary_round_aux prec emax s m e l <> S754_nan.
Proof.
  intros H. unfold binary_round_aux.
  pose proof (shr_fexp_nonneg m e l H) as H1.
  destruct (shr_fexp prec emax m e l) as [mrs' e']. cbn [fst] in H1.
  pose proof (shr_fexp_nonneg _ e' loc_Exact
                (round_nearest_even_nonneg _ (loc_of_shr_record mrs') H1)) as H2.
  destruct (shr_fexp prec emax (round_nearest_even _ _) e' loc_Exact)
    as [mrs'' e'']. cbn [fst] in H2.
  destruct (shr_m mrs'') as [|p|p]; [ discriminate | | lia ].
  destruct (e'' <=? emax - prec); discriminate.
Qed.

Lemma binary_normalize_not_nan z e sz :
  binary_normalize prec emax z e sz <> S754_nan.
Proof.
  unfold binary_normalize, binary_round.
  destruct z as [|p|p]; [ discriminate | | ];
    destruct (shl_align _ _ _) as [mz ez];
    apply binary_round_aux_not_nan; lia.
Qed.

Lemma ordered_not_nan (x : f32) : x <> S754_nan -> ordered x.
Proof.
  intros H. apply F32Order.ordered_rank. destruct x as [[]|[]| |[]]; cbn; congruence.
Qed.

#[global] Instance unit : FloatUnit f32.
Proof.
  constructor; [ reflexivity | ].
  intros c H0 H1. apply ordered_not_nan.
  destruct c as [s|s| |s m e]; try destruct s; try discriminate.
  change (f1 - S754_finite false m e)%f with
    (binary_normalize prec emax
       (Zpos (fst (shl_align 8388608 (-23) (Z.min (-23) e)))
        - Zpos (fst (shl_align m e (Z.min (-23) e))))
       (Z.min (-23) e) false).
  apply binary_normalize_not_nan.
Qed.
End F32Unit.

(** ** The rounding laws hold in binary32 *)

Module F32Round.
Import F32 F32Shape.

Lemma fexp_eq k : fexp prec emax k = Z.max (k - 24) (-149).
Proof. reflexivity. Qed.

(** *** Number of binary digits *)

Lemma digits2_size p : digits2_pos p = Pos.size p.
Proof. induction p; simpl; congruence. Qed.

Lemma Zdigits2_nonneg m : 0 <= Zdigits2 m.
Proof. destruct m; simpl; lia. Qed.

Lemma Zdigits2_bounds m :
  0 < m -> 2 ^ (Zdigits2 m - 1) <= m < 2 ^ Zdigits2 m.
Proof.
  intros H. destruct m as [|p|p]; try lia. simpl Zdigits2.
  rewrite digits2_size.
  pose proof (Pos.size_gt p) as Hgt. pose proof (Pos.size_le p) as Hle.
  apply Pos2Z.pos_lt_pos in Hgt. apply Pos2Z.pos_le_pos in Hle.
  rewrite Pos2Z.inj_pow in Hgt, Hle.
  split; [ | exact Hgt ].
  replace (Z.pos (Pos.size p)) with (Z.succ (Z.pos (Pos.size p) - 1))
    in Hle by lia.
  rewrite Z.pow_succ_r in Hle by lia. lia.
Qed.

Lemma Zdigits2_le m k : 0 <= m < 2 ^ k -> 0 <= k -> Zdigits2 m <= k.
Proof.
  intros [H0 H1] Hk.
  destruct (Z.eq_dec m 0) as [->|Hm]; [ simpl; lia | ].
  destruct (Zdigits2_bounds m ltac:(lia)) as [Hlo _].
  destruct (Z.le_gt_cases (Zdigits2 m) k) as [|Hgt]; [ assumption | ].
  assert (2 ^ k <= 2 ^ (Zdigits2 m - 1)) by (apply Z.pow_le_mono_r; lia).
  lia.
Qed.

Lemma Zdigits2_ge m k : 2 ^ k <= m -> 0 <= k -> k + 1 <= Zdigits2 m.
Proof.
  intros H Hk.
  assert (Hm : 0 < m) by (pose proof (Z.pow_pos_nonneg 2 k); lia).
  destruct (Zdigits2_bounds m Hm) as [_ Hhi].
  destruct (Z.le_gt_cases (k + 1) (Zdigits2 m)) as [|Hlt]; [ assumption | ].
  assert (2 ^ Zdigits2 m <= 2 ^ k)
    by (apply Z.pow_le_mono_r; pose proof (Zdigits2_nonneg m); lia).
  lia.
Qed.

Lemma Zdigits2_unique m j :
  2 ^ (j - 1) <= m < 2 ^ j -> 1 <= j -> Zdigits2 m = j.
Proof.
  intros [Hlo Hhi] Hj.
  pose proof (Zdigits2_le m j) as H1.
  pose proof (Zdigits2_ge m (j - 1)) as H2.
  assert (0 < 2 ^ (j - 1)) by (apply Z.pow_pos_nonneg; lia).
  lia.
Qed.

Lemma Zdigits2_mono a b : 0 <= a <= b -> Zdigits2 a <= Zdigits2 b.
Proof.
  intros [Ha Hab].
  destruct (Z.eq_dec b 0) as [->|Hb].
  { replace a with 0 by lia. lia. }
  destruct (Zdigits2_bounds b ltac:(lia)) as [_ Hhi].
  apply Zdigits2_le; [ lia | apply Zdigits2_nonneg ].
Qed.

(** *** Shifting right *)

Lemma shr_1_m mrs : 0 <= shr_m mrs -> shr_m (shr_1 mrs) = shr_m mrs / 2.
Proof.
  destruct mrs as [m r s]. simpl. intros H.
  destruct m as [|[p|p|]|p]; cbn [shr_m]; try lia; try reflexivity.
  - apply Z.div_unique with 1; lia.
  - apply Z.div_unique with 0; lia.
Qed.

Lemma shr_1_r mrs : 0 <= shr_m mrs -> shr_r (shr_1 mrs) = Z.odd (shr_m mrs).
Proof.
  destruct mrs as [m r s]. simpl. intros H.
  destruct m as [|[p|p|]|p]; simpl; try reflexivity; lia.
Qed.

Lemma shr_1_s mrs : shr_s (shr_1 mrs) = shr_r mrs || shr_s mrs.
Proof. destruct mrs as [m r s]. simpl. destruct m as [|[p|p|]|[p|p|]]; reflexivity. Qed.

Lemma mod_pow2_succ n j :
  0 <= j ->
  n mod 2 ^ (j + 1) = n mod 2 ^ j + 2 ^ j * (if Z.odd (n / 2 ^ j) then 1 else 0).
Proof.
  intros Hj. rewrite Z.pow_add_r by lia. change (2 ^ 1) with 2.
  rewrite Z.rem_mul_r by (try apply Z.pow_nonzero; lia).
  rewrite Zmod_odd. reflexivity.
Qed.

Lemma shifted_step n k mrs :
  0 <= n -> 0 <= k -> shifted n k mrs -> shifted n (k + 1) (shr_1 mrs).
Proof.
  intros Hn Hk (Hm & Hr & Hs).
  assert (H0 : 0 <= shr_m mrs)
    by (rewrite Hm; apply Z.div_pos; [ lia | apply Z.pow_pos_nonneg; lia ]).
  unfold shifted. rewrite shr_1_m, shr_1_r, shr_1_s by exact H0.
  rewrite Hm, Hr, Hs.
  replace (k + 1 - 1) with k by lia.
  destruct (Z.leb_spec 1 (k + 1)); [ | lia ]. cbn [andb].
  split.
  { rewrite Z.div_div
      by (first [ apply Z.pow_nonzero; lia | apply Z.pow_pos_nonneg; lia
                | lia ]).
    rewrite Z.pow_add_r by lia. reflexivity. }
  split; [ reflexivity | ].
  destruct (Z.leb_spec 1 k) as [H1|H1]; cbn [andb].
  - replace k with (k - 1 + 1) at 3 by lia.
    rewrite mod_pow2_succ by lia.
    pose proof (Z.mod_pos_bound n (2 ^ (k - 1))
                  ltac:(apply Z.pow_pos_nonneg; lia)) as Hb.
    assert (0 < 2 ^ (k - 1)) by (apply Z.pow_pos_nonneg; lia).
    destruct (Z.odd (n / 2 ^ (k - 1))); cbn [orb].
    + symmetry. apply negb_true_iff, Z.eqb_neq. lia.
    + rewrite Z.mul_0_r, Z.add_0_r. reflexivity.
  - replace k with 0 by lia. simpl. rewrite Z.mod_1_r. reflexivity.
Qed.

Lemma shifted_iter p : forall n k mrs,
  0 <= n -> 0 <= k -> shifted n k mrs ->
  shifted n (k + Z.pos p) (SpecFloat.iter_pos shr_1 p mrs).
Proof.
  induction p as [p IH|p IH|]; intros n k mrs Hn Hk H; simpl.
  - replace (k + Z.pos p~1) with (k + 1 + Z.pos p + Z.pos p) by lia.
    apply IH; [ lia | lia | ]. apply IH; [ lia | lia | ].
    apply shifted_step; assumption.
  - replace (k + Z.pos p~0) with (k + Z.pos p + Z.pos p) by lia.
    apply IH; [ lia | lia | ]. apply IH; assumption.
  - apply shifted_step; assumption.
Qed.

Lemma shifted_exact n : shifted n 0 (shr_record_of_loc n loc_Exact).
Proof.
  unfold shifted. simpl. rewrite Z.div_1_r. auto.
Qed.

(** The quotient alone, whatever the location at the start. *)
Lemma iter_shr_m p : forall mrs,
  0 <= shr_m mrs ->
  shr_m (SpecFloat.iter_pos shr_1 p mrs) = shr_m mrs / 2 ^ Z.pos p.
Proof.
  assert (Hstep : forall mrs k, 0 <= k -> 0 <= shr_m mrs ->
            shr_m (shr_1 mrs) / 2 ^ k = shr_m mrs / 2 ^ (k + 1)).
  { intros mrs k Hk H. rewrite shr_1_m by exact H.
    rewrite Z.div_div
      by (first [ apply Z.pow_nonzero; lia | apply Z.pow_pos_nonneg; lia
                | lia ]).
    rewrite Z.pow_add_r by lia. rewrite Z.mul_comm. reflexivity. }
  assert (Hpos : forall mrs, 0 <= shr_m mrs -> 0 <= shr_m (shr_1 mrs)).
  { intros mrs H. rewrite shr_1_m by exact H. apply Z.div_pos; lia. }
  induction p as [p IH|p IH|]; intros mrs H; simpl.
  - assert (H1 : 0 <= shr_m (SpecFloat.iter_pos shr_1 p (shr_1 mrs))).
    { rewrite IH by auto. apply Z.div_pos; [ auto | ].
      apply Z.pow_pos_nonneg; lia. }
    rewrite IH by exact H1. rewrite IH by auto.
    rewrite Z.div_div
      by (first [ apply Z.pow_nonzero; lia | apply Z.pow_pos_nonneg; lia ]).
    rewrite <- Z.pow_add_r by lia.
    rewrite Hstep by (auto; lia). f_equal. f_equal. lia.
  - assert (H1 : 0 <= shr_m (SpecFloat.iter_pos shr_1 p mrs)).
    { rewrite IH by auto. apply Z.div_pos; [ auto | ].
      apply Z.pow_pos_nonneg; lia. }
    rewrite IH by exact H1. rewrite IH by auto.
    rewrite Z.div_div
      by (first [ apply Z.pow_nonzero; lia | apply Z.pow_pos_nonneg; lia ]).
    rewrite <- Z.pow_add_r by lia. f_equal. f_equal. lia.
  - rewrite shr_1_m by exact H. reflexivity.
Qed.

(** *** The shape of a rounded result *)

Lemma rne_bounds m l : m <= round_nearest_even m l <= m + 1.
Proof.
  destruct l as [|[| |]]; simpl; try lia.
  destruct (Z.even m); lia.
Qed.

Lemma shr_nonpos mrs e n : n <= 0 -> shr mrs e n = (mrs, e).
Proof. destruct n; simpl; [ reflexivity | lia | reflexivity ]. Qed.

Lemma shr_max mrs ex f :
  shr mrs ex (f - ex)
  = (fst (shr mrs ex (Z.max ex f - ex)), Z.max ex f).
Proof.
  destruct (Z.le_gt_cases f ex) as [H|H].
  - rewrite Z.max_l by lia. rewrite !shr_nonpos by lia. reflexivity.
  - rewrite Z.max_r by lia.
    destruct (f - ex) as [|p|p] eqn:E; try lia.
    simpl. f_equal. lia.
Qed.

Lemma shr_m_shift mx lx ex n :
  0 <= mx -> 0 <= n ->
  shr_m (fst (shr (shr_record_of_loc mx lx) ex n)) = mx / 2 ^ n.
Proof.
  intros Hm Hn.
  assert (H0 : shr_m (shr_record_of_loc mx lx) = mx)
    by (destruct lx as [|[| |]]; reflexivity).
  destruct n as [|p|p]; try lia.
  - simpl. rewrite H0, Z.div_1_r. reflexivity.
  - simpl. rewrite iter_shr_m by lia. rewrite H0. reflexivity.
Qed.

Lemma bra_shape sx mx ex lx :
  0 <= mx ->
  let e1 := Z.max ex (fexp prec emax (Zdigits2 mx + ex)) in
  let mrs := fst (shr (shr_record_of_loc mx lx) ex (e1 - ex)) in
  let m1 := round_nearest_even (shr_m mrs) (loc_of_shr_record mrs) in
  0 <= m1 <= 2 ^ 24
  /\ binary_round_aux prec emax sx mx ex lx
     = build sx (if m1 =? 2 ^ 24 then 2 ^ 23 else m1)
                (if m1 =? 2 ^ 24 then e1 + 1 else e1).
Proof.
  intros Hm e1 mrs m1.
  assert (He1 : -149 <= e1 /\ Zdigits2 mx + ex - 24 <= e1 /\ ex <= e1).
  { unfold e1. rewrite fexp_eq. lia. }
  assert (Hq : shr_m mrs = mx / 2 ^ (e1 - ex))
    by (apply shr_m_shift; lia).
  assert (Hlt : 0 <= shr_m mrs < 2 ^ 24).
  { rewrite Hq. split.
    - apply Z.div_pos; [ lia | apply Z.pow_pos_nonneg; lia ].
    - apply Z.div_lt_upper_bound; [ apply Z.pow_pos_nonneg; lia | ].
      rewrite <- Z.pow_add_r by lia.
      destruct (Z.eq_dec mx 0) as [->|Hne].
      + apply Z.pow_pos_nonneg; lia.
      + destruct (Zdigits2_bounds mx ltac:(lia)) as [_ Hhi].
        eapply Z.lt_le_trans; [ exact Hhi | ].
        apply Z.pow_le_mono_r; lia. }
  pose proof (rne_bounds (shr_m mrs) (loc_of_shr_record mrs)) as Hr.
  fold m1 in Hr.
  split; [ lia | ].
  unfold binary_round_aux, shr_fexp.
  rewrite shr_max. fold e1. fold mrs. cbv iota beta. fold m1.
  destruct (Z.eqb_spec m1 (2 ^ 24)) as [E|E].
  - rewrite E. vm_compute Zdigits2.
    assert (En : fexp prec emax (25 + e1) - e1 = 1)
      by (rewrite fexp_eq; lia).
    rewrite En. reflexivity.
  - assert (Hd : Zdigits2 m1 <= 24) by (apply Zdigits2_le; lia).
    rewrite shr_nonpos by (rewrite fexp_eq; lia).
    reflexivity.
Qed.

(** *** Results between 0 and 1 *)

Lemma unit32_build m e :
  0 <= m -> (e <= -24 \/ (e = -23 /\ m = 2 ^ 23)) ->
  unit32 (build false m e).
Proof.
  intros Hm He. unfold unit32, build.
  destruct m as [|p|p]; [ split; reflexivity | | lia ].
  destruct (Z.leb_spec e (emax - prec)) as [_|H];
    [ | unfold emax, prec in H; lia ].
  split; [ reflexivity | ].
  unfold SFleb, SFcompare, one.
  destruct He as [He|[-> Hp]].
  - destruct (Z.compare_spec e (-23)); try lia; reflexivity.
  - change (2 ^ 23) with (Z.pos 8388608) in Hp. injection Hp as ->.
    reflexivity.
Qed.

(** A value below 1 whose mantissa is shifted far enough to be rounded
    at once is rounded to a value between 0 and 1. *)
Lemma bra_le_one mx ex lx :
  0 <= mx ->
  Zdigits2 mx + ex <= 0 ->
  ex <= fexp prec emax (Zdigits2 mx + ex) ->
  unit32 (binary_round_aux prec emax false mx ex lx).
Proof.
  intros Hm Hd Ha.
  destruct (bra_shape false mx ex lx Hm) as [Hm1 ->].
  rewrite Z.max_r in Hm1 |- * by exact Ha.
  rewrite fexp_eq in *.
  match goal with
  | |- context [if ?m1 =? 2 ^ 24 then _ else _] =>
      destruct (Z.eqb_spec m1 (2 ^ 24)) as [E|E]
  end.
  - apply unit32_build; [ apply Z.pow_nonneg; lia | ].
    destruct (Z.eq_dec (Z.max (Zdigits2 mx + ex - 24) (-149) + 1) (-23));
      [ right; split; [ lia | reflexivity ] | left; lia ].
  - apply unit32_build; [ lia | left; lia ].
Qed.

Lemma bra_mantissa sx mx ex lx s m e :
  0 <= mx ->
  binary_round_aux prec emax sx mx ex lx = S754_finite s m e ->
  Z.pos m < 2 ^ 24.
Proof.
  intros Hm H.
  destruct (bra_shape sx mx ex lx Hm) as [Hm1 E]. rewrite E in H.
  clear E. unfold build in H.
  match type of H with
  | context [if ?m1 =? 2 ^ 24 then _ else _] =>
      destruct (Z.eqb_spec m1 (2 ^ 24)) as [E|E]
  end.
  - simpl in H. destruct (_ <=? _) in H; inversion H; subst. reflexivity.
  - match type of H with
    | match ?m1 with _ => _ end = _ => destruct m1 as [|p|p] eqn:Em
    end; try discriminate.
    destruct (_ <=? _) in H; inversion H; subst. lia.
Qed.

(** *** Alignment *)

Lemma iter_xO m d : Z.pos (Pos.iter xO m d) = Z.pos m * 2 ^ Z.pos d.
Proof.
  induction d as [|d IH] using Pos.peano_ind.
  - simpl. lia.
  - rewrite Pos.iter_succ, Pos2Z.inj_succ, Z.pow_succ_r by lia.
    rewrite Pos2Z.inj_xO, IH. lia.
Qed.

Lemma shl_align_spec mx ex ex' :
  snd (shl_align mx ex ex') = Z.min ex ex'
  /\ Z.pos (fst (shl_align mx ex ex'))
     = Z.pos mx * 2 ^ (ex - Z.min ex ex').
Proof.
  unfold shl_align. destruct (ex' - ex) as [|d|d] eqn:E; cbn [fst snd].
  - rewrite Z.min_l by lia. rewrite Z.sub_diag. simpl. lia.
  - rewrite Z.min_l by lia. rewrite Z.sub_diag. simpl. lia.
  - rewrite Z.min_r by lia. split; [ reflexivity | ].
    rewrite iter_xO. f_equal. f_equal. lia.
Qed.

Lemma Zdigits2_shift m k :
  0 < m -> 0 <= k -> Zdigits2 (m * 2 ^ k) = Zdigits2 m + k.
Proof.
  intros Hm Hk. destruct (Zdigits2_bounds m Hm) as [Hlo Hhi].
  assert (Hd : 1 <= Zdigits2 m).
  { destruct m; try lia. simpl. lia. }
  assert (H2 : 0 < 2 ^ k) by (apply Z.pow_pos_nonneg; lia).
  apply Zdigits2_unique; [ | lia ].
  replace (Zdigits2 m + k - 1) with (Zdigits2 m - 1 + k) by lia.
  rewrite !Z.pow_add_r by lia. nia.
Qed.

(** A positive value below 1 is rounded to a value between 0 and 1. *)
Lemma binary_round_le_one p e :
  Zdigits2 (Z.pos p) + e <= 0 ->
  unit32 (binary_round prec emax false p e).
Proof.
  intros Hd. unfold binary_round.
  pose proof (shl_align_spec p e
                (fexp prec emax (Z.pos (digits2_pos p) + e))) as [He Hm].
  destruct (shl_align p e _) as [mz ez]. cbn [fst snd] in He, Hm.
  change (Z.pos (digits2_pos p)) with (Zdigits2 (Z.pos p)) in He, Hm.
  assert (Hdig : Zdigits2 (Z.pos mz) + ez = Zdigits2 (Z.pos p) + e).
  { rewrite Hm, Zdigits2_shift by lia. lia. }
  apply bra_le_one; [ lia | lia | ].
  rewrite Hdig. lia.
Qed.

(** [1 - s] for a value [s] below 1 with a mantissa of at most 24
    bits. *)
Lemma one_minus_unit m e :
  Z.pos m < 2 ^ 24 ->
  SFltb (S754_finite false m e) one = true ->
  unit32 (SFsub prec emax one (S754_finite false m e)).
Proof.
  intros Hm Hlt.
  assert (He : e <= -24 \/ (e = -23 /\ Z.pos m < 2 ^ 23)).
  { unfold SFltb, SFcompare, one in Hlt.
    destruct (Z.compare_spec e (-23)) as [->|H|H]; try discriminate.
    - right. split; [ reflexivity | ].
      rewrite Pos.compare_cont_spec in Hlt. simpl in Hlt.
      destruct (Pos.compare_spec m 8388608); try discriminate. lia.
    - left. lia. }
  unfold SFsub, one. cbv zeta.
  rewrite Z.min_r by lia.
  pose proof (shl_align_spec 8388608 (-23) e) as [_ H1].
  pose proof (shl_align_spec m e e) as [_ H2].
  rewrite Z.min_r in H1 by lia. rewrite Z.min_id, Z.sub_diag in H2.
  cbn [cond_Zopp]. rewrite H1, H2.
  change (Z.pos 8388608) with (2 ^ 23).
  rewrite <- Z.pow_add_r by lia.
  replace (23 + (-23 - e)) with (- e) by lia.
  change (2 ^ 0) with 1. rewrite Z.mul_1_r.
  assert (Hpow : 2 ^ 24 <= 2 ^ (- e) \/ (e = -23 /\ 2 ^ (- e) = 2 ^ 23)).
  { destruct He as [He|[-> _]]; [ left | right; split; reflexivity ].
    apply Z.pow_le_mono_r; lia. }
  destruct (2 ^ (- e) - Z.pos m) as [|P|P] eqn:EM; try lia.
  unfold binary_normalize.
  apply binary_round_le_one.
  assert (Zdigits2 (Z.pos P) <= - e) by (apply Zdigits2_le; lia).
  lia.
Qed.

(** *** The score of a candidate *)

Lemma SFmul_mantissa a b s m e :
  SFmul prec emax a b = S754_finite s m e -> Z.pos m < 2 ^ 24.
Proof.
  destruct a as [sa|sa| |sa ma ea], b as [sb|sb| |sb mb eb];
    simpl; try discriminate.
  apply bra_mantissa. lia.
Qed.

Lemma binary_normalize_mantissa z ez sz s m e :
  binary_normalize prec emax z ez sz = S754_finite s m e ->
  Z.pos m < 2 ^ 24.
Proof.
  unfold binary_normalize, binary_round.
  destruct z as [|p|p]; [ discriminate | | ];
    destruct (shl_align p ez _) as [mz ez']; apply bra_mantissa; lia.
Qed.

Lemma SFadd_mantissa x y s m e :
  (forall s m e, x = S754_finite s m e -> Z.pos m < 2 ^ 24) ->
  (forall s m e, y = S754_finite s m e -> Z.pos m < 2 ^ 24) ->
  SFadd prec emax x y = S754_finite s m e -> Z.pos m < 2 ^ 24.
Proof.
  intros Hx Hy.
  destruct x as [sx|sx| |sx mx ex], y as [sy|sy| |sy my ey];
    simpl; try discriminate.
  - destruct sx, sy; discriminate.
  - intros H. eapply Hy. exact H.
  - destruct sx, sy; discriminate.
  - intros H. eapply Hx. exact H.
  - apply binary_normalize_mantissa.
Qed.

(** [1 - s] for a score [s = a * b + c * d] that the clamp leaves as it
    is. *)
Lemma score_unit (a b c d : f32) :
  (f0 <? a * b + c * d)%f = true ->
  (a * b + c * d <? f1)%f = true ->
  unit32 (f1 - (a * b + c * d))%f.
Proof.
  cbn [fadd fsub fmul fltb ops].
  change (f1 (F:=f32)) with one. change (f0 (F:=f32)) with (S754_zero false).
  intros H0 H1.
  destruct (SFadd prec emax (SFmul prec emax a b) (SFmul prec emax c d))
    as [s|s| |s m e] eqn:E.
  - discriminate H0.
  - destruct s; discriminate.
  - discriminate H0.
  - destruct s; [ discriminate H0 | ].
    apply one_minus_unit; [ | exact H1 ].
    eapply SFadd_mantissa; [ | | exact E ];
      intros s' m' e'; apply SFmul_mantissa.
Qed.

(** *** Rounding an integer *)

Lemma rne_shift_spec n k mrs :
  0 <= n -> 1 <= k -> shifted n k mrs ->
  round_nearest_even (shr_m mrs) (loc_of_shr_record mrs) = rne_shift n k.
Proof.
  intros Hn Hk (Hm & Hr & Hs).
  unfold rne_shift. cbv zeta.
  destruct (Z.leb_spec k 0); [ lia | ].
  destruct (Z.leb_spec 1 k); [ | lia ]. cbn [andb] in Hr, Hs.
  assert (Hrest : n mod 2 ^ k
                  = n mod 2 ^ (k - 1)
                    + 2 ^ (k - 1)
                      * (if Z.odd (n / 2 ^ (k - 1)) then 1 else 0)).
  { rewrite <- mod_pow2_succ by lia. f_equal. f_equal. lia. }
  rewrite Hrest, <- Hr.
  assert (Hh : 0 < 2 ^ (k - 1)) by (apply Z.pow_pos_nonneg; lia).
  pose proof (Z.mod_pos_bound n (2 ^ (k - 1)) Hh) as Hb.
  destruct mrs as [m r s]. cbn [shr_m shr_r shr_s loc_of_shr_record] in *.
  subst m.
  destruct r, s; cbn [round_nearest_even];
    symmetry in Hs;
    [ apply negb_true_iff, Z.eqb_neq in Hs
    | apply negb_false_iff, Z.eqb_eq in Hs
    | apply negb_true_iff, Z.eqb_neq in Hs
    | apply negb_false_iff, Z.eqb_eq in Hs ];
    repeat match goal with
           | |- context [?a <? ?b] => destruct (Z.ltb_spec a b); try lia
           | |- context [?a =? ?b] => destruct (Z.eqb_spec a b); try lia
           end; reflexivity.
Qed.

Lemma rne_shift_bounds n k :
  0 <= n -> 1 <= k -> n / 2 ^ k <= rne_shift n k <= n / 2 ^ k + 1.
Proof.
  intros Hn Hk. unfold rne_shift. cbv zeta.
  destruct (Z.leb_spec k 0); [ lia | ].
  destruct (_ <? _); [ lia | ].
  destruct (_ =? _); [ destruct (Z.even _); lia | lia ].
Qed.

Lemma rne_shift_mono a b k :
  0 <= a <= b -> 1 <= k -> rne_shift a k <= rne_shift b k.
Proof.
  intros [Ha Hab] Hk.
  assert (Hp : 0 < 2 ^ k) by (apply Z.pow_pos_nonneg; lia).
  pose proof (Z.div_le_mono a b (2 ^ k) Hp Hab) as Hq.
  destruct (Z.eq_dec (a / 2 ^ k) (b / 2 ^ k)) as [E|E].
  - pose proof (Z.div_mod a (2 ^ k) ltac:(lia)) as Da.
    pose proof (Z.div_mod b (2 ^ k) ltac:(lia)) as Db.
    rewrite E in Da.
    unfold rne_shift. cbv zeta. rewrite E.
    destruct (Z.leb_spec k 0); [ lia | ].
    repeat match goal with
           | |- context [?x <? ?y] => destruct (Z.ltb_spec x y)
           | |- context [?x =? ?y] => destruct (Z.eqb_spec x y)
           end; try destruct (Z.even _); lia.
  - pose proof (rne_shift_bounds a k Ha Hk).
    pose proof (rne_shift_bounds b k ltac:(lia) Hk). lia.
Qed.

Lemma pow_split j k : 0 <= j -> 0 <= k -> 2 ^ j * 2 ^ k = 2 ^ (j + k).
Proof. intros. rewrite Z.pow_add_r by lia. reflexivity. Qed.

(** The value nearest to an integer is normalised, and its exponent is
    the one of the integer or, after a carry, the next. *)
Lemma nearest_range a :
  1 <= a < 2 ^ 32 ->
  1 <= Zdigits2 a <= 32
  /\ 2 ^ 23 <= fst (nearest a) < 2 ^ 24
  /\ (snd (nearest a) = Zdigits2 a - 24
      \/ (snd (nearest a) = Zdigits2 a - 23 /\ fst (nearest a) = 2 ^ 23)).
Proof.
  intros Ha.
  assert (Hd : 1 <= Zdigits2 a <= 32).
  { split; [ apply (Zdigits2_ge a 0); simpl; lia | ].
    apply Zdigits2_le; lia. }
  destruct (Zdigits2_bounds a ltac:(lia)) as [Hlo Hhi].
  split; [ exact Hd | ].
  unfold nearest. cbv zeta.
  destruct (Z.leb_spec (Zdigits2 a) 24) as [H|H]; cbn [fst snd].
  - split; [ | left; reflexivity ].
    pose proof (pow_split (Zdigits2 a - 1) (24 - Zdigits2 a)) as E1.
    pose proof (pow_split (Zdigits2 a) (24 - Zdigits2 a)) as E2.
    replace (Zdigits2 a - 1 + (24 - Zdigits2 a)) with 23 in E1 by lia.
    replace (Zdigits2 a + (24 - Zdigits2 a)) with 24 in E2 by lia.
    assert (Hp : 0 < 2 ^ (24 - Zdigits2 a))
      by (apply Z.pow_pos_nonneg; lia).
    rewrite <- E1, <- E2 by lia. split.
    + apply Z.mul_le_mono_nonneg_r; lia.
    + apply Z.mul_lt_mono_pos_r; lia.
  - set (k := Zdigits2 a - 24).
    assert (Hk : 1 <= k) by (unfold k; lia).
    assert (Hp : 0 < 2 ^ k) by (apply Z.pow_pos_nonneg; lia).
    pose proof (pow_split k 23) as E1. pose proof (pow_split k 24) as E2.
    replace (k + 23) with (Zdigits2 a - 1) in E1 by (unfold k; lia).
    replace (k + 24) with (Zdigits2 a) in E2 by (unfold k; lia).
    assert (Hq : 2 ^ 23 <= a / 2 ^ k < 2 ^ 24).
    { split.
      - apply Z.div_le_lower_bound; [ exact Hp | ]. rewrite E1 by lia. lia.
      - apply Z.div_lt_upper_bound; [ exact Hp | ]. rewrite E2 by lia. lia. }
    pose proof (rne_shift_bounds a k ltac:(lia) Hk) as Hr.
    destruct (Z.eqb_spec (rne_shift a k) (2 ^ 24)) as [E|E]; cbn [fst snd].
    + split; [ lia | right; split; [ unfold k; lia | reflexivity ] ].
    + split; [ lia | left; reflexivity ].
Qed.

Lemma nearest_mono a b :
  1 <= a <= b -> b < 2 ^ 32 ->
  snd (nearest a) < snd (nearest b)
  \/ (snd (nearest a) = snd (nearest b)
      /\ fst (nearest a) <= fst (nearest b)).
Proof.
  intros Hab Hb.
  pose proof (Zdigits2_mono a b ltac:(lia)) as Hd.
  destruct (nearest_range a ltac:(lia)) as (Hda & Hma & Hea).
  destruct (nearest_range b ltac:(lia)) as (Hdb & Hmb & Heb).
  destruct (Z.eq_dec (Zdigits2 a) (Zdigits2 b)) as [E|E]; [ | lia ].
  clear Hea Heb. unfold nearest in *. cbv zeta in *. rewrite E in *.
  destruct (Z.leb_spec (Zdigits2 b) 24) as [H|H]; cbn [fst snd] in *.
  - right. split; [ reflexivity | ].
    apply Z.mul_le_mono_nonneg_r; [ apply Z.pow_nonneg; lia | lia ].
  - pose proof (rne_shift_mono a b (Zdigits2 b - 24) ltac:(lia) ltac:(lia))
      as Hm.
    destruct (Z.eqb_spec (rne_shift a (Zdigits2 b - 24)) (2 ^ 24)),
             (Z.eqb_spec (rne_shift b (Zdigits2 b - 24)) (2 ^ 24));
      cbn [fst snd] in *; lia.
Qed.

(** [static_cast<float>] of a positive 32-bit integer. *)
Lemma of_Z_nearest a :
  1 <= a < 2 ^ 32 ->
  of_Z a = S754_finite false (Z.to_pos (fst (nearest a))) (snd (nearest a)).
Proof.
  intros Ha.
  destruct (nearest_range a Ha) as (Hd & Hm & _).
  destruct a as [|p|p]; try lia.
  unfold of_Z, binary_normalize, binary_round.
  change (Z.pos (digits2_pos p)) with (Zdigits2 (Z.pos p)).
  rewrite Z.add_0_r.
  pose proof (shl_align_spec p 0 (fexp prec emax (Zdigits2 (Z.pos p))))
    as [He Hz].
  destruct (shl_align p 0 _) as [mz ez]. cbn [fst snd] in He, Hz.
  rewrite fexp_eq in He, Hz.
  destruct (bra_shape false (Z.pos mz) ez loc_Exact ltac:(lia)) as [Hm1 ->].
  unfold nearest in *. cbv zeta in *.
  destruct (Z.leb_spec (Zdigits2 (Z.pos p)) 24) as [H|H]; cbn [fst snd] in *.
  - assert (Hez : ez = Zdigits2 (Z.pos p) - 24) by lia.
    assert (Hmz : Z.pos mz = Z.pos p * 2 ^ (24 - Zdigits2 (Z.pos p))).
    { rewrite Hz. f_equal. f_equal. lia. }
    assert (Hdz : Zdigits2 (Z.pos mz) = 24).
    { rewrite Hmz, Zdigits2_shift by lia. lia. }
    assert (He1 : Z.max ez (fexp prec emax (Zdigits2 (Z.pos mz) + ez)) = ez)
      by (rewrite fexp_eq; lia).
    rewrite He1, Z.sub_diag in *.
    cbn [shr fst shr_record_of_loc shr_m loc_of_shr_record
         round_nearest_even] in *.
    destruct (Z.eqb_spec (Z.pos mz) (2 ^ 24)) as [E|E]; [ lia | ].
    unfold build.
    destruct (Z.leb_spec ez (emax - prec)) as [_|Hbad];
      [ | unfold emax, prec in Hbad; lia ].
    rewrite <- Hmz, Hez. reflexivity.
  - assert (Hez : ez = 0) by lia.
    assert (Hmz : mz = p).
    { rewrite Z.min_l in Hz by lia. change (2 ^ (0 - 0)) with 1 in Hz. lia. }
    clear He Hz. subst mz ez.
    assert (He1 : Z.max 0 (fexp prec emax (Zdigits2 (Z.pos p) + 0))
                  = Zdigits2 (Z.pos p) - 24)
      by (rewrite fexp_eq; lia).
    rewrite He1, Z.sub_0_r in *.
    assert (Hsh : shifted (Z.pos p) (Zdigits2 (Z.pos p) - 24)
                    (fst (shr (shr_record_of_loc (Z.pos p) loc_Exact) 0
                              (Zdigits2 (Z.pos p) - 24)))).
    { destruct (Zdigits2 (Z.pos p) - 24) as [|q|q] eqn:Eq; try lia.
      cbn [shr fst].
      replace (Z.pos q) with (0 + Z.pos q) at 1 by lia.
      apply shifted_iter; [ lia | lia | apply shifted_exact ]. }
    rewrite (rne_shift_spec (Z.pos p) (Zdigits2 (Z.pos p) - 24) _
               ltac:(lia) ltac:(lia) Hsh) in *.
    destruct (Z.eqb_spec (rne_shift (Z.pos p) (Zdigits2 (Z.pos p) - 24))
                (2 ^ 24)) as [E|E]; cbn [fst snd] in *.
    + change (2 ^ 23) with (Z.pos 8388608). unfold build.
      destruct (Z.leb_spec (Zdigits2 (Z.pos p) - 24 + 1) (emax - prec))
        as [_|Hbad]; [ | unfold emax, prec in Hbad; lia ].
      f_equal. lia.
    + destruct (rne_shift (Z.pos p) (Zdigits2 (Z.pos p) - 24))
        as [|m1|m1] eqn:Em; try lia.
      unfold build.
      destruct (Z.leb_spec (Zdigits2 (Z.pos p) - 24) (emax - prec))
        as [_|Hbad]; [ | unfold emax, prec in Hbad; lia ].
      reflexivity.
Qed.

(** *** Division *)

Lemma new_location_zero n : new_location n 0 = loc_Exact.
Proof. unfold new_location. destruct (Z.even n); reflexivity. Qed.

Lemma div_eucl_pair a b : Z.div_eucl a b = (a / b, a mod b).
Proof. unfold Z.div, Z.modulo. destruct (Z.div_eucl a b). reflexivity. Qed.

(** The quotient of two normalised values, the first not above the
    second, is in [0,1]. *)
Lemma div_unit ma ea mb eb :
  2 ^ 23 <= Z.pos ma < 2 ^ 24 ->
  2 ^ 23 <= Z.pos mb < 2 ^ 24 ->
  -32 <= ea - eb ->
  ea < eb \/ (ea = eb /\ Z.pos ma <= Z.pos mb) ->
  unit32 (SFdiv prec emax (S754_finite false ma ea) (S754_finite false mb eb)).
Proof.
  intros Ha Hb He Hle.
  assert (Hda : Zdigits2 (Z.pos ma) = 24)
    by (apply Zdigits2_unique; [ exact Ha | lia ]).
  assert (Hdb : Zdigits2 (Z.pos mb) = 24)
    by (apply Zdigits2_unique; [ exact Hb | lia ]).
  unfold SFdiv, SFdiv_core_binary. cbv zeta.
  rewrite Hda, Hdb.
  replace (24 + ea - (24 + eb)) with (ea - eb) by lia.
  rewrite fexp_eq, Z.max_l by lia. rewrite Z.min_l by lia.
  replace (ea - eb - (ea - eb - 24)) with 24 by lia.
  cbv iota. rewrite Z.shiftl_mul_pow2 by lia.
  rewrite div_eucl_pair. cbn [xorb].
  set (q := Z.pos ma * 2 ^ 24 / Z.pos mb).
  assert (Hq : 2 ^ 23 <= q < 2 ^ 25).
  { unfold q. split.
    - apply Z.div_le_lower_bound; lia.
    - apply Z.div_lt_upper_bound; lia. }
  destruct (Z.eq_dec (Z.pos ma) (Z.pos mb)) as [Em|Em].
  - destruct (Z.eq_dec ea eb) as [Ee|Ee].
    + (* the quotient is 1 *)
      subst eb. injection Em as ->.
      assert (Hq1 : q = 2 ^ 24).
      { unfold q. rewrite Z.mul_comm. apply Z.div_mul. lia. }
      rewrite Hq1.
      replace (Z.pos mb * 2 ^ 24 mod Z.pos mb) with 0
        by (symmetry; rewrite Z.mul_comm; apply Z.mod_mul; lia).
      rewrite new_location_zero. rewrite Z.sub_diag.
      vm_compute. split; reflexivity.
    + apply bra_le_one; [ lia | | ].
      * assert (Zdigits2 q <= 25) by (apply Zdigits2_le; lia). lia.
      * assert (24 <= Zdigits2 q) by (apply (Zdigits2_ge q 23); lia).
        rewrite fexp_eq. lia.
  - assert (Hd : 24 <= Zdigits2 q) by (apply (Zdigits2_ge q 23); lia).
    apply bra_le_one; [ lia | | rewrite fexp_eq; lia ].
    destruct Hle as [Hlt|[-> Hm]].
    + assert (Zdigits2 q <= 25) by (apply Zdigits2_le; lia). lia.
    + assert (q < 2 ^ 24)
        by (unfold q; apply Z.div_lt_upper_bound; lia).
      assert (Zdigits2 q <= 24) by (apply Zdigits2_le; lia). lia.
Qed.

(** The quotient of two 32-bit unsigned integers [a <= b], both
    converted to [float], is in [0,1]. *)
Lemma ratio_unit a b :
  0 <= a <= b -> 0 < b < 2 ^ 32 ->
  unit32 (SFdiv prec emax (of_Z a) (of_Z b)).
Proof.
  intros Hab Hb.
  destruct (nearest_range b ltac:(lia)) as (Hdb & Hmb & Heb).
  rewrite (of_Z_nearest b) by lia.
  destruct (Z.eq_dec a 0) as [->|Ha].
  { split; reflexivity. }
  destruct (nearest_range a ltac:(lia)) as (Hda & Hma & Hea).
  rewrite (of_Z_nearest a) by lia.
  apply div_unit.
  - rewrite Z2Pos.id by lia. exact Hma.
  - rewrite Z2Pos.id by lia. exact Hmb.
  - lia.
  - rewrite !Z2Pos.id by lia.
    apply nearest_mono; lia.
Qed.
(** *** The laws *)

#[global] Instance rounding : FloatRounding f32.
Proof.
  constructor.
  - split; reflexivity.
  - split; reflexivity.
  - intros a b c d H0 H1. exact (score_unit a b c d H0 H1).
  - intros a b Hab Hb. exact (ratio_unit a b Hab Hb).
Qed.
End F32Round.

(** ** Consequences of the order laws *)

Section OrderFacts.
Context {F : Type} {FO : FloatOps F} {FL : FloatOrder F}.

Lemma flt_irrefl (x : F) : (x <? x)%f = false.
Proof.
  destruct (x <? x)%f eqn:H; [ | reflexivity ].
  destruct (flt_ordered _ _ H) as [Hx _].
  rewrite (flt_negb_fle x x Hx Hx) in H. rewrite Hx in H. discriminate.
Qed.

Lemma flt_false_fle (x y : F) :
  ordered x -> ordered y -> (x <? y)%f = false -> (y <=? x)%f = true.
Proof.
  intros Hx Hy H. rewrite (flt_negb_fle x y Hx Hy) in H.
  destruct (y <=? x)%f; [ reflexivity | discriminate ].
Qed.

Lemma fle_flt_false (x y : F) : (y <=? x)%f = true -> (x <? y)%f = false.
Proof.
  intros H. destruct (fle_ordered _ _ H) as [Hy Hx].
  rewrite (flt_negb_fle x y Hx Hy), H. reflexivity.
Qed.

Lemma flt_fle (x y : F) : (x <? y)%f = true -> (x <=? y)%f = true.
Proof.
  intros H. destruct (flt_ordered _ _ H) as [Hx Hy].
  destruct (fle_total x y Hx Hy) as [H'|H']; [ exact H' | ].
  rewrite (fle_flt_false _ _ H') in H. discriminate.
Qed.

Lemma flt_trans (x y z : F) :
  (x <? y)%f = true -> (y <? z)%f = true -> (x <? z)%f = true.
Proof.
  intros H1 H2. destruct (flt_ordered _ _ H1) as [Hx Hy].
  destruct (flt_ordered _ _ H2) as [_ Hz].
  destruct (x <? z)%f eqn:H; [ reflexivity | exfalso ].
  apply (flt_false_fle x z Hx Hz) in H.
  pose proof (fle_trans _ _ _ H (flt_fle _ _ H1)) as H3.
  rewrite (fle_flt_false _ _ H3) in H2. discriminate.
Qed.

Lemma fmax_ordered (a b : F) : ordered a -> ordered b -> ordered (fmax a b).
Proof. intros Ha Hb. unfold fmax. destruct (a <? b)%f; assumption. Qed.

Lemma fmin_ordered (a b : F) : ordered a -> ordered b -> ordered (fmin a b).
Proof. intros Ha Hb. unfold fmin. destruct (b <? a)%f; assumption. Qed.

(** Candidates whose confidence is not NaN are strictly weakly ordered by
    the comparator of [recognize]. *)
Lemma byConfidence_strict_weak (l : list (GestureCandidate.t F)) :
  Forall (fun c => ordered (GestureCandidate.confidence c)) l ->
  strict_weak_on GestureEngine.byConfidence l.
Proof.
  intros Hl. rewrite List.Forall_forall in Hl.
  unfold GestureEngine.byConfidence. constructor.
  - intros a _. apply flt_irrefl.
  - intros a b c _ _ _ H1 H2. eapply flt_trans; eassumption.
  - intros a b c Ha Hb Hc [H1 H2] [H3 H4].
    apply Hl in Ha, Hb, Hc.
    apply (flt_false_fle _ _ Hb Ha) in H1. apply (flt_false_fle _ _ Ha Hb) in H2.
    apply (flt_false_fle _ _ Hc Hb) in H3. apply (flt_false_fle _ _ Hb Hc) in H4.
    split; apply fle_flt_false; eapply fle_trans; eassumption.
Qed.
End OrderFacts.

(** ** The reference sorts meet the contract *)

Section SortFacts.
Context {A : Type}.
Variable comp : A -> A -> bool.
Variable L : list A.
Hypothesis Hswo : strict_weak_on comp L.

Lemma swo_asym a b : In a L -> In b L -> comp a b = true -> comp b a = false.
Proof.
  intros Ha Hb H. destruct (comp b a) eqn:H'; [ | reflexivity ].
  pose proof (swo_trans _ _ Hswo a b a Ha Hb Ha H H') as H2.
  rewrite (swo_irrefl _ _ Hswo a Ha) in H2. discriminate.
Qed.

(** Negative transitivity: what is not before [b] and has [b] not before
    [c] is not before [c]. *)
Lemma swo_negtrans a b c : In a L -> In b L -> In c L ->
  comp a b = false -> comp b c = false -> comp a c = false.
Proof.
  intros Ha Hb Hc H1 H2. destruct (comp a c) eqn:H; [ exfalso | reflexivity ].
  destruct (comp b a) eqn:Hba.
  { rewrite (swo_trans _ _ Hswo b a c Hb Ha Hc Hba H) in H2. discriminate. }
  destruct (comp c b) eqn:Hcb.
  { rewrite (swo_trans _ _ Hswo a c b Ha Hc Hb H Hcb) in H1. discriminate. }
  destruct (swo_incomp _ _ Hswo a b c Ha Hb Hc) as [H3 _]; [ split; assumption .. | ].
  congruence.
Qed.

Lemma insert_stable_perm a l : Permutation (Sorts.insert_stable comp a l) (a :: l).
Proof.
  induction l as [|b l IH]; cbn; [ reflexivity | ].
  destruct (comp b a); [ | reflexivity ].
  rewrite IH. apply perm_swap.
Qed.

Lemma stable_perm l : Permutation (Sorts.stable comp l) l.
Proof.
  induction l as [|a l IH]; cbn; [ reflexivity | ].
  rewrite insert_stable_perm. constructor. exact IH.
Qed.

Lemma insert_stable_sorted a l :
  In a L -> incl l L -> sorted_by comp l ->
  sorted_by comp (Sorts.insert_stable comp a l).
Proof.
  intros Ha. induction l as [|b l IH]; intros Hl Hs; cbn.
  - repeat constructor.
  - assert (Hb : In b L) by (apply Hl; left; reflexivity).
    assert (Hl' : incl l L) by (intros z Hz; apply Hl; right; exact Hz).
    inversion Hs as [|? ? Hs' Hfa]; subst.
    destruct (comp b a) eqn:Hba.
    + constructor; [ apply IH; assumption | ].
      rewrite (insert_stable_perm a l). constructor; [ | exact Hfa ].
      apply swo_asym; assumption.
    + constructor; [ exact Hs | ].
      constructor; [ exact Hba | ].
      rewrite List.Forall_forall in Hfa |- *. intros z Hz.
      apply (swo_negtrans z b a); auto.
Qed.

Lemma stable_sorted l : incl l L -> sorted_by comp (Sorts.stable comp l).
Proof.
  induction l as [|a l IH]; intros Hl; cbn; [ constructor | ].
  apply insert_stable_sorted.
  - apply Hl. left. reflexivity.
  - intros z Hz. apply Hl. right.
    apply (Permutation_in _ (stable_perm l)). exact Hz.
  - apply IH. intros z Hz. apply Hl. right. exact Hz.
Qed.

End SortFacts.

Lemma stable_meets_contract {A : Type} : std_sort_contract (A:=A) Sorts.stable.
Proof.
  intros comp l H. split; [ apply stable_perm | ].
  apply (stable_sorted comp l H). apply incl_refl.
Qed.


(** ** Dictionary store *)

Section DictionaryFacts.
Import DictionaryLoader.

Lemma parseEntries_loaded_false n : forall i data size pos d r d',
  loaded d = false ->
  parseEntries n i data size pos d = (r, d') ->
  r = false -> loaded d' = false.
Proof.
  induction n as [|n IH]; intros i data size pos d r d' Hl H Hr; simpl in H.
  - inversion H; subst; discriminate.
  - repeat match type of H with
           | (if ?c then _ else _) = _ => destruct c
           end;
      try (inversion H; subst; simpl; assumption).
    eapply IH; [ | exact H | exact Hr ]. simpl. exact Hl.
Qed.

(** A failed load leaves the store unloaded. *)
Lemma loadFromMemory_failed_unloaded d data d' :
  loadFromMemory d data = (false, d') -> loaded d' = false.
Proof.
  unfold loadFromMemory, parseFromBuffer. simpl.
  destruct (_ <? DICT_HEADER_SIZE);
    [ intros H; inversion H; subst; reflexivity | ].
  destruct (negb _); [ intros H; inversion H; subst; reflexivity | ].
  destruct (negb _); [ intros H; inversion H; subst; reflexivity | ].
  intros H.
  eapply parseEntries_loaded_false; [ | exact H | reflexivity ].
  reflexivity.
Qed.

(** On an unloaded store every query gives an empty answer. *)
Lemma unloaded_queries_empty d :
  loaded d = false ->
  getAllEntries d = []
  /\ (forall c, getEntriesStartingWith d c = [])
  /\ (forall s e, getEntriesWithStartEnd d s e = [])
  /\ (forall w, lookup d w = None).
Proof.
  intros H. unfold getAllEntries, getEntriesStartingWith,
    getEntriesWithStartEnd, lookup. rewrite H. simpl. auto.
Qed.

(** When the load fails before the entry loop (buffer shorter than the
    header, wrong magic, wrong version) the store is empty. *)
Lemma loadFromMemory_header_failure d data :
  Z.of_nat (length data) < DICT_HEADER_SIZE
  \/ readU32LE data 0 <> DICT_MAGIC
  \/ readU16LE data 4 <> DICT_VERSION ->
  let r := loadFromMemory d data in
  fst r = false /\ getEntryCount (snd r) = 0
  /\ getMaxFrequency (snd r) = 0 /\ loaded (snd r) = false.
Proof.
  intros H. unfold loadFromMemory, parseFromBuffer. simpl.
  destruct (Z.ltb_spec (Z.of_nat (length data)) DICT_HEADER_SIZE) as [Hs|Hs];
    [ simpl; auto | ].
  destruct (Z.eqb_spec (readU32LE data 0) DICT_MAGIC) as [Hm|Hm];
    [ | simpl; auto ].
  destruct (Z.eqb_spec (readU16LE data 4) DICT_VERSION) as [Hv|Hv];
    [ | simpl; auto ].
  exfalso. destruct H as [H|[H|H]]; [ lia | auto | auto ].
Qed.
End DictionaryFacts.

(** C1 (the code departs from the claim).  A dictionary that announces two
    entries and is cut inside the second one is rejected as corrupt and the
    store is left unloaded, so that every query is empty; but the entry
    read before the cut stays in the store: [getEntryCount] answers 1 and
    [getMaxFrequency] answers 100, where [DictionaryLoader.h] promises 0
    "if no dictionary is loaded". *)
Theorem truncated_load_keeps_entries :
  let r := DictionaryLoader.loadFromMemory DictionaryLoader.new
             Run32.truncatedDict in
  fst r = false
  /\ code (DictionaryLoader.getLastError (snd r)) = DICT_CORRUPT
  /\ DictionaryLoader.isLoaded (snd r) = false
  /\ DictionaryLoader.getAllEntries (snd r) = []
  /\ DictionaryLoader.getEntryCount (snd r) = 1
  /\ DictionaryLoader.getMaxFrequency (snd r) = 100.
Proof. vm_compute. repeat split. Qed.

(** ** Configuration *)

Section ConfigurationFacts.
Context {F : Type} {FO : FloatOps F}.
Variable std_sort :
  (GestureCandidate.t F -> GestureCandidate.t F -> bool) ->
  list (GestureCandidate.t F) -> list (GestureCandidate.t F).

(** [configure] writes the engine's and the scorer's copy of the
    configuration and nothing else: [setResampleCount] and
    [setMinPointDistance] are not called. *)
Lemma configure_frame (e : GestureEngine.Impl F) (c : ScoringConfig F) :
  GestureEngine.config (GestureEngine.configure e c) = c
  /\ Scorer.config (GestureEngine.scorer (GestureEngine.configure e c)) = c
  /\ GestureEngine.pathProcessor (GestureEngine.configure e c)
     = GestureEngine.pathProcessor e
  /\ GestureEngine.idealPathGen (GestureEngine.configure e c)
     = GestureEngine.idealPathGen e
  /\ GestureEngine.dictLoader (GestureEngine.configure e c)
     = GestureEngine.dictLoader e
  /\ GestureEngine.layout (GestureEngine.configure e c)
     = GestureEngine.layout e.
Proof. repeat split. Qed.

Lemma computeDTWDistance_band (s s' : Scorer.Impl F) a b :
  Scorer.bandWidth s = Scorer.bandWidth s' ->
  Scorer.computeDTWDistance s a b = Scorer.computeDTWDistance s' a b.
Proof. intros H. unfold Scorer.computeDTWDistance. rewrite H. reflexivity. Qed.

Lemma scoreEntries_band (s s' : Scorer.Impl F) p :
  Scorer.bandWidth s = Scorer.bandWidth s' ->
  forall l g, GestureEngine.scoreEntries s p l g
              = GestureEngine.scoreEntries s' p l g.
Proof.
  intros H. induction l as [|en l IH]; intros g; simpl; [ reflexivity | ].
  destruct (IdealPathGenerator.getIdealPath g _) as [ideal g'].
  rewrite (computeDTWDistance_band s s' p ideal H), !IH. reflexivity.
Qed.

(** The candidates [recognize] returns depend on the configuration through
    [dtwBandwidthRatio], [frequencyWeight], [lengthFilterTolerance] and
    [maxDTWFloor] only. *)
Lemma recognize_reads_four_parameters (e : GestureEngine.Impl F)
    (c c' : ScoringConfig F) raw n :
  dtwBandwidthRatio c = dtwBandwidthRatio c' ->
  frequencyWeight c = frequencyWeight c' ->
  lengthFilterTolerance c = lengthFilterTolerance c' ->
  maxDTWFloor c = maxDTWFloor c' ->
  fst (GestureEngine.recognize std_sort (GestureEngine.configure e c) raw n)
  = fst (GestureEngine.recognize std_sort (GestureEngine.configure e c') raw n).
Proof.
  intros Hb Hw Ht Hf.
  unfold GestureEngine.recognize. simpl.
  destruct (negb (GestureEngine.initialized e)); [ reflexivity | ].
  destruct (RawGesturePath.isEmpty raw); [ reflexivity | ].
  destruct (negb (GesturePath.isValid _)); [ reflexivity | ].
  destruct (GestureEngine.startEndChars _ _) as [[sc ec] hse].
  unfold GestureEngine.estimateWordLengthByKeyTransitions. simpl.
  rewrite Ht.
  rewrite (scoreEntries_band (Scorer.configure (GestureEngine.scorer e) c)
             (Scorer.configure (GestureEngine.scorer e) c')).
  2:{ unfold Scorer.bandWidth. simpl. rewrite Hb. reflexivity. }
  destruct (GestureEngine.scoreEntries _ _ _ _) as [scored g].
  destruct scored as [|s0 scored]; [ reflexivity | ]. simpl.
  unfold GestureEngine.rank, GestureEngine.maxDTW, GestureEngine.effectiveAlpha.
  rewrite Hw, Hf. reflexivity.
Qed.
End ConfigurationFacts.

(** C2 (the code departs from the claim).  After [configure] with
    [resampleCount = 32], [minPointDistance = 10] and
    [maxCandidatesEvaluated = 1] the path processor still holds 64 and 2.0,
    the path it normalises still has 64 points, and [recognize] returns
    what it returns under the default configuration, whatever the engine,
    the path and the sorting routine. *)
Theorem configure_ignores_path_parameters :
  let e := GestureEngine.configure (F:=F32.f32) GestureEngine.new
             Run32.otherConfig in
  resampleCount (GestureEngine.config e) = 32
  /\ PathProcessor.resampleCount (GestureEngine.pathProcessor e) = 64
  /\ PathProcessor.minPointDistance (GestureEngine.pathProcessor e)
     = MIN_POINT_DISTANCE_DP
  /\ length (GesturePath.points
       (PathProcessor.normalize (GestureEngine.pathProcessor e)
          Run32.helloPath Run32.layout)) = 64%nat
  /\ forall std_sort e0 raw n,
       fst (GestureEngine.recognize std_sort
              (GestureEngine.configure e0 Run32.otherConfig) raw n)
       = fst (GestureEngine.recognize std_sort
                (GestureEngine.configure e0 defaultConfig) raw n).
Proof.
  split; [ reflexivity | ].
  split; [ reflexivity | ].
  split; [ reflexivity | ].
  split; [ vm_compute; reflexivity | ].
  intros. apply recognize_reads_four_parameters; reflexivity.
Qed.

(** ** Band width *)

(** C3 (the code departs from the claim).  With the default ratio 0.10 the
    scorer's band width is [ceil(0.10f * 64)].  The product is a little
    above 6.4, so the width is 7, not the 6 of [DTW_BANDWIDTH]; this is so
    for a fresh scorer and for one configured with the default
    configuration, in binary32 and in exact arithmetic alike. *)
Theorem default_band_width_is_seven :
  Scorer.bandWidth (F:=F32.f32) Scorer.new = 7
  /\ (forall s : Scorer.Impl F32.f32,
        Scorer.bandWidth (Scorer.configure s defaultConfig) = 7)
  /\ Scorer.bandWidth (F:=Q) Scorer.new = 7
  /\ DTW_BANDWIDTH = 6.
Proof.
  split; [ vm_compute; reflexivity | ].
  split; [ intros s; vm_compute; reflexivity | ].
  split; [ vm_compute; reflexivity | reflexivity ].
Qed.

(** ** Word-length estimate *)

Section EstimatorFacts.
Context {F : Type} {FO : FloatOps F}.

Lemma filter_nonneg_cons k (ks : list Z) :
  List.filter (fun k => 0 <=? k) (k :: ks)
  = if 0 <=? k then k :: List.filter (fun k => 0 <=? k) ks
    else List.filter (fun k => 0 <=? k) ks.
Proof. reflexivity. Qed.

(** The loop counts, from a previous key [prev], the runs of the remaining
    nearest keys, the first run not counted when it continues [prev]. *)
Lemma countTransitions_collapse (l : KeyboardLayout.t F) :
  forall points prev n,
    GestureEngine.countTransitions l points prev n
    = n + Z.of_nat (length (collapse (prev :: nearestKeys l points))) - 1.
Proof.
  induction points as [|pt points IH]; intros prev n.
  - simpl. lia.
  - cbn [GestureEngine.countTransitions]. unfold nearestKeys in *.
    cbn [List.map]. rewrite filter_nonneg_cons.
    set (key := KeyboardLayout.findNearestKey l _ _).
    destruct (Z.leb_spec 0 key) as [Hk|Hk]; cbn [andb].
    + destruct (Z.eqb_spec key prev) as [He|He]; cbn [negb].
      * rewrite IH. subst prev.
        change (collapse (key :: key :: ?r)) with
          (if key =? key then collapse (key :: r) else key :: collapse (key :: r)).
        rewrite Z.eqb_refl. reflexivity.
      * rewrite IH.
        change (collapse (prev :: key :: ?r)) with
          (if prev =? key then collapse (key :: r) else prev :: collapse (key :: r)).
        destruct (Z.eqb_spec prev key) as [He'|_]; [ congruence | ].
        cbn [length]. lia.
    + rewrite IH. reflexivity.
Qed.

Lemma collapse_minus_one (ks : list Z) :
  Forall (fun k => 0 <= k) ks ->
  length (collapse (-1 :: ks)) = S (length (collapse ks)).
Proof.
  intros H. destruct ks as [|k ks]; [ reflexivity | ].
  change (collapse (-1 :: k :: ks)) with
    (if -1 =? k then collapse (k :: ks) else -1 :: collapse (k :: ks)).
  inversion H; subst.
  destruct (Z.eqb_spec (-1) k); [ lia | reflexivity ].
Qed.

Lemma nearestKeys_nonneg (l : KeyboardLayout.t F) points :
  Forall (fun k => 0 <= k) (nearestKeys l points).
Proof.
  unfold nearestKeys. apply List.Forall_forall. intros k Hk.
  apply List.filter_In in Hk. destruct Hk as [_ Hk]. lia.
Qed.
End EstimatorFacts.

(** C8 (the code departs from the claim and from its own documentation).
    On the test QWERTY layout the clean path of "hello" (straight
    segments, 8 points each, no noise) visits the 4 keys h, e, l, o, and
    the estimator returns 12: it also counts g, t, r on the way from h to
    e and r, t, y, j, k on the way from e to l.  The comment of
    [estimateWordLengthByKeyTransitions] promises "the number of distinct
    keys visited" and names the over-estimate of "hello" as what the
    function was written to remove. *)
Lemma hello_estimate_is_twelve :
  length (IdealPathGenerator.keyPoints Run32.layout "hello") = 4%nat
  /\ GestureEngine.estimateWordLengthByKeyTransitions
       Run32.engine Run32.helloPath = of_int 12
  /\ GestureEngine.estimateWordLengthByKeyTransitions
       Run32.engine Run32.helloPath
     <> of_int (Z.of_nat (length
          (IdealPathGenerator.keyPoints Run32.layout "hello"))).
Proof.
  split; [ vm_compute; reflexivity | ].
  split; [ vm_compute; reflexivity | ].
  vm_compute. discriminate.
Qed.

(** What the estimator computes: 1 for a path of fewer than two points
    and otherwise the larger of 1 and the number of runs of equal
    consecutive nearest keys along the raw points.  Every key a point of
    the path is nearest to is counted, also the keys crossed between two
    letters of the word. *)
Theorem estimate_counts_nearest_key_runs {F : Type} {FO : FloatOps F}
    (e : GestureEngine.Impl F) (raw : RawGesturePath.t F) :
  GestureEngine.estimateWordLengthByKeyTransitions e raw
  = if (length (RawGesturePath.points raw) <? 2)%nat then f1
    else fmax f1 (of_int (Z.of_nat (length (collapse
           (nearestKeys (GestureEngine.layout e)
                        (RawGesturePath.points raw)))))).
Proof.
  unfold GestureEngine.estimateWordLengthByKeyTransitions.
  destruct (length (RawGesturePath.points raw) <? 2)%nat; [ reflexivity | ].
  rewrite countTransitions_collapse.
  rewrite collapse_minus_one by apply nearestKeys_nonneg.
  do 2 f_equal. lia.
Qed.

(** ** Ideal path cache *)

Section CacheFacts.
Context {F : Type} {FO : FloatOps F}.
Import IdealPathGenerator.

Lemma tolower_idempotent (c : ascii) : tolower (tolower c) = tolower c.
Proof.
  destruct c as [[] [] [] [] [] [] [] []]; vm_compute; reflexivity.
Qed.

Lemma lowercase_idempotent (w : string) : lowercase (lowercase w) = lowercase w.
Proof.
  unfold lowercase. rewrite list_ascii_of_string_of_list_ascii.
  rewrite List.map_map. f_equal. apply List.map_ext. apply tolower_idempotent.
Qed.

Lemma keyPoints_from_lower (l : KeyboardLayout.t F) :
  forall chars prev idx,
    keyPoints_from l (List.map tolower chars) prev idx
    = keyPoints_from l chars prev idx.
Proof.
  induction chars as [|c chars IH]; intros prev idx; [ reflexivity | ].
  cbn [List.map keyPoints_from]. rewrite tolower_idempotent, !IH. reflexivity.
Qed.

(** The key centres of a word do not depend on the case of its letters. *)
Lemma keyPoints_lowercase (l : KeyboardLayout.t F) (w : string) :
  keyPoints l (lowercase w) = keyPoints l w.
Proof.
  unfold keyPoints, lowercase. rewrite list_ascii_of_string_of_list_ascii.
  apply keyPoints_from_lower.
Qed.

(** [generate] gives the empty path to a word with fewer than two key
    centres. *)
Lemma generate_short (g : Impl F) (w : string) :
  (length (keyPoints (layout g) w) < 2)%nat ->
  generate g w = GesturePath.default.
Proof.
  intros H. unfold generate. destruct (negb (layoutSet g)); [ reflexivity | ].
  destruct (Nat.ltb_spec (length (keyPoints (layout g) w)) 2);
    [ reflexivity | lia ].
Qed.

Lemma cache_ok_new : cache_ok (new (F:=F)).
Proof. intros k p H. cbn in H. rewrite lookup_empty in H. discriminate. Qed.

Lemma cache_ok_setLayout (g : Impl F) l : cache_ok (setLayout g l).
Proof. intros k p H. cbn in H. rewrite lookup_empty in H. discriminate. Qed.

Lemma cache_ok_clearCache (g : Impl F) : cache_ok (clearCache g).
Proof. intros k p H. cbn in H. rewrite lookup_empty in H. discriminate. Qed.

Lemma cache_ok_getIdealPath (g : Impl F) w :
  cache_ok g -> cache_ok (snd (getIdealPath g w)).
Proof.
  intros Hok. unfold getIdealPath.
  destruct (negb (layoutSet g)); [ exact Hok | ].
  destruct (cache g !! lowercase w) eqn:Hc; [ exact Hok | ].
  intros k p H. cbn [snd cache] in H.
  change (p = generate g k).
  destruct (decide (lowercase w = k)) as [<-|Hne].
  - rewrite lookup_insert_eq in H. inversion H; subst. reflexivity.
  - rewrite lookup_insert_ne in H by exact Hne. apply Hok in H. exact H.
Qed.

(** With no layout set nothing is generated and nothing is cached. *)
Lemma getIdealPath_without_layout (g : Impl F) w :
  layoutSet g = false -> getIdealPath g w = (GesturePath.default, g).
Proof. intros H. unfold getIdealPath. rewrite H. reflexivity. Qed.
End CacheFacts.

(** C10, the claim as stated fails: it speaks of every word and of no
    layout.  On a generator whose layout was never set, the word "a" maps
    to fewer than two points and [getIdealPath] returns the invalid path,
    but nothing is inserted into the cache: [cacheSize] stays 0 and the
    word has no entry. *)
Lemma getIdealPath_without_layout_caches_nothing :
  let g := IdealPathGenerator.new (F:=F32.f32) in
  let r := IdealPathGenerator.getIdealPath g "a" in
  (length (IdealPathGenerator.keyPoints (IdealPathGenerator.layout g) "a")
   < 2)%nat
  /\ GesturePath.isValid (fst r) = false
  /\ IdealPathGenerator.cacheSize (snd r) = 0%nat
  /\ IdealPathGenerator.cache (snd r) !! lowercase "a" = None.
Proof.
  cbv zeta. split; [ vm_compute; lia | ].
  split; [ reflexivity | ].
  split; reflexivity.
Qed.

(** C10, amended.  Once a layout is set, a word whose characters give
    fewer than two key centres (unmapped characters dropped, consecutive
    equal keys collapsed) gets the empty path, which is not valid; the
    path is in the cache after the call under the lower-cased word,
    [cacheSize] counts it (one more entry when the word was not cached
    before), and a second call returns the same path from the cache and
    leaves the generator as it is. *)
Theorem getIdealPath_caches_invalid_path {F : Type} {FO : FloatOps F}
    (g : IdealPathGenerator.Impl F) (w : string) :
  IdealPathGenerator.layoutSet g = true ->
  cache_ok g ->
  (length (IdealPathGenerator.keyPoints (IdealPathGenerator.layout g) w) < 2)%nat ->
  let r := IdealPathGenerator.getIdealPath g w in
  fst r = GesturePath.default
  /\ GesturePath.isValid (fst r) = false
  /\ IdealPathGenerator.cache (snd r) !! lowercase w = Some (fst r)
  /\ (1 <= IdealPathGenerator.cacheSize (snd r))%nat
  /\ (IdealPathGenerator.cache g !! lowercase w = None ->
      IdealPathGenerator.cacheSize (snd r)
      = S (IdealPathGenerator.cacheSize g))
  /\ IdealPathGenerator.getIdealPath (snd r) w = r.
Proof.
  intros Hset Hok Hshort. cbv zeta.
  assert (Hgen : IdealPathGenerator.generate g (lowercase w)
                 = GesturePath.default).
  { apply generate_short. rewrite keyPoints_lowercase. exact Hshort. }
  destruct (IdealPathGenerator.cache g !! lowercase w) as [p|] eqn:Hc.
  - assert (p = GesturePath.default) as -> by (rewrite <- Hgen; apply Hok, Hc).
    assert (E : IdealPathGenerator.getIdealPath g w = (GesturePath.default, g)).
    { unfold IdealPathGenerator.getIdealPath. rewrite Hset, Hc. reflexivity. }
    rewrite E. cbn [fst snd].
    split; [ reflexivity | ]. split; [ reflexivity | ].
    split; [ exact Hc | ].
    split.
    { unfold IdealPathGenerator.cacheSize.
      destruct (size (IdealPathGenerator.cache g)) eqn:Hs; [ | lia ].
      apply map_size_empty_inv in Hs. rewrite Hs, lookup_empty in Hc.
      discriminate. }
    split; [ intros H; discriminate | exact E ].
  - assert (E : IdealPathGenerator.getIdealPath g w
                = (GesturePath.default,
                   IdealPathGenerator.mkImpl (IdealPathGenerator.layout g)
                     (IdealPathGenerator.layoutSet g)
                     (<[lowercase w := GesturePath.default]>
                        (IdealPathGenerator.cache g)))).
    { unfold IdealPathGenerator.getIdealPath. rewrite Hset, Hc, Hgen.
      reflexivity. }
    rewrite E. cbn [fst snd IdealPathGenerator.cache].
    split; [ reflexivity | ]. split; [ reflexivity | ].
    split; [ apply lookup_insert_eq | ].
    unfold IdealPathGenerator.cacheSize. cbn [IdealPathGenerator.cache].
    rewrite map_size_insert_None by exact Hc.
    split; [ lia | ]. split; [ reflexivity | ].
    unfold IdealPathGenerator.getIdealPath.
    cbn [IdealPathGenerator.layoutSet IdealPathGenerator.cache].
    rewrite Hset. cbn [negb]. rewrite lookup_insert_eq. reflexivity.
Qed.

(** Witness for C10 (amended): the one-letter word "a" on the test
    layout, with an empty cache. *)
Lemma getIdealPath_caches_invalid_path_witness :
  let g := IdealPathGenerator.setLayout (F:=F32.f32)
             IdealPathGenerator.new Run32.layout in
  let r := IdealPathGenerator.getIdealPath g "a" in
  fst r = GesturePath.default
  /\ GesturePath.isValid (fst r) = false
  /\ IdealPathGenerator.cache (snd r) !! lowercase "a" = Some (fst r)
  /\ (1 <= IdealPathGenerator.cacheSize (snd r))%nat
  /\ (IdealPathGenerator.cache g !! lowercase "a" = None ->
      IdealPathGenerator.cacheSize (snd r)
      = S (IdealPathGenerator.cacheSize g))
  /\ IdealPathGenerator.getIdealPath (snd r) "a" = r.
Proof.
  apply (getIdealPath_caches_invalid_path
           (IdealPathGenerator.setLayout IdealPathGenerator.new Run32.layout)
           "a").
  - reflexivity.
  - apply cache_ok_setLayout.
  - vm_compute. lia.
Defined.

(** ** Ranking *)

Section RecognizeShape.
Context {F : Type} {FO : FloatOps F}.
Variable std_sort :
  (GestureCandidate.t F -> GestureCandidate.t F -> bool) ->
  list (GestureCandidate.t F) -> list (GestureCandidate.t F).

(** [recognize] returns nothing when nothing is scored, and otherwise
    ranks the scored entries. *)
Lemma recognize_rank (e : GestureEngine.Impl F) raw n :
  fst (GestureEngine.recognize std_sort e raw n)
  = match scoredFor e raw with
    | [] => []
    | scored =>
        GestureEngine.rank std_sort (GestureEngine.config e)
          (DictionaryLoader.getMaxFrequency (GestureEngine.dictLoader e))
          scored (clampCandidates n)
    end.
Proof.
  unfold GestureEngine.recognize, scoredFor, clampCandidates.
  destruct (negb (GestureEngine.initialized e)); [ reflexivity | ].
  destruct (RawGesturePath.isEmpty raw); [ reflexivity | ].
  destruct (negb (GesturePath.isValid _)); [ reflexivity | ].
  destruct (GestureEngine.startEndChars _ _) as [[sc ec] hse].
  destruct (GestureEngine.scoreEntries _ _ _ _) as [scored g].
  destruct scored; reflexivity.
Qed.

Lemma rank_unsorted (e : GestureEngine.Impl F) raw n :
  GestureEngine.rank std_sort (GestureEngine.config e)
    (DictionaryLoader.getMaxFrequency (GestureEngine.dictLoader e))
    (scoredFor e raw) n
  = let sorted := std_sort GestureEngine.byConfidence (unsortedCandidates e raw) in
    if n <? Z.of_nat (length sorted) then firstn (Z.to_nat n) sorted else sorted.
Proof. reflexivity. Qed.

Lemma scoreEntries_subset (sc : Scorer.Impl F) p :
  forall l g s, In s (fst (GestureEngine.scoreEntries sc p l g)) ->
                In (GestureEngine.entry s) l.
Proof.
  induction l as [|en l IH]; intros g s Hs; cbn in Hs; [ contradiction | ].
  destruct (IdealPathGenerator.getIdealPath g _) as [ideal g'].
  destruct (negb (GesturePath.isValid ideal)).
  - right. eapply IH. exact Hs.
  - destruct (GestureEngine.scoreEntries sc p l g') as [scored g''] eqn:E.
    cbn in Hs. destruct Hs as [<-|Hs]; [ left; reflexivity | right ].
    apply (IH g'). rewrite E. exact Hs.
Qed.

Lemma lengthFilter_subset (tol est : F) l en :
  In en (GestureEngine.lengthFilter tol est l) -> In en l.
Proof.
  unfold GestureEngine.lengthFilter.
  destruct (List.filter _ l) eqn:E; [ auto | ].
  rewrite <- E. intros H. apply List.filter_In in H. tauto.
Qed.

Lemma getAllEntries_subset d : incl (DictionaryLoader.getAllEntries d) (DictionaryLoader.entries d).
Proof.
  unfold DictionaryLoader.getAllEntries.
  destruct (DictionaryLoader.loaded d); [ apply incl_refl | intros x [] ].
Qed.

Lemma getEntriesStartingWith_subset d c :
  incl (DictionaryLoader.getEntriesStartingWith d c) (DictionaryLoader.entries d).
Proof.
  unfold DictionaryLoader.getEntriesStartingWith.
  destruct (negb (DictionaryLoader.loaded d)); [ intros x [] | ].
  intros x H. apply List.filter_In in H. tauto.
Qed.

Lemma getEntriesWithStartEnd_subset d s e :
  incl (DictionaryLoader.getEntriesWithStartEnd d s e) (DictionaryLoader.entries d).
Proof.
  unfold DictionaryLoader.getEntriesWithStartEnd.
  destruct (negb (DictionaryLoader.loaded d)); [ intros x [] | ].
  intros x H. apply List.filter_In in H. tauto.
Qed.

Lemma candidateEntries_subset d sc ec hse en :
  In en (GestureEngine.candidateEntries d sc ec hse) ->
  In en (DictionaryLoader.entries d).
Proof.
  unfold GestureEngine.candidateEntries.
  set (de1 := if hse then _ else _).
  assert (H1 : incl de1 (DictionaryLoader.entries d)).
  { subst de1. destruct hse; [ apply getEntriesWithStartEnd_subset | intros x [] ]. }
  set (de2 := match de1 with [] => _ | _ => _ end).
  assert (H2 : incl de2 (DictionaryLoader.entries d)).
  { subst de2. destruct de1; [ | exact H1 ].
    destruct (negb _); [ apply getEntriesStartingWith_subset | intros x [] ]. }
  destruct de2; [ apply getAllEntries_subset | apply H2 ].
Qed.

(** Every scored entry is an entry of the dictionary. *)
Lemma scoredFor_entries (e : GestureEngine.Impl F) raw s :
  In s (scoredFor e raw) ->
  In (GestureEngine.entry s)
     (DictionaryLoader.entries (GestureEngine.dictLoader e)).
Proof.
  unfold scoredFor.
  destruct (negb (GestureEngine.initialized e)); [ contradiction | ].
  destruct (RawGesturePath.isEmpty raw); [ contradiction | ].
  destruct (negb (GesturePath.isValid _)); [ contradiction | ].
  destruct (GestureEngine.startEndChars _ _) as [[sc ec] hse].
  intros H. apply scoreEntries_subset in H. apply lengthFilter_subset in H.
  apply candidateEntries_subset in H. exact H.
Qed.
End RecognizeShape.

(** ** The dictionary invariant *)

Section DictionaryInvariant.
Import DictionaryLoader.

Lemma byte_at_range data i : 0 <= byte_at data i < 256.
Proof.
  unfold byte_at. generalize (nth (Z.to_nat i) data x00). intros b.
  destruct b; vm_compute; split; congruence.
Qed.

Lemma lor_range a b n :
  0 <= n -> 0 <= a < 2 ^ n -> 0 <= b < 2 ^ n -> 0 <= Z.lor a b < 2 ^ n.
Proof.
  intros Hn Ha Hb. split; [ apply Z.lor_nonneg; lia | ].
  destruct (Z.eq_dec a 0) as [->|Ha0]; [ rewrite Z.lor_0_l; lia | ].
  destruct (Z.eq_dec b 0) as [->|Hb0]; [ rewrite Z.lor_0_r; lia | ].
  assert (0 < Z.lor a b).
  { assert (0 <= Z.lor a b) by (apply Z.lor_nonneg; lia).
    assert (Z.lor a b <> 0) by (rewrite Z.lor_eq_0_iff; lia). lia. }
  apply Z.log2_lt_pow2; [ lia | ].
  rewrite Z.log2_lor by lia.
  apply Z.max_lub_lt; apply Z.log2_lt_pow2; lia.
Qed.

Lemma readU32LE_range buf offset : 0 <= readU32LE buf offset < 2 ^ 32.
Proof.
  unfold readU32LE.
  pose proof (byte_at_range buf offset).
  pose proof (byte_at_range buf (offset + 1)).
  pose proof (byte_at_range buf (offset + 2)).
  pose proof (byte_at_range buf (offset + 3)).
  rewrite !Z.shiftl_mul_pow2 by lia.
  repeat apply lor_range; lia.
Qed.

Lemma parseEntries_ok n : forall i data size pos d,
  dict_ok d -> dict_ok (snd (parseEntries n i data size pos d)).
Proof.
  induction n as [|n IH]; intros i data size pos d Hd; cbn [parseEntries].
  - exact Hd.
  - destruct (size <? pos + 1); [ exact Hd | ].
    destruct (MAX_WORD_LENGTH <? _); [ exact Hd | ].
    destruct (size <? _); [ exact Hd | ].
    apply IH. destruct Hd as [Hm He]. unfold dict_ok. cbn.
    set (freq := readU32LE data _).
    pose proof (readU32LE_range data
                  (pos + 1 + byte_at data pos)) as Hf. fold freq in Hf.
    destruct (Z.ltb_spec (maxFrequency d) freq) as [Hlt|Hge].
    + split; [ lia | ]. apply List.Forall_app. split.
      * eapply List.Forall_impl; [ | exact He ]. cbn. intros a Ha. lia.
      * repeat constructor; cbn; lia.
    + split; [ lia | ]. apply List.Forall_app. split; [ exact He | ].
      repeat constructor; cbn; lia.
Qed.

Lemma dict_ok_empty h err b : dict_ok (mkImpl [] h 0 err b).
Proof. split; cbn; [ lia | constructor ]. Qed.

Lemma parseFromBuffer_ok d data : dict_ok (snd (parseFromBuffer d data)).
Proof.
  unfold parseFromBuffer.
  destruct (_ <? DICT_HEADER_SIZE); [ apply dict_ok_empty | ].
  destruct (negb _); [ apply dict_ok_empty | ].
  destruct (negb _); [ apply dict_ok_empty | ].
  apply parseEntries_ok. apply dict_ok_empty.
Qed.

Lemma loadFromMemory_ok d data : dict_ok (snd (loadFromMemory d data)).
Proof. apply parseFromBuffer_ok. Qed.

Lemma load_ok fs d path : dict_ok (snd (load fs d path)).
Proof.
  unfold load. destruct (fs path);
    [ apply dict_ok_empty | apply dict_ok_empty | apply parseFromBuffer_ok ].
Qed.

Lemma unload_ok d : dict_ok (unload d).
Proof. apply dict_ok_empty. Qed.
End DictionaryInvariant.

(** The engine's dictionary satisfies the invariant in every state the
    engine's operations lead to from a fresh engine. *)
Section EngineInvariant.
Context {F : Type} {FO : FloatOps F}.
Import GestureEngine.

Lemma new_dict_ok : dict_ok (dictLoader (new (F:=F))).
Proof. apply dict_ok_empty. Qed.

Lemma initWithData_dict_ok (e : Impl F) l data :
  dict_ok (dictLoader e) -> dict_ok (dictLoader (snd (initWithData e l data))).
Proof.
  intros H. unfold initWithData.
  destruct (negb (KeyboardLayout.isValid l)); [ exact H | ].
  pose proof (loadFromMemory_ok (dictLoader e) data) as Hl.
  destruct (DictionaryLoader.loadFromMemory (dictLoader e) data) as [ok d].
  destruct ok; exact Hl.
Qed.

Lemma init_dict_ok fs (e : Impl F) l path :
  dict_ok (dictLoader e) -> dict_ok (dictLoader (snd (init fs e l path))).
Proof.
  intros H. unfold init.
  destruct (negb (KeyboardLayout.isValid l)); [ exact H | ].
  pose proof (load_ok fs (dictLoader e) path) as Hl.
  destruct (DictionaryLoader.load fs (dictLoader e) path) as [ok d].
  destruct ok; exact Hl.
Qed.

Lemma recognize_dict_ok sort (e : Impl F) raw n :
  dict_ok (dictLoader e) -> dict_ok (dictLoader (snd (recognize sort e raw n))).
Proof.
  intros H. unfold recognize.
  destruct (negb (initialized e)); [ exact H | ].
  destruct (RawGesturePath.isEmpty raw); [ exact H | ].
  destruct (negb (GesturePath.isValid _)); [ exact H | ].
  destruct (startEndChars _ _) as [[sc ec] hse].
  destruct (scoreEntries _ _ _ _) as [scored g].
  destruct scored; exact H.
Qed.

Lemma other_operations_dict_ok (e : Impl F) :
  dict_ok (dictLoader e) ->
  dict_ok (dictLoader (shutdown e))
  /\ (forall l, dict_ok (dictLoader (snd (updateLayout e l))))
  /\ (forall c, dict_ok (dictLoader (configure e c)))
  /\ (forall b, dict_ok (dictLoader (setErrorCallback e b))).
Proof.
  intros H. split; [ apply unload_ok | ].
  split; [ | split; intros; exact H ].
  intros l. unfold updateLayout.
  destruct (negb (initialized e)); [ exact H | ].
  destruct (negb (KeyboardLayout.isValid l)); exact H.
Qed.
End EngineInvariant.

(** ** Scores and order of the candidates *)

Section RankFacts.
Context {F : Type} {FO : FloatOps F} {FL : FloatOrder F} {FU : FloatUnit F}.

Lemma f0_ordered : ordered (f0 (F:=F)).
Proof. exact (proj1 (fle_ordered _ _ f0_le_f1)). Qed.

Lemma f1_ordered : ordered (f1 (F:=F)).
Proof. exact (proj2 (fle_ordered _ _ f0_le_f1)). Qed.

Lemma inUnit_f0 : inUnit (f0 (F:=F)).
Proof. split; [ apply f0_ordered | apply f0_le_f1 ]. Qed.

Lemma inUnit_ordered (x : F) : inUnit x -> ordered x.
Proof. intros [H _]. exact (proj2 (fle_ordered _ _ H)). Qed.

(** [max(0, min(1, x))] is in [0,1] whatever [x] is, NaN included. *)
Lemma clamp_unit (x : F) : inUnit (fmax f0 (fmin f1 x)).
Proof.
  unfold fmax, fmin, inUnit.
  destruct (x <? f1)%f eqn:H1.
  - destruct (f0 <? x)%f eqn:H0.
    + split; apply flt_fle; assumption.
    + split; [ apply f0_ordered | apply f0_le_f1 ].
  - destruct (f0 <? f1)%f.
    + split; [ apply f0_le_f1 | apply f1_ordered ].
    + split; [ apply f0_ordered | apply f0_le_f1 ].
Qed.

Lemma confidence_ordered (maxDtw alpha : F) maxFreq s :
  ordered (GestureCandidate.confidence
             (GestureEngine.scoreCandidate maxDtw alpha maxFreq s)).
Proof.
  cbn [GestureEngine.scoreCandidate GestureCandidate.confidence].
  apply fsub_one_ordered; apply clamp_unit.
Qed.

Lemma unsorted_ordered (e : GestureEngine.Impl F) raw :
  Forall (fun c => ordered (GestureCandidate.confidence c))
         (unsortedCandidates e raw).
Proof.
  unfold unsortedCandidates. apply List.Forall_map.
  apply List.Forall_forall. intros s _.
  apply confidence_ordered.
Qed.

Lemma sorted_nonIncreasing (l : list (GestureCandidate.t F)) :
  Forall (fun c => ordered (GestureCandidate.confidence c)) l ->
  sorted_by GestureEngine.byConfidence l -> nonIncreasing l.
Proof.
  intros Hl Hs. induction Hs as [|a l Hs IH Ha]; [ constructor | ].
  inversion Hl as [|? ? Hoa Hol]; subst.
  constructor; [ apply IH; exact Hol | ].
  rewrite List.Forall_forall in Ha, Hol |- *. intros b Hb.
  apply flt_false_fle; [ exact Hoa | apply Hol, Hb | ].
  apply (Ha b Hb).
Qed.

Lemma In_firstn {A : Type} (x : A) k (l : list A) :
  In x (firstn k l) -> In x l.
Proof.
  intros H. rewrite <- (List.firstn_skipn k l). apply List.in_or_app. left.
  exact H.
Qed.

Lemma nonIncreasing_firstn (l : list (GestureCandidate.t F)) k :
  nonIncreasing l -> nonIncreasing (firstn k l).
Proof.
  intros H. revert k. induction H as [|a l Hs IH Ha]; intros k.
  - rewrite List.firstn_nil. constructor.
  - destruct k as [|k]; cbn; [ constructor | ].
    constructor; [ apply IH | ].
    rewrite List.Forall_forall in Ha |- *. intros b Hb. apply Ha.
    eapply In_firstn. exact Hb.
Qed.

Variable std_sort :
  (GestureCandidate.t F -> GestureCandidate.t F -> bool) ->
  list (GestureCandidate.t F) -> list (GestureCandidate.t F).
Hypothesis Hsort : std_sort_contract std_sort.

(** What [std::sort] makes of the candidates of one call. *)
Lemma sorted_candidates (e : GestureEngine.Impl F) raw :
  let sorted := std_sort GestureEngine.byConfidence (unsortedCandidates e raw) in
  Permutation sorted (unsortedCandidates e raw) /\ nonIncreasing sorted.
Proof.
  pose proof (unsorted_ordered e raw) as Ho.
  destruct (Hsort GestureEngine.byConfidence (unsortedCandidates e raw)
              (byConfidence_strict_weak _ Ho)) as [Hp Hs].
  split; [ exact Hp | ].
  apply sorted_nonIncreasing; [ | exact Hs ].
  rewrite List.Forall_forall in Ho |- *. intros c Hc. apply Ho.
  apply (Permutation_in _ Hp). exact Hc.
Qed.

(** The answer of [recognize] is the front of the sorted candidates. *)
Lemma recognize_front (e : GestureEngine.Impl F) raw n :
  fst (GestureEngine.recognize std_sort e raw n)
  = firstn (Z.to_nat (clampCandidates n))
      (std_sort GestureEngine.byConfidence (unsortedCandidates e raw)).
Proof.
  rewrite recognize_rank.
  destruct (sorted_candidates e raw) as [Hp _].
  destruct (scoredFor e raw) as [|s0 scored] eqn:E.
  - unfold unsortedCandidates in *. rewrite E in *. cbn [List.map] in *.
    apply Permutation_sym, Permutation_nil in Hp. rewrite Hp. rewrite List.firstn_nil. reflexivity.
  - rewrite <- E. rewrite rank_unsorted. cbv zeta.
    destruct (Z.ltb_spec (clampCandidates n)
                (Z.of_nat (length (std_sort GestureEngine.byConfidence
                                     (unsortedCandidates e raw))))) as [H|H];
      [ reflexivity | ].
    rewrite List.firstn_all2; [ reflexivity | lia ].
Qed.
End RankFacts.

Section UnitScores.
Context {F : Type} {FO : FloatOps F} {FL : FloatOrder F} {FU : FloatUnit F}
        {FR : FloatRounding F}.

(** [1 - max(0, min(1, s))] for a weighted sum [s]: the clamp gives 0, 1
    or [s] itself, the last only when [s] is strictly between 0 and 1. *)
Lemma one_minus_clamp (a b c d : F) :
  inUnit (f1 - fmax f0 (fmin f1 (a * b + c * d)))%f.
Proof.
  unfold fmax, fmin.
  destruct (a * b + c * d <? f1)%f eqn:H1.
  - destruct (f0 <? a * b + c * d)%f eqn:H0.
    + apply fsub_one_score; assumption.
    + apply fsub_one_zero.
  - destruct (f0 <? f1)%f; [ apply fsub_one_one | apply fsub_one_zero ].
Qed.

Lemma confidence_unit (maxDtw alpha : F) maxFreq s :
  inUnit (GestureCandidate.confidence
            (GestureEngine.scoreCandidate maxDtw alpha maxFreq s)).
Proof.
  cbn [GestureEngine.scoreCandidate GestureCandidate.confidence].
  apply one_minus_clamp.
Qed.

Lemma frequencyScore_unit (maxDtw alpha : F) maxFreq s :
  0 <= DictionaryEntry.frequency (GestureEngine.entry s) <= maxFreq ->
  maxFreq < 2 ^ 32 ->
  inUnit (GestureCandidate.frequencyScore
            (GestureEngine.scoreCandidate maxDtw alpha maxFreq s)).
Proof.
  intros Hf Hm.
  cbn [GestureEngine.scoreCandidate GestureCandidate.frequencyScore].
  destruct (Z.ltb_spec 0 maxFreq) as [Hpos|_]; [ | apply inUnit_f0 ].
  apply fdiv_ratio_range; lia.
Qed.
End UnitScores.

(** The largest finite distance: the loop of step 5 starts from 0 and
    keeps the greatest distance below [FLT_MAX] it has met. *)
Section RawMax.
Context {F : Type} {FO : FloatOps F} {FL : FloatOrder F}.
Import GestureEngine.

Lemma rawMax_from (scored : list (ScoredEntry F)) : forall r0 : F,
  ordered r0 ->
  let r := fold_left
             (fun r s =>
                if (dtwDistance s <? FLT_MAX)%f
                then if (dtwDistance s >? r)%f then dtwDistance s else r
                else r) scored r0 in
  ordered r
  /\ (r0 <=? r)%f = true
  /\ (forall s, In s scored -> (dtwDistance s <? FLT_MAX)%f = true ->
                (dtwDistance s <=? r)%f = true)
  /\ (r = r0 \/ exists s, In s scored /\ (dtwDistance s <? FLT_MAX)%f = true
                          /\ r = dtwDistance s).
Proof.
  induction scored as [|s scored IH]; intros r0 H0; cbn [fold_left].
  - split; [ exact H0 | ]. split; [ exact H0 | ].
    split; [ intros s [] | left; reflexivity ].
  - set (r1 := if (dtwDistance s <? FLT_MAX)%f then _ else r0).
    assert (H1 : ordered r1 /\ (r0 <=? r1)%f = true
                 /\ ((dtwDistance s <? FLT_MAX)%f = true ->
                     (dtwDistance s <=? r1)%f = true)
                 /\ (r1 = r0 \/ ((dtwDistance s <? FLT_MAX)%f = true
                                 /\ r1 = dtwDistance s))).
    { subst r1. destruct (dtwDistance s <? FLT_MAX)%f eqn:Hfin.
      - destruct (flt_ordered _ _ Hfin) as [Hs _].
        destruct (r0 <? dtwDistance s)%f eqn:Hgt.
        + split; [ exact Hs | ]. split; [ apply flt_fle, Hgt | ].
          split; [ intros _; exact Hs | right; split; reflexivity ].
        + split; [ exact H0 | ]. split; [ exact H0 | ].
          split; [ intros _; apply flt_false_fle; assumption | left; reflexivity ].
      - split; [ exact H0 | ]. split; [ exact H0 | ].
        split; [ discriminate | left; reflexivity ]. }
    destruct H1 as (Ho1 & Hle1 & Hs1 & Hv1).
    destruct (IH r1 Ho1) as (Ho & Hle & Hall & Hv).
    split; [ exact Ho | ].
    split; [ eapply fle_trans; eassumption | ].
    split.
    + intros s' [<-|Hin] Hfin.
      * eapply fle_trans; [ apply Hs1, Hfin | exact Hle ].
      * apply Hall; assumption.
    + destruct Hv as [Hv|(s' & Hin & Hfin & Hv)].
      * rewrite Hv. destruct Hv1 as [Hv1|[Hfin Hv1]].
        -- left. exact Hv1.
        -- right. exists s. split; [ left; reflexivity | ]. split; assumption.
      * right. exists s'. split; [ right; exact Hin | ]. split; assumption.
Qed.
End RawMax.

(** C5.  For every engine, raw path and integer [max_candidates] the list
    [recognize] returns has at most [clamp(max_candidates, 1, 20)] elements
    and its confidences do not increase from front to back.  [std::sort]
    is any function that meets its contract. *)
Theorem recognize_bounded_and_sorted {F : Type} {FO : FloatOps F}
    {FL : FloatOrder F} {FU : FloatUnit F}
    (std_sort : (GestureCandidate.t F -> GestureCandidate.t F -> bool) ->
                list (GestureCandidate.t F) -> list (GestureCandidate.t F))
    (e : GestureEngine.Impl F) (raw : RawGesturePath.t F) (n : Z) :
  std_sort_contract std_sort ->
  Z.of_nat (length (fst (GestureEngine.recognize std_sort e raw n)))
    <= clampCandidates n
  /\ nonIncreasing (fst (GestureEngine.recognize std_sort e raw n)).
Proof.
  intros Hsort. rewrite (recognize_front std_sort Hsort). split.
  - rewrite List.length_firstn. unfold clampCandidates. lia.
  - apply nonIncreasing_firstn.
    exact (proj2 (sorted_candidates std_sort Hsort e raw)).
Qed.

(** Witness for C5: binary32, the engine and the "hello" path of the
    tests, the stable insertion sort. *)
Lemma recognize_bounded_and_sorted_witness :
  Z.of_nat (length (fst (GestureEngine.recognize Sorts.stable
                           Run32.engine Run32.helloPath 5)))
    <= clampCandidates 5
  /\ nonIncreasing (fst (GestureEngine.recognize Sorts.stable
                           Run32.engine Run32.helloPath 5)).
Proof.
  apply (recognize_bounded_and_sorted (F:=F32.f32) Sorts.stable
           Run32.engine Run32.helloPath 5).
  apply stable_meets_contract.
Defined.

(** The scores in any arithmetic that has the laws. *)
Lemma scores_in_unit {F : Type} {FO : FloatOps F}
    {FL : FloatOrder F} {FU : FloatUnit F} {FR : FloatRounding F}
    (std_sort : (GestureCandidate.t F -> GestureCandidate.t F -> bool) ->
                list (GestureCandidate.t F) -> list (GestureCandidate.t F))
    (e : GestureEngine.Impl F) (raw : RawGesturePath.t F) (n : Z) :
  std_sort_contract std_sort ->
  dict_ok (GestureEngine.dictLoader e) ->
  Forall (fun c => inUnit (GestureCandidate.confidence c)
                   /\ inUnit (GestureCandidate.frequencyScore c))
         (fst (GestureEngine.recognize std_sort e raw n)).
Proof.
  intros Hsort [Hmax Hent]. apply List.Forall_forall. intros c Hc.
  rewrite (recognize_front std_sort Hsort) in Hc. apply In_firstn in Hc.
  apply (Permutation_in _ (proj1 (sorted_candidates std_sort Hsort e raw))) in Hc.
  unfold unsortedCandidates in Hc. apply List.in_map_iff in Hc.
  destruct Hc as (s & <- & Hs).
  split; [ apply confidence_unit | ].
  apply frequencyScore_unit; [ | unfold DictionaryLoader.getMaxFrequency; lia ].
  apply scoredFor_entries in Hs. rewrite List.Forall_forall in Hent.
  apply (Hent _ Hs).
Qed.

(** C6.  In binary32, the arithmetic of the program, every candidate
    [recognize] returns has its confidence and its frequency score
    between 0 and 1, whatever the gesture (NaN coordinates included);
    the bound on the frequency score comes from the dictionary invariant
    [dict_ok], which loading establishes: [maxFrequency] is at least
    every entry's frequency. *)
Theorem recognize_scores_in_unit
    (std_sort : (GestureCandidate.t F32.f32 -> GestureCandidate.t F32.f32
                 -> bool) ->
                list (GestureCandidate.t F32.f32) ->
                list (GestureCandidate.t F32.f32))
    (e : GestureEngine.Impl F32.f32) (raw : RawGesturePath.t F32.f32)
    (n : Z) :
  std_sort_contract std_sort ->
  dict_ok (GestureEngine.dictLoader e) ->
  Forall (fun c => inUnit (GestureCandidate.confidence c)
                   /\ inUnit (GestureCandidate.frequencyScore c))
         (fst (GestureEngine.recognize std_sort e raw n)).
Proof.
  apply (scores_in_unit (FL:=F32Order.order) (FU:=F32Unit.unit)
           (FR:=F32Round.rounding)).
Qed.

(** Witness for C6: binary32, the engine and the "hello" path of the
    tests, the stable insertion sort. *)
Lemma recognize_scores_in_unit_witness :
  Forall (fun c => inUnit (GestureCandidate.confidence c)
                   /\ inUnit (GestureCandidate.frequencyScore c))
         (fst (GestureEngine.recognize Sorts.stable
                 Run32.engine Run32.helloPath 5)).
Proof.
  apply (recognize_scores_in_unit Sorts.stable
           Run32.engine Run32.helloPath 5).
  - apply stable_meets_contract.
  - apply initWithData_dict_ok. apply new_dict_ok.
Defined.

(** C7.  [recognize] normalises the DTW distances of one call by the
    constant [max_dtw]: with [scored] the entries the call scores, it is
    [max(raw_max_dtw, 0.01)] when two or more entries are scored and
    [max(raw_max_dtw, maxDTWFloor)] when exactly one is, the floor being
    3.0 under the default configuration; the list returned is the front
    of a permutation of the scored entries, each turned into a candidate
    with this constant (step 6).  [raw_max_dtw] is the largest DTW
    distance below [FLT_MAX] among the scored entries, and 0 when none is
    above 0. *)
Theorem recognize_max_dtw {F : Type} {FO : FloatOps F}
    {FL : FloatOrder F} {FU : FloatUnit F}
    (std_sort : (GestureCandidate.t F -> GestureCandidate.t F -> bool) ->
                list (GestureCandidate.t F) -> list (GestureCandidate.t F))
    (e : GestureEngine.Impl F) (raw : RawGesturePath.t F) (n : Z) :
  std_sort_contract std_sort ->
  let scored := scoredFor e raw in
  let raw_max := GestureEngine.rawMaxDTW scored in
  let max_dtw :=
    if (2 <=? length scored)%nat then fmax raw_max (lit 1 100)
    else fmax raw_max (maxDTWFloor (GestureEngine.config e)) in
  (exists sorted,
     Permutation sorted
       (List.map
          (GestureEngine.scoreCandidate max_dtw
             (GestureEngine.effectiveAlpha (GestureEngine.config e) scored)
             (DictionaryLoader.getMaxFrequency (GestureEngine.dictLoader e)))
          scored)
     /\ fst (GestureEngine.recognize std_sort e raw n)
        = firstn (Z.to_nat (clampCandidates n)) sorted)
  /\ (length scored = 1%nat -> GestureEngine.config e = defaultConfig ->
      max_dtw = fmax raw_max (lit 3 1))
  /\ (forall s, In s scored ->
        (GestureEngine.dtwDistance s <? FLT_MAX)%f = true ->
        (GestureEngine.dtwDistance s <=? raw_max)%f = true)
  /\ (raw_max = f0
      \/ exists s, In s scored
           /\ (GestureEngine.dtwDistance s <? FLT_MAX)%f = true
           /\ raw_max = GestureEngine.dtwDistance s).
Proof.
  intros Hsort. cbv zeta.
  assert (Hmax :
    (if (2 <=? length (scoredFor e raw))%nat
     then fmax (GestureEngine.rawMaxDTW (scoredFor e raw)) (lit 1 100)
     else fmax (GestureEngine.rawMaxDTW (scoredFor e raw))
                (maxDTWFloor (GestureEngine.config e)))
    = GestureEngine.maxDTW (GestureEngine.config e) (scoredFor e raw)).
  { unfold GestureEngine.maxDTW.
    destruct (Nat.leb_spec 2 (length (scoredFor e raw))),
             (Nat.leb_spec (length (scoredFor e raw)) 1);
      try reflexivity; lia. }
  rewrite Hmax. split.
  { exists (std_sort GestureEngine.byConfidence (unsortedCandidates e raw)).
    split.
    - exact (proj1 (sorted_candidates std_sort Hsort e raw)).
    - apply recognize_front. exact Hsort. }
  split.
  { intros H Hc. rewrite <- Hmax, H, Hc. reflexivity. }
  destruct (rawMax_from (scoredFor e raw) f0 f0_ordered) as (_ & _ & Hall & Hv).
  split; [ exact Hall | exact Hv ].
Qed.

(** Witness for C7: binary32 and the engine of the tests, on the "hello"
    path, for which two entries are scored (the constant is
    [max(raw_max_dtw, 0.01)]), and on the "world" path, for which one is
    (the constant is [max(raw_max_dtw, 3.0)]). *)
Lemma recognize_max_dtw_witness :
  (length (scoredFor Run32.engine Run32.helloPath) = 2%nat
   /\ exists sorted,
        Permutation sorted
          (List.map
             (GestureEngine.scoreCandidate
                (if (2 <=? length (scoredFor Run32.engine Run32.helloPath))%nat
                 then fmax (GestureEngine.rawMaxDTW
                              (scoredFor Run32.engine Run32.helloPath))
                           (lit 1 100)
                 else fmax (GestureEngine.rawMaxDTW
                              (scoredFor Run32.engine Run32.helloPath))
                           (maxDTWFloor (GestureEngine.config Run32.engine)))
                (GestureEngine.effectiveAlpha
                   (GestureEngine.config Run32.engine)
                   (scoredFor Run32.engine Run32.helloPath))
                (DictionaryLoader.getMaxFrequency
                   (GestureEngine.dictLoader Run32.engine)))
             (scoredFor Run32.engine Run32.helloPath))
        /\ fst (GestureEngine.recognize Sorts.stable
                  Run32.engine Run32.helloPath 5)
           = firstn (Z.to_nat (clampCandidates 5)) sorted)
  /\ (length (scoredFor Run32.engine Run32.worldPath) = 1%nat
      /\ exists sorted,
           Permutation sorted
             (List.map
                (GestureEngine.scoreCandidate
                   (if (2 <=? length
                                (scoredFor Run32.engine Run32.worldPath))%nat
                    then fmax (GestureEngine.rawMaxDTW
                                 (scoredFor Run32.engine Run32.worldPath))
                              (lit 1 100)
                    else fmax (GestureEngine.rawMaxDTW
                                 (scoredFor Run32.engine Run32.worldPath))
                              (maxDTWFloor
                                 (GestureEngine.config Run32.engine)))
                   (GestureEngine.effectiveAlpha
                      (GestureEngine.config Run32.engine)
                      (scoredFor Run32.engine Run32.worldPath))
                   (DictionaryLoader.getMaxFrequency
                      (GestureEngine.dictLoader Run32.engine)))
                (scoredFor Run32.engine Run32.worldPath))
           /\ fst (GestureEngine.recognize Sorts.stable
                     Run32.engine Run32.worldPath 5)
              = firstn (Z.to_nat (clampCandidates 5)) sorted).
Proof.
  split; (split; [ vm_compute; reflexivity | ]).
  - exact (proj1 (recognize_max_dtw (F:=F32.f32) Sorts.stable
                    Run32.engine Run32.helloPath 5 stable_meets_contract)).
  - exact (proj1 (recognize_max_dtw (F:=F32.f32) Sorts.stable
                    Run32.engine Run32.worldPath 5 stable_meets_contract)).
Defined.

(** C4, the claim as stated fails.  With the [std::sort] of GNU
    libstdc++, on a dictionary holding seventeen spellings of "hello"
    with one frequency and the clean path of "hello", all seventeen
    candidates have the same confidence; they are scored in the order of
    the dictionary, "hello" first, and come back with "helLo" first and
    "hello" in the tenth place: the order of the ties is not kept.  (On
    more than 16 elements the library partitions around a median, which
    swaps elements that compare equal.) *)
Lemma equal_confidence_order_not_kept :
  let before := unsortedCandidates Run32.spellingsEngine Run32.helloPath in
  let after := fst (GestureEngine.recognize GnuSort.sort
                      Run32.spellingsEngine Run32.helloPath 20) in
  List.map GestureCandidate.word before = Run32.helloSpellings
  /\ Forall (fun c => GestureCandidate.confidence c
                      = S754_finite false 16777026 (-24)) before
  /\ List.map GestureCandidate.word after
     = ["helLo"; "hellO"; "HELLo"; "hELLo"; "HeLLo"; "heLLo"; "HElLo";
        "hElLo"; "HelLo"; "hello"; "HELlo"; "hELlo"; "HeLlo"; "heLlo";
        "HEllo"; "hEllo"; "Hello"]%string
  /\ ~ tiesKeepOrder before after.
Proof.
  cbv zeta.
  assert (Hb : List.map GestureCandidate.word
                 (unsortedCandidates Run32.spellingsEngine Run32.helloPath)
               = Run32.helloSpellings) by (vm_compute; reflexivity).
  split; [ exact Hb | ].
  split; [ vm_compute; repeat constructor | ].
  split; [ vm_compute; reflexivity | ].
  intros H.
  set (before := unsortedCandidates Run32.spellingsEngine Run32.helloPath)
    in *.
  set (after := fst (GestureEngine.recognize GnuSort.sort
                       Run32.spellingsEngine Run32.helloPath 20)) in *.
  set (dflt := GestureCandidate.mk (F:=F32.f32) "" f0 0 f0 f0).
  specialize (H (nth 0 after dflt) (nth 0 before dflt)).
  destruct H as (l1 & l2 & l3 & E).
  - vm_compute. reflexivity.
  - exists [], (firstn 8 (tl after)), (skipn 10 after).
    vm_compute. reflexivity.
  - apply (f_equal (List.map GestureCandidate.word)) in E.
    rewrite Hb, !List.map_app in E. cbn [List.map] in E.
    rewrite List.map_app in E. cbn [List.map] in E.
    replace (GestureCandidate.word (nth 0 after dflt)) with "helLo"%string
      in E by (vm_compute; reflexivity).
    replace (GestureCandidate.word (nth 0 before dflt)) with "hello"%string
      in E by (vm_compute; reflexivity).
    unfold Run32.helloSpellings in E.
    destruct (List.map GestureCandidate.word l1) as [|w ws];
      [ cbn in E; discriminate E | ].
    cbn [app] in E. injection E as _ E.
    assert (Hin : In "hello"%string
                    (ws ++ "helLo"%string
                        :: List.map GestureCandidate.word l2
                        ++ "hello"%string
                        :: List.map GestureCandidate.word l3)).
    { apply List.in_or_app. right. right. apply List.in_or_app. right.
      left. reflexivity. }
    rewrite <- E in Hin. cbn in Hin.
    repeat (destruct Hin as [Hin|Hin]; [ discriminate Hin | ]).
    exact Hin.
Qed.

(** C4, amended.  The final sort orders the candidates by confidence,
    highest first: the list [recognize] returns is the first
    [clamp(max_candidates, 1, 20)] elements of a permutation of the scored
    candidates in which confidences do not increase.  Which of two
    candidates of equal confidence comes first is left to [std::sort]. *)
Theorem recognize_sorted_permutation {F : Type} {FO : FloatOps F}
    {FL : FloatOrder F} {FU : FloatUnit F}
    (std_sort : (GestureCandidate.t F -> GestureCandidate.t F -> bool) ->
                list (GestureCandidate.t F) -> list (GestureCandidate.t F))
    (e : GestureEngine.Impl F) (raw : RawGesturePath.t F) (n : Z) :
  std_sort_contract std_sort ->
  exists sorted,
    Permutation sorted (unsortedCandidates e raw)
    /\ nonIncreasing sorted
    /\ fst (GestureEngine.recognize std_sort e raw n)
       = firstn (Z.to_nat (clampCandidates n)) sorted.
Proof.
  intros Hsort.
  exists (std_sort GestureEngine.byConfidence (unsortedCandidates e raw)).
  destruct (sorted_candidates std_sort Hsort e raw) as [Hp Hs].
  split; [ exact Hp | ]. split; [ exact Hs | ].
  apply recognize_front. exact Hsort.
Qed.

(** Witness for C4 (amended): binary32, two spellings of "go" with one
    frequency, the insertion sort. *)
Lemma recognize_sorted_permutation_witness :
  exists sorted,
    Permutation sorted (unsortedCandidates Run32.tieEngine Run32.goPath)
    /\ nonIncreasing sorted
    /\ fst (GestureEngine.recognize Sorts.stable
              Run32.tieEngine Run32.goPath 5)
       = firstn (Z.to_nat (clampCandidates 5)) sorted.
Proof.
  apply (recognize_sorted_permutation (F:=F32.f32) Sorts.stable
           Run32.tieEngine Run32.goPath 5).
  apply stable_meets_contract.
Defined.

(** ** Dynamic time warping *)

Section RowFacts.
Context {F : Type} {FO : FloatOps F}.
Import Scorer.

Lemma cell_insert (v : list F) (j k : nat) (x : F) :
  (j < length v)%nat ->
  cell (<[j := x]> v) k = if Nat.eqb k j then x else cell v k.
Proof.
  intros Hj. unfold cell. rewrite !nth_lookup.
  destruct (Nat.eqb_spec k j) as [->|Hne].
  - rewrite list_lookup_insert_eq by exact Hj. reflexivity.
  - rewrite list_lookup_insert_ne by congruence. reflexivity.
Qed.

Lemma cell_repeat (n k : nat) : cell (repeat FLT_MAX n) k = FLT_MAX.
Proof.
  unfold cell. revert k. induction n as [|n IH]; intros [|k]; cbn; auto.
Qed.

Lemma firstRow_length n : forall j g0 ideal v,
  length (firstRow n j g0 ideal v) = length v.
Proof.
  induction n as [|n IH]; intros j g0 ideal v; cbn [firstRow]; [ reflexivity | ].
  rewrite IH. destruct (cell v (j - 1) <? FLT_MAX)%f; [ | reflexivity ].
  apply length_insert.
Qed.

Lemma fillRow_length n : forall j gi ideal prev curr,
  length (fillRow n j gi ideal prev curr) = length curr.
Proof.
  induction n as [|n IH]; intros j gi ideal prev curr; cbn [fillRow];
    [ reflexivity | ].
  rewrite IH. apply length_insert.
Qed.

(** [firstRow] leaves the cells outside [j .. j+n-1] alone. *)
Lemma firstRow_frame n : forall j g0 ideal v k,
  (k < j \/ j + n <= k)%nat ->
  (j + n <= length v)%nat ->
  cell (firstRow n j g0 ideal v) k = cell v k.
Proof.
  induction n as [|n IH]; intros j g0 ideal v k Hk Hlen; cbn [firstRow];
    [ reflexivity | ].
  rewrite IH.
  - destruct (cell v (j - 1) <? FLT_MAX)%f; [ | reflexivity ].
    rewrite cell_insert by lia.
    destruct (Nat.eqb_spec k j); [ lia | reflexivity ].
  - lia.
  - destruct (cell v (j - 1) <? FLT_MAX)%f; [ rewrite length_insert | ]; lia.
Qed.

(** Each cell [firstRow] visits is the cell to its left plus the cost, when
    that cell is below [FLT_MAX]. *)
Lemma firstRow_cell n : forall j g0 ideal v k,
  (1 <= j)%nat -> (j <= k < j + n)%nat -> (j + n <= length v)%nat ->
  let r := firstRow n j g0 ideal v in
  cell r k = if (cell r (k - 1) <? FLT_MAX)%f
             then (cell r (k - 1) + pointDistance g0 (point ideal k))%f
             else cell v k.
Proof.
  induction n as [|n IH]; intros j g0 ideal v k Hj Hk Hlen; [ lia | ].
  cbn [firstRow]. cbv zeta.
  set (v' := if (cell v (j - 1) <? FLT_MAX)%f then _ else v).
  assert (Hlen' : length v' = length v).
  { subst v'. destruct (cell v (j - 1) <? FLT_MAX)%f;
      [ apply length_insert | reflexivity ]. }
  destruct (Nat.eq_dec k j) as [->|Hne].
  - rewrite (firstRow_frame n (S j) g0 ideal v' j) by lia.
    rewrite (firstRow_frame n (S j) g0 ideal v' (j - 1)) by lia.
    assert (Hl : cell v' (j - 1) = cell v (j - 1)).
    { subst v'. destruct (cell v (j - 1) <? FLT_MAX)%f; [ | reflexivity ].
      rewrite cell_insert by lia.
      destruct (Nat.eqb_spec (j - 1) j); [ lia | reflexivity ]. }
    rewrite Hl. subst v'.
    destruct (cell v (j - 1) <? FLT_MAX)%f; [ | reflexivity ].
    rewrite cell_insert by lia. rewrite Nat.eqb_refl. reflexivity.
  - rewrite (IH (S j) g0 ideal v' k) by lia.
    assert (Hc : cell v' k = cell v k).
    { subst v'. destruct (cell v (j - 1) <? FLT_MAX)%f; [ | reflexivity ].
      rewrite cell_insert by lia.
      destruct (Nat.eqb_spec k j); [ lia | reflexivity ]. }
    rewrite Hc. reflexivity.
Qed.

Lemma fillRow_frame n : forall j gi ideal prev curr k,
  (k < j \/ j + n <= k)%nat ->
  (j + n <= length curr)%nat ->
  cell (fillRow n j gi ideal prev curr) k = cell curr k.
Proof.
  induction n as [|n IH]; intros j gi ideal prev curr k Hk Hlen;
    cbn [fillRow]; [ reflexivity | ].
  rewrite IH.
  - rewrite cell_insert by lia.
    destruct (Nat.eqb_spec k j); [ lia | reflexivity ].
  - lia.
  - rewrite length_insert. lia.
Qed.

(** Each cell [fillRow] visits follows the recurrence of the band. *)
Lemma fillRow_cell n : forall j gi ideal prev curr k,
  (j <= k < j + n)%nat -> (j + n <= length curr)%nat ->
  let r := fillRow n j gi ideal prev curr in
  cell r k = cellValue (pointDistance gi (point ideal k)) k
               (cell prev k)
               (if (0 <? k)%nat then cell r (k - 1) else FLT_MAX)
               (cell prev (k - 1)).
Proof.
  induction n as [|n IH]; intros j gi ideal prev curr k Hk Hlen; [ lia | ].
  cbn [fillRow]. cbv zeta.
  match goal with
  | |- context [fillRow n (S j) gi ideal prev ?c] => set (curr' := c)
  end.
  assert (Hlen' : length curr' = length curr) by (subst curr'; apply length_insert).
  destruct (Nat.eq_dec k j) as [->|Hne].
  - rewrite (fillRow_frame n (S j) gi ideal prev curr' j) by lia.
    subst curr'. rewrite cell_insert by lia. rewrite Nat.eqb_refl.
    destruct j as [|j'].
    + reflexivity.
    + cbn [Nat.ltb Nat.leb].
      rewrite (fillRow_frame n (S (S j')) gi ideal prev _ (S j' - 1))
        by (rewrite ?length_insert; lia).
      rewrite cell_insert by lia.
      destruct (Nat.eqb_spec (S j' - 1) (S j')); [ lia | ].
      reflexivity.
  - apply (IH (S j) gi ideal prev curr' k); lia.
Qed.
End RowFacts.

(** The rows of the band-limited matrix, as the two rolling rows hold them
    one after the other. *)
Section Matrix.
Context {F : Type} {FO : FloatOps F}.
Import Scorer.
Variables (N W : Z) (g p : list (NormalizedPoint.t F)).

Lemma rows_dtwRow n : forall i,
  rows n (S i) N W g p (dtwRow N W g p i) = dtwRow N W g p (i + n).
Proof.
  induction n as [|n IH]; intros i; cbn [rows].
  - rewrite Nat.add_0_r. reflexivity.
  - change (fillRow _ _ _ _ _ _) with (nextRow N W g p (S i) (dtwRow N W g p i)).
    change (nextRow N W g p (S i) (dtwRow N W g p i)) with (dtwRow N W g p (S i)).
    rewrite IH. f_equal. lia.
Qed.

Hypothesis HN : 1 <= N.
Hypothesis HW : 0 <= W.

Lemma D_0_0 : dtwCell N W g p 0 0 = pointDistance (point g 0) (point p 0).
Proof.
  unfold dtwCell. cbn [dtwRow].
  rewrite firstRow_frame by (rewrite ?length_insert, ?repeat_length; lia).
  rewrite cell_insert by (rewrite repeat_length; lia). reflexivity.
Qed.

Lemma D_0_in (j : nat) :
  1 <= Z.of_nat j <= Z.min W (N - 1) ->
  dtwCell N W g p 0 j = if (dtwCell N W g p 0 (j - 1) <? FLT_MAX)%f
          then (dtwCell N W g p 0 (j - 1) + pointDistance (point g 0) (point p j))%f
          else FLT_MAX.
Proof.
  intros Hj. unfold dtwCell. cbn [dtwRow].
  rewrite firstRow_cell by (rewrite ?length_insert, ?repeat_length; lia).
  rewrite cell_insert by (rewrite repeat_length; lia).
  destruct (Nat.eqb_spec j 0); [ lia | ].
  rewrite cell_repeat. reflexivity.
Qed.

Lemma D_0_out (j : nat) : Z.min W (N - 1) < Z.of_nat j -> dtwCell N W g p 0 j = FLT_MAX.
Proof.
  intros Hj. unfold dtwCell. cbn [dtwRow].
  destruct (Z.ltb_spec (Z.of_nat j) N) as [Hlt|Hge].
  - rewrite firstRow_frame by (rewrite ?length_insert, ?repeat_length; lia).
    rewrite cell_insert by (rewrite repeat_length; lia).
    destruct (Nat.eqb_spec j 0); [ lia | ]. apply cell_repeat.
  - unfold cell. apply nth_overflow.
    rewrite firstRow_length, length_insert, repeat_length. lia.
Qed.

Lemma D_S_in (i j : nat) :
  Z.max 0 (Z.of_nat (S i) - W) <= Z.of_nat j
    <= Z.min (N - 1) (Z.of_nat (S i) + W) ->
  dtwCell N W g p (S i) j = cellValue (pointDistance (point g (S i)) (point p j)) j
                (dtwCell N W g p i j) (if (0 <? j)%nat then dtwCell N W g p (S i) (j - 1) else FLT_MAX)
                (dtwCell N W g p i (j - 1)).
Proof.
  intros Hj. unfold dtwCell. cbn [dtwRow]. unfold nextRow.
  apply fillRow_cell; rewrite ?repeat_length; lia.
Qed.

Lemma D_S_out (i j : nat) :
  Z.of_nat j < Z.max 0 (Z.of_nat (S i) - W)
  \/ Z.min (N - 1) (Z.of_nat (S i) + W) < Z.of_nat j ->
  dtwCell N W g p (S i) j = FLT_MAX.
Proof.
  intros Hj. unfold dtwCell. cbn [dtwRow]. unfold nextRow.
  destruct (Z.ltb_spec (Z.of_nat j) N) as [Hlt|Hge].
  - destruct (Z.ltb_spec (Z.min (N - 1) (Z.of_nat (S i) + W) + 1)
                         (Z.max 0 (Z.of_nat (S i) - W))) as [Hempty|Hne].
    + replace (Z.to_nat _) with 0%nat by lia. apply cell_repeat.
    + rewrite fillRow_frame by (rewrite ?repeat_length; lia).
      apply cell_repeat.
  - unfold cell. apply nth_overflow.
    rewrite fillRow_length, repeat_length. lia.
Qed.
End Matrix.

(** Symmetry of the matrix, from the facts about the arithmetic listed as
    hypotheses; they are proved for binary32 below. *)
Section Symmetry.
Context {F : Type} {FO : FloatOps F}.
Import Scorer.

Variable good : F -> Prop.
Hypothesis good_max : good FLT_MAX.
Hypothesis good_dist : forall a b, good (pointDistance a b).
Hypothesis good_add : forall x y : F, good x -> good y -> good (x + y)%f.
Hypothesis dist_sym : forall a b, pointDistance a b = pointDistance b a.
Hypothesis add_comm : forall x y : F, (x + y)%f = (y + x)%f.
Hypothesis max_irrefl : (FLT_MAX <? FLT_MAX)%f = false.
Hypothesis min_comm : forall x y : F, good x -> good y ->
  (x <? FLT_MAX)%f = true -> (y <? FLT_MAX)%f = true -> fmin x y = fmin y x.

Lemma good_fmin (x y : F) : good x -> good y -> good (fmin x y).
Proof. intros Hx Hy. unfold fmin. destruct (y <? x)%f; assumption. Qed.

Lemma good_bestOf j (up left diag : F) :
  good up -> good left -> good diag -> good (bestOf j up left diag).
Proof.
  intros Hu Hl Hd. unfold bestOf.
  repeat match goal with
         | |- good (if ?c then _ else _) => destruct c
         | |- good (fmin _ _) => apply good_fmin
         end; assumption.
Qed.

Lemma good_cellValue cost j (up left diag : F) :
  good cost -> good up -> good left -> good diag ->
  good (cellValue cost j up left diag).
Proof.
  intros Hc Hu Hl Hd. unfold cellValue.
  destruct (bestOf j up left diag <? FLT_MAX)%f; [ | exact good_max ].
  apply good_add; [ exact Hc | apply good_bestOf; assumption ].
Qed.

Lemma good_cell (v : list F) k : Forall good v -> good (cell v k).
Proof.
  intros Hv. unfold cell. destruct (nth_in_or_default k v FLT_MAX) as [H | ->];
    [ | exact good_max ].
  rewrite List.Forall_forall in Hv. apply Hv, H.
Qed.

Lemma good_repeat n : Forall good (repeat FLT_MAX n).
Proof. apply List.Forall_forall. intros x Hx. apply repeat_spec in Hx. subst. exact good_max. Qed.

Lemma good_insert (v : list F) j x : Forall good v -> good x -> Forall good (<[j := x]> v).
Proof. intros Hv Hx. apply Forall_insert; assumption. Qed.

Lemma firstRow_good n : forall j g0 ideal v,
  Forall good v -> Forall good (firstRow n j g0 ideal v).
Proof.
  induction n as [|n IH]; intros j g0 ideal v Hv; cbn [firstRow]; [ exact Hv | ].
  apply IH. destruct (cell v (j - 1) <? FLT_MAX)%f; [ | exact Hv ].
  apply good_insert; [ exact Hv | ].
  apply good_add; [ apply good_cell, Hv | apply good_dist ].
Qed.

Lemma fillRow_good n : forall j gi ideal prev curr,
  Forall good prev -> Forall good curr ->
  Forall good (fillRow n j gi ideal prev curr).
Proof.
  induction n as [|n IH]; intros j gi ideal prev curr Hp Hc; cbn [fillRow];
    [ exact Hc | ].
  apply IH; [ exact Hp | ].
  apply good_insert; [ exact Hc | ].
  apply (good_cellValue _ j (cell prev j) (cell curr (j - 1)) (cell prev (j - 1)));
    [ apply good_dist | apply good_cell, Hp | apply good_cell, Hc
    | apply good_cell, Hp ].
Qed.

Lemma dtwRow_good N W g p i : Forall good (dtwRow N W g p i).
Proof.
  induction i as [|i IH]; cbn [dtwRow].
  - apply firstRow_good, good_insert; [ apply good_repeat | apply good_dist ].
  - apply fillRow_good; [ exact IH | apply good_repeat ].
Qed.

Lemma D_good N W g p i j : good (dtwCell N W g p i j).
Proof. apply good_cell, dtwRow_good. Qed.

(** The best predecessor does not depend on the order in which the cell
    above and the cell to the left are looked at. *)
Lemma bestOf_swap j (up left diag : F) :
  (0 < j)%nat -> good up -> good left ->
  bestOf j up left diag = bestOf j left up diag.
Proof.
  intros Hj Hu Hl. unfold bestOf.
  destruct (Nat.ltb_spec 0 j) as [_|]; [ | lia ]. cbn [andb].
  assert (Hmin : forall x : F, (x <? FLT_MAX)%f = true -> fmin FLT_MAX x = x).
  { intros x Hx. unfold fmin. rewrite Hx. reflexivity. }
  destruct (up <? FLT_MAX)%f eqn:Hup, (left <? FLT_MAX)%f eqn:Hleft.
  - rewrite !Hmin by assumption. rewrite (min_comm up left) by assumption.
    reflexivity.
  - rewrite !Hmin by assumption. reflexivity.
  - rewrite !Hmin by assumption. reflexivity.
  - reflexivity.
Qed.

(** At the left border there is one predecessor, the cell above. *)
Lemma cellValue_border cost (up left diag : F) :
  cellValue cost 0 up left diag
  = if (up <? FLT_MAX)%f then (cost + up)%f else FLT_MAX.
Proof.
  unfold cellValue, bestOf. cbn [Nat.ltb Nat.leb andb].
  destruct (up <? FLT_MAX)%f eqn:Hup.
  - unfold fmin. rewrite Hup, Hup. reflexivity.
  - rewrite max_irrefl. reflexivity.
Qed.

Section OnePair.
Variables (N W : Z).
Hypothesis HN : 1 <= N.
Hypothesis HW : 0 <= W.

(** First row against first column. *)
Lemma D_row_column (g p : list (NormalizedPoint.t F)) (j : nat) :
  (1 <= j)%nat -> Z.of_nat j < N ->
  dtwCell N W g p 0 (j - 1) = dtwCell N W p g (j - 1) 0 ->
  dtwCell N W g p 0 j = dtwCell N W p g j 0.
Proof.
  intros Hj HjN IH.
  destruct j as [|j]; [ lia | ]. replace (S j - 1)%nat with j in IH by lia.
  destruct (Z.leb_spec (Z.of_nat (S j)) W) as [Hin|Hout].
  - rewrite D_0_in by lia. rewrite D_S_in by lia.
    rewrite cellValue_border. replace (S j - 1)%nat with j by lia.
    rewrite IH, (dist_sym (point g 0) (point p (S j))), add_comm. reflexivity.
  - rewrite D_0_out by lia. rewrite D_S_out by lia. reflexivity.
Qed.

Lemma D_sym_sum (s : nat) : forall (g p : list (NormalizedPoint.t F)) i j,
  (i + j = s)%nat -> Z.of_nat i < N -> Z.of_nat j < N ->
  dtwCell N W g p i j = dtwCell N W p g j i.
Proof.
  induction s as [s IH] using lt_wf_ind. intros g p i j Hs Hi Hj.
  destruct i as [|i], j as [|j].
  - rewrite !D_0_0 by assumption. apply dist_sym.
  - apply D_row_column; [ lia | lia | ].
    apply (IH (0 + (S j - 1))%nat); lia.
  - symmetry. apply D_row_column; [ lia | lia | ].
    symmetry. apply (IH (S i - 1 + 0)%nat); lia.
  - destruct (Z.leb_spec (Z.abs (Z.of_nat (S i) - Z.of_nat (S j))) W)
      as [Hin|Hout].
    + rewrite (D_S_in N W g p) by lia. rewrite (D_S_in N W p g) by lia.
      cbn [Nat.ltb Nat.leb]. replace (S j - 1)%nat with j by lia.
      replace (S i - 1)%nat with i by lia.
      rewrite (IH (i + S j)%nat ltac:(lia) g p i (S j)) by lia.
      rewrite (IH (S i + j)%nat ltac:(lia) g p (S i) j) by lia.
      rewrite (IH (i + j)%nat ltac:(lia) g p i j) by lia.
      rewrite (dist_sym (point g (S i)) (point p (S j))).
      unfold cellValue.
      rewrite (bestOf_swap (S j) (dtwCell N W p g (S j) i) (dtwCell N W p g j (S i)))
        by (try lia; apply D_good).
      reflexivity.
    + rewrite (D_S_out N W g p) by lia. rewrite (D_S_out N W p g) by lia.
      reflexivity.
Qed.
End OnePair.

Theorem computeDTWDistance_sym_from (s : Impl F) (a b : GesturePath.t F) :
  computeDTWDistance s a b = computeDTWDistance s b a.
Proof.
  unfold computeDTWDistance. cbv zeta.
  rewrite (orb_comm
             (negb (Z.of_nat (length (GesturePath.points a)) =? RESAMPLE_COUNT))).
  destruct (negb (Z.of_nat (length (GesturePath.points b)) =? RESAMPLE_COUNT)
            || negb (Z.of_nat (length (GesturePath.points a)) =? RESAMPLE_COUNT));
    [ reflexivity | ].
  assert (HW : 0 <= bandWidth s).
  { unfold bandWidth.
    match goal with
    | |- context [if ?c <? 1 then _ else _] => destruct (Z.ltb_spec c 1)
    end; lia. }
  assert (HN : 1 <= RESAMPLE_COUNT) by (unfold RESAMPLE_COUNT; lia).
  change (firstRow _ 1 _ (GesturePath.points b) _)
    with (dtwRow RESAMPLE_COUNT (bandWidth s) (GesturePath.points a)
                (GesturePath.points b) 0).
  change (firstRow _ 1 _ (GesturePath.points a) _)
    with (dtwRow RESAMPLE_COUNT (bandWidth s) (GesturePath.points b)
                (GesturePath.points a) 0).
  rewrite !rows_dtwRow.
  change (cell (dtwRow RESAMPLE_COUNT (bandWidth s) ?g ?p ?i) ?j)
    with (dtwCell RESAMPLE_COUNT (bandWidth s) g p i j).
  rewrite (D_sym_sum RESAMPLE_COUNT (bandWidth s) HN HW _
             (GesturePath.points a) (GesturePath.points b) _ _ eq_refl)
    by (unfold RESAMPLE_COUNT; lia).
  reflexivity.
Qed.
End Symmetry.

(** ** The arithmetic facts in binary32 *)

Module F32Dtw.
Import F32 F32Rank F32Sign.

Lemma binary_round_aux_unsigned m e l :
  unsigned (binary_round_aux prec emax false m e l).
Proof.
  unfold binary_round_aux.
  destruct (shr_fexp prec emax m e l) as [mrs' e'].
  destruct (shr_fexp prec emax _ e' loc_Exact) as [mrs'' e''].
  destruct (shr_m mrs''); cbn; auto.
  destruct (e'' <=? emax - prec); reflexivity.
Qed.

Lemma binary_round_unsigned m e : unsigned (binary_round prec emax false m e).
Proof.
  unfold binary_round. destruct (shl_align _ _ _) as [mz ez].
  apply binary_round_aux_unsigned.
Qed.

Lemma binary_round_aux_opp s m e l :
  binary_round_aux prec emax (negb s) m e l
  = SFopp (binary_round_aux prec emax s m e l).
Proof.
  unfold binary_round_aux.
  destruct (shr_fexp prec emax m e l) as [mrs' e'].
  destruct (shr_fexp prec emax _ e' loc_Exact) as [mrs'' e''].
  destruct (shr_m mrs''); cbn; auto.
  destruct (e'' <=? emax - prec); reflexivity.
Qed.

Lemma binary_normalize_opp z e :
  binary_normalize prec emax (- z) e false
  = match z with
    | Z0 => S754_zero false
    | _ => SFopp (binary_normalize prec emax z e false)
    end.
Proof.
  destruct z as [|q|q]; [ reflexivity | | ].
  - change (- Z.pos q) with (Z.neg q). cbn [binary_normalize].
    unfold binary_round. destruct (shl_align _ _ _) as [mz ez].
    apply (binary_round_aux_opp false).
  - change (- Z.neg q) with (Z.pos q). cbn [binary_normalize].
    unfold binary_round. destruct (shl_align _ _ _) as [mz ez].
    rewrite (binary_round_aux_opp false).
    destruct (binary_round_aux prec emax false (Z.pos mz) ez loc_Exact)
      as [[]|[]| |[] ? ?]; reflexivity.
Qed.

Lemma square_opp d : square (SFopp d) = square d.
Proof.
  destruct d as [s|s| |s m e]; cbn; try reflexivity;
    destruct s; reflexivity.
Qed.

Lemma square_unsigned d : unsigned (square d).
Proof.
  destruct d as [s|s| |s m e]; cbn; auto; try (destruct s; reflexivity).
  replace (xorb s s) with false by (destruct s; reflexivity).
  apply binary_round_aux_unsigned.
Qed.

(** The square of a difference does not depend on the order of the
    operands. *)
Lemma square_sub_sym (x y : f32) :
  square (SFsub prec emax x y) = square (SFsub prec emax y x).
Proof.
  destruct x as [sx|sx| |sx mx ex], y as [sy|sy| |sy my ey];
    try reflexivity;
    try (destruct sx, sy; reflexivity);
    try (destruct sx; reflexivity);
    try (destruct sy; reflexivity).
  cbn [SFsub]. rewrite (Z.min_comm ey ex).
  set (ez := Z.min ex ey).
  set (zx := cond_Zopp sx (Zpos (fst (shl_align mx ex ez)))).
  set (zy := cond_Zopp sy (Zpos (fst (shl_align my ey ez)))).
  replace (zy - zx) with (- (zx - zy)) by lia.
  rewrite binary_normalize_opp.
  destruct (zx - zy) eqn:E; [ reflexivity | | ]; apply eq_sym, square_opp.
Qed.

Lemma SFadd_comm (x y : f32) : SFadd prec emax x y = SFadd prec emax y x.
Proof.
  destruct x as [sx|sx| |sx mx ex], y as [sy|sy| |sy my ey];
    try reflexivity;
    try (destruct sx, sy; reflexivity).
  cbn [SFadd]. rewrite (Z.min_comm ey ex), Z.add_comm. reflexivity.
Qed.

Lemma SFadd_unsigned (x y : f32) :
  unsigned x -> unsigned y -> unsigned (SFadd prec emax x y).
Proof.
  destruct x as [sx|sx| |sx mx ex], y as [sy|sy| |sy my ey];
    cbn [unsigned]; intros Hx Hy; subst; cbn; auto.
  unfold binary_normalize.
  destruct (Z.pos _ + Z.pos _) eqn:E; [ reflexivity | | lia ].
  apply binary_round_unsigned.
Qed.

Lemma SFsqrt_unsigned (x : f32) : unsigned x -> unsigned (SFsqrt prec emax x).
Proof.
  destruct x as [s|s| |s m e]; cbn [unsigned]; intros Hx; subst; cbn; auto.
  destruct (SFsqrt_core_binary prec emax (Z.pos m) e) as [[mz ez] lz].
  apply binary_round_aux_unsigned.
Qed.

Lemma pointDistance_unsigned (a b : NormalizedPoint.t f32) :
  unsigned (Scorer.pointDistance a b).
Proof.
  unfold Scorer.pointDistance. cbn.
  apply SFsqrt_unsigned, SFadd_unsigned; apply square_unsigned.
Qed.

Lemma pointDistance_sym (a b : NormalizedPoint.t f32) :
  Scorer.pointDistance a b = Scorer.pointDistance b a.
Proof.
  unfold Scorer.pointDistance. cbn.
  change (SFmul prec emax ?d ?d) with (square d).
  rewrite (square_sub_sym (NormalizedPoint.x a)),
          (square_sub_sym (NormalizedPoint.y a)).
  reflexivity.
Qed.

(** Two unsigned values at the same place of the line are equal. *)
Lemma rank_unsigned_inj (x y : f32) :
  unsigned x -> unsigned y -> rank x = rank y -> rank x <> None -> x = y.
Proof.
  destruct x as [sx|sx| |sx mx ex], y as [sy|sy| |sy my ey];
    cbn [unsigned]; intros Hx Hy; subst; cbn; intros E H;
    try congruence; try discriminate.
Qed.

Lemma fmin_comm_unsigned (x y : f32) :
  unsigned x -> unsigned y ->
  (x <? FLT_MAX)%f = true -> (y <? FLT_MAX)%f = true ->
  fmin x y = fmin y x.
Proof.
  intros Ux Uy Hx Hy. unfold fmin.
  destruct (flt_ordered _ _ Hx) as [Ox _]. destruct (flt_ordered _ _ Hy) as [Oy _].
  apply F32Order.ordered_rank in Ox, Oy.
  cbn. unfold SFltb. rewrite !F32Order.SFcompare_rank.
  destruct (rank x) as [rx|] eqn:Ex; [ | congruence ].
  destruct (rank y) as [ry|] eqn:Ey; [ | congruence ].
  pose proof (F32Order.lex3_spec rx ry) as H1.
  pose proof (F32Order.lex3_spec ry rx) as H2.
  destruct (lex3 rx ry) eqn:E1, (lex3 ry rx) eqn:E2; try reflexivity;
    try (exfalso; destruct rx as [[a1 a2] a3], ry as [[b1 b2] b3];
         cbn in H1, H2; try (inversion H1; subst); try (inversion H2; subst);
         lia).
  apply rank_unsigned_inj; try assumption; congruence.
Qed.

(** C9.  The DTW distance is symmetric, bit for bit: swapping the two
    paths gives the same binary32 value, for every scorer configuration
    and all paths (of 64 points or not). *)
Theorem computeDTWDistance_symmetric (s : Scorer.Impl f32)
    (a b : GesturePath.t f32) :
  Scorer.computeDTWDistance s a b = Scorer.computeDTWDistance s b a.
Proof.
  apply (computeDTWDistance_sym_from unsigned).
  - reflexivity.
  - apply pointDistance_unsigned.
  - apply SFadd_unsigned.
  - apply pointDistance_sym.
  - apply SFadd_comm.
  - reflexivity.
  - apply fmin_comm_unsigned.
Qed.
End F32Dtw.
